(** * internal/config: the configuration store of the MinIO server

    A shallow embedding of [internal/config/config.go] and the properties
    of its key/value lists, its two-level store, its resolver and its
    redactor.

    Data.  A Go string is a [string] (a sequence of bytes).  A [KVS] is a
    Go slice: a header (backing array, length) over an array that lives in
    a heap, so that two headers over one array alias each other exactly
    as they do in Go.  No function of the file reslices below the capacity
    of the array, so the capacity of a slice is the length of its array.
    A [Config] is [map[string]map[string]KVS]; every inner map is made by
    [New] or [Clone] for one subsystem and is never stored under a second
    name, so maps are values here ([gmap]) and only slices are shared.

    Effects.  Functions that allocate, write into an array or range over a
    map run in the monad [M]: a state (heap, scheduler position) is
    threaded through, and a run-time panic ends the computation.  Go leaves
    the order of a [range] over a map unspecified: each such loop asks the
    scheduler [maporder] for the order of its keys. *)

From stdpp Require Import gmap strings list fin_maps sorting.

Set Default Proof Using "Type*".

(** ** What the package imports *)

(** Everything the file takes from other packages and from the Go run
    time.  [Enable] is the constant [madmin.EnableKey], the key of the
    state of a target; [KvFields] and [SanitizeValue] are the tokeniser of
    package madmin; [Fields] and [ToUpper] are [strings.Fields] and
    [strings.ToUpper]; [growslice n k] is the spare capacity the run time
    adds when [append] moves a slice of capacity [n] to a new array with
    room for [k] elements; [maporder t ks] is the order in which the
    [t]-th [range] over a map visits its keys [ks]. *)
Class Imports := {
  Enable : string;
  KvFields : string → list string → list string;
  SanitizeValue : string → string;
  Fields : string → list string;
  ToUpper : string → string;
  growslice : nat → nat → nat;
  maporder : nat → list string → list string;
  maporder_perm : ∀ t ks, maporder t ks ≡ₚ ks
}.

(** Modelled from the spec: the separators of package madmin, which the
    spec fixes as [:] between subsystem and target, [=] between key and
    value and one space between fields. *)
Definition SubSystemSeparator : string := ":".

(** Modelled from the spec: the constants [madmin.Default],
    [madmin.CommentKey] and [madmin.EnableOn], which the spec gives as the
    sentinel target name [_], the reserved key [comment] and the state
    value [on]. *)
Definition Default : string := "_".
Definition Comment : string := "comment".
Definition EnableOn : string := "on".

Definition KvSeparator : string := "=".
Definition KvSpaceSeparator : string := " ".

Definition EnvPrefix : string := "MINIO_".

(** [strings.SplitN(s, sep, 2)] for a non-empty separator: cut at the
    first occurrence of [sep], or return [s] alone. *)
Definition SplitN2 (s sep : string) : list string :=
  match String.index 0 sep s with
  | Some i =>
      [String.substring 0 i s;
       String.substring (i + String.length sep)
         (String.length s - (i + String.length sep)) s]
  | None => [s]
  end.

(** [strings.HasPrefix(s, p)]. *)
Definition HasPrefix (s p : string) : bool := String.prefix p s.

(** ** Errors *)

Record Error := mkError { Err : string }.

(** A Go [error]: [None] is [nil]. *)
Definition error := option Error.

Definition Errorf (msg : string) : error := Some (mkError msg).

(** ** Key/value pairs and the heap of backing arrays *)

Record KV := mkKV { Key : string; Value : string }.

#[global] Instance KV_eq_dec : EqDecision KV.
Proof. solve_decision. Defined.

(** A slice header.  [ptr = None] is the slice without an array ([nil],
    and the empty literal [KVS{}]): its capacity is zero. *)
Record KVS := mkKVS { ptr : option nat; len : nat }.

#[global] Instance KVS_eq_dec : EqDecision KVS.
Proof. solve_decision. Defined.

Definition nilKVS : KVS := mkKVS None 0.

Record state := mkState { heap : list (list KV); sched : nat }.

Definition array (σ : state) (p : option nat) : list KV :=
  match p with
  | Some a => default [] (heap σ !! a)
  | None => []
  end.

Definition cap (σ : state) (kvs : KVS) : nat := length (array σ (ptr kvs)).

(** The elements a slice shows: the first [len] cells of its array. *)
Definition elems (σ : state) (kvs : KVS) : list KV :=
  take (len kvs) (array σ (ptr kvs)).

(** A header is valid in a state when its array is allocated and is at
    least as long as the slice. *)
Definition valid (σ : state) (kvs : KVS) : Prop :=
  match ptr kvs with
  | Some a => a < length (heap σ) ∧ len kvs ≤ cap σ kvs
  | None => len kvs = 0
  end.

(** [a[i] = x] on the array at [p]. *)
Definition store (p : option nat) (i : nat) (x : KV) (σ : state) : state :=
  match p with
  | Some a => mkState (alter (λ arr, <[i:=x]> arr) a (heap σ)) (sched σ)
  | None => σ
  end.

(** A new array; its address is the next free one. *)
Definition alloc (arr : list KV) (σ : state) : option nat * state :=
  (Some (length (heap σ)), mkState (heap σ ++ [arr]) (sched σ)).

Definition zeroKV : KV := mkKV "" "".

(** ** The monad of the store operations *)

Inductive res (A : Type) : Type :=
  | Done (a : A)
  | Panic (msg : string).
Arguments Done {A} a.
Arguments Panic {A} msg.

Definition M (A : Type) : Type := state → res A * state.

Definition ret {A} (a : A) : M A := λ σ, (Done a, σ).

Definition bind {A B} (m : M A) (k : A → M B) : M B :=
  λ σ, match m σ with
       | (Done a, σ') => k a σ'
       | (Panic msg, σ') => (Panic msg, σ')
       end.

Definition panic {A} (msg : string) : M A := λ σ, (Panic msg, σ).

Definition get_state : M state := λ σ, (Done σ, σ).

Definition modify (f : state → state) : M unit := λ σ, (Done tt, f σ).

#[global] Instance M_ret : MRet M := @ret.
#[global] Instance M_bind : MBind M := λ A B k m, bind m k.

(** The order of one [range] over a map with keys [ks]; the scheduler
    moves on. *)
Definition range_keys `{Imports} (ks : list string) : M (list string) :=
  λ σ, (Done (maporder (sched σ) ks), mkState (heap σ) (S (sched σ))).

(** A loop over a list of values with a loop-carried variable. *)
Fixpoint for_each {A B} (l : list A) (body : A → B → M B) (b : B) : M B :=
  match l with
  | [] => ret b
  | a :: l' => b' ← body a b; for_each l' body b'
  end.

(** [for i, kv := range kvs]: the header is read once, each element when
    its turn comes. *)
Definition range_slice {B} (kvs : KVS) (body : nat → KV → B → M B) (b : B) : M B :=
  for_each (seq 0 (len kvs))
    (λ i b, σ ← get_state;
            body i (default zeroKV (array σ (ptr kvs) !! i)) b) b.

(** ** KVS *)

Section kvs.
Context `{Imports}.

(** [kvs.Lookup(key)] over the elements the slice shows. *)
Fixpoint Lookup_list (l : list KV) (key : string) : string * bool :=
  match l with
  | [] => ("", false)
  | kv :: l' => if decide (Key kv = key) then (Value kv, true) else Lookup_list l' key
  end.

Definition Lookup (σ : state) (kvs : KVS) (key : string) : string * bool :=
  Lookup_list (elems σ kvs) key.

(** [kvs.Get(key)]. *)
Definition Get_list (l : list KV) (key : string) : string :=
  let '(v, ok) := Lookup_list l key in if ok then v else "".

Definition Get (σ : state) (kvs : KVS) (key : string) : string :=
  Get_list (elems σ kvs) key.

Definition Empty (kvs : KVS) : bool := bool_decide (len kvs = 0).

(** Index of the first element with the key. *)
Fixpoint find_key (l : list KV) (key : string) : option nat :=
  match l with
  | [] => None
  | kv :: l' => if decide (Key kv = key) then Some 0 else S <$> find_key l' key
  end.

(** [append(kvs, x)]: in place when the array has room, else into a new
    array. *)
Definition append1 (kvs : KVS) (x : KV) : M KVS :=
  λ σ, if decide (len kvs < cap σ kvs)
       then (Done (mkKVS (ptr kvs) (S (len kvs))), store (ptr kvs) (len kvs) x σ)
       else let '(p, σ') :=
              alloc (elems σ kvs ++ x :: replicate (growslice (cap σ kvs) (S (len kvs))) zeroKV) σ in
            (Done (mkKVS p (S (len kvs))), σ').

(** [kvs.Set(key, value)]; the new header is returned. *)
Definition Set_ (kvs : KVS) (key value : string) : M KVS :=
  λ σ, match find_key (elems σ kvs) key with
       | Some i => (Done kvs, store (ptr kvs) i (mkKV key value) σ)
       | None => append1 kvs (mkKV key value) σ
       end.

(** [kvs.Clone()]: [append(make(KVS, 0, len(kvs)), kvs...)]. *)
Definition Clone_KVS (kvs : KVS) : M KVS :=
  λ σ, let '(p, σ') := alloc (elems σ kvs) σ in
       (Done (mkKVS p (len kvs)), σ').

(** [kvs.Keys()]. *)
Definition Keys (σ : state) (kvs : KVS) : list string :=
  let keys := Key <$> elems σ kvs in
  if bool_decide (Comment ∈ keys) then keys else keys ++ [Comment].

End kvs.

(** ** The registered subsystems *)

Definition CredentialsSubSys : string := "credentials".
Definition PolicyOPASubSys : string := "policy_opa".
Definition PolicyPluginSubSys : string := "policy_plugin".
Definition IdentityOpenIDSubSys : string := "identity_openid".
Definition IdentityLDAPSubSys : string := "identity_ldap".
Definition IdentityTLSSubSys : string := "identity_tls".
Definition IdentityPluginSubSys : string := "identity_plugin".
Definition CacheSubSys : string := "cache".
Definition SiteSubSys : string := "site".
Definition RegionSubSys : string := "region".
Definition EtcdSubSys : string := "etcd".
Definition StorageClassSubSys : string := "storage_class".
Definition APISubSys : string := "api".
Definition CompressionSubSys : string := "compression".
Definition LoggerWebhookSubSys : string := "logger_webhook".
Definition AuditWebhookSubSys : string := "audit_webhook".
Definition AuditKafkaSubSys : string := "audit_kafka".
Definition HealSubSys : string := "heal".
Definition ScannerSubSys : string := "scanner".
Definition CrawlerSubSys : string := "crawler".
Definition SubnetSubSys : string := "subnet".
Definition CallhomeSubSys : string := "callhome".

Definition NotifyKafkaSubSys : string := "notify_kafka".
Definition NotifyMQTTSubSys : string := "notify_mqtt".
Definition NotifyMySQLSubSys : string := "notify_mysql".
Definition NotifyNATSSubSys : string := "notify_nats".
Definition NotifyNSQSubSys : string := "notify_nsq".
Definition NotifyESSubSys : string := "notify_elasticsearch".
Definition NotifyAMQPSubSys : string := "notify_amqp".
Definition NotifyPostgresSubSys : string := "notify_postgres".
Definition NotifyRedisSubSys : string := "notify_redis".
Definition NotifyWebhookSubSys : string := "notify_webhook".

(** [set.CreateStringSet(...)]. *)
Definition CreateStringSet (l : list string) : gset string := list_to_set l.

Definition Contains (S : gset string) (x : string) : bool := bool_decide (x ∈ S).
Arguments Contains _ _ : simpl never.

(** [set.FuncMatch(matchFn, matchString)]: the members [k] with
    [matchFn(k, matchString)]. *)
Definition FuncMatch (S : gset string) (matchFn : string → string → bool)
    (matchString : string) : gset string :=
  filter (λ k, matchFn k matchString = true) S.

Definition IsEmpty (S : gset string) : bool := bool_decide (S = ∅).
Arguments IsEmpty _ : simpl never.

(** [set.ToSlice()]: the members, sorted. *)
Definition ToSlice (S : gset string) : list string :=
  merge_sort String.le (elements S).

Definition SubSystems : gset string := CreateStringSet [
  CredentialsSubSys; SiteSubSys; RegionSubSys; EtcdSubSys; CacheSubSys;
  APISubSys; StorageClassSubSys; CompressionSubSys; LoggerWebhookSubSys;
  AuditWebhookSubSys; AuditKafkaSubSys; PolicyOPASubSys; PolicyPluginSubSys;
  IdentityLDAPSubSys; IdentityOpenIDSubSys; IdentityTLSSubSys;
  IdentityPluginSubSys; ScannerSubSys; HealSubSys; NotifyAMQPSubSys;
  NotifyESSubSys; NotifyKafkaSubSys; NotifyMQTTSubSys; NotifyMySQLSubSys;
  NotifyNATSSubSys; NotifyNSQSubSys; NotifyPostgresSubSys; NotifyRedisSubSys;
  NotifyWebhookSubSys; SubnetSubSys; CallhomeSubSys ].

Definition SubSystemsDynamic : gset string := CreateStringSet [
  APISubSys; CompressionSubSys; ScannerSubSys; HealSubSys; SubnetSubSys;
  CallhomeSubSys; LoggerWebhookSubSys; AuditWebhookSubSys; AuditKafkaSubSys;
  StorageClassSubSys ].

Definition SubSystemsSingleTargets : gset string := CreateStringSet [
  CredentialsSubSys; SiteSubSys; RegionSubSys; EtcdSubSys; CacheSubSys;
  APISubSys; StorageClassSubSys; CompressionSubSys; PolicyOPASubSys;
  PolicyPluginSubSys; IdentityLDAPSubSys; IdentityTLSSubSys;
  IdentityPluginSubSys; HealSubSys; ScannerSubSys ].

Definition renamedSubsys : gmap string string :=
  {[ CrawlerSubSys := ScannerSubSys ]}.

Definition resolvableSubsystems : gset string :=
  CreateStringSet [ IdentityOpenIDSubSys ].

#[global] Opaque SubSystems SubSystemsDynamic SubSystemsSingleTargets.

(** ** The metadata registry *)

(** Modelled from the spec: the key descriptor [HelpKV] of help.go, which
    the spec gives as a key with an optional flag and a sensitive flag. *)
Record HelpKV := mkHelpKV { HelpKey : string; Optional : bool; Sensitive : bool }.

(** The package variables [DefaultKVS], [HelpSubSysMap] and
    [HelpDeprecatedSubSysMap], written once by the [Register] functions. *)
Class Registry := {
  DefaultKVS : gmap string KVS;
  HelpSubSysMap : gmap string (list HelpKV);
  HelpDeprecatedSubSysMap : gmap string HelpKV
}.

#[global] Instance KVS_inhabited : Inhabited KVS := populate nilKVS.
#[global] Instance HelpKV_inhabited : Inhabited HelpKV := populate (mkHelpKV "" false false).

(** ** The store *)

Abbreviation Config := (gmap string (gmap string KVS)).

(** [c[subSys][tgt]] with its [ok]. *)
Definition entry (c : Config) (subSys tgt : string) : option KVS :=
  c !! subSys ≫= (.!! tgt).

(** [c[subSys][tgt] = kvs]; writing into the map of a subsystem the store
    does not have is an assignment to an entry of a nil map. *)
Definition assign (c : Config) (subSys tgt : string) (kvs : KVS) : M Config :=
  match c !! subSys with
  | Some m => ret (<[subSys := <[tgt := kvs]> m]> c)
  | None => panic "assignment to entry in nil map"
  end.

(** [l[i]] on a slice of strings. *)
Definition index (l : list string) (i : nat) : M string :=
  match l !! i with
  | Some x => ret x
  | None => panic "runtime error: index out of range"
  end.

(** [for k, v := range m] with a loop-carried variable. *)
Definition range_map `{Imports} {V B} (m : gmap string V)
    (body : string → V → B → M B) (b : B) : M B :=
  ks ← range_keys (map_to_list m).*1;
  for_each ks (λ k b, match m !! k with Some v => body k v b | None => ret b end) b.

Inductive ValueSource := ValueSourceAbsent | ValueSourceDef | ValueSourceCfg | ValueSourceEnv.

Record Target := mkTarget { SubSystem : string; Target_KVS : KVS }.

Section config.
Context `{Imports} `{Registry}.

(** [New()]. *)
Definition New : Config :=
  foldl (λ srvCfg k, <[k := {[ Default := DefaultKVS !!! k ]}]> srvCfg) ∅ (ToSlice SubSystems).

(** [append(nil, kv...)]: nil when there is nothing to add. *)
Definition append_nil (kv : KVS) : M KVS :=
  λ σ, if decide (len kv = 0) then (Done nilKVS, σ)
       else let '(p, σ') := alloc (elems σ kv ++ replicate (growslice 0 (len kv)) zeroKV) σ in
            (Done (mkKVS p (len kv)), σ').

(** [c.Clone()]. *)
Definition Clone (c : Config) : M Config :=
  range_map c (λ subSys tgtKV cp,
    m ← range_map tgtKV (λ tgt kv (m : gmap string KVS),
           new ← append_nil kv; ret (<[tgt := new]> m)) ∅;
    ret (<[subSys := m]> cp)) New.

(** [c.DelKVS(s)]. *)
Definition DelKVS (s : string) (c : Config) : M (Config * error) :=
  if decide (s = "") then ret (c, Errorf "input arguments cannot be empty") else
  let inputs := Fields s in
  if decide (1 < length inputs) then ret (c, Errorf ("invalid number of arguments " +:+ s)) else
  input0 ← index inputs 0;
  let subSystemValue := SplitN2 input0 SubSystemSeparator in
  match subSystemValue with
  | [] => ret (c, Errorf ("invalid number of arguments " +:+ s))
  | subSys :: rest =>
      if negb (Contains SubSystems subSys) then ret (delete subSys c, None) else
      let del (tgt : string) : M (Config * error) :=
        match c !! subSys with
        | Some m =>
            match m !! tgt with
            | Some _ => ret (<[subSys := delete tgt m]> c, None)
            | None => ret (c, Errorf ("sub-system " +:+ s +:+ " already deleted"))
            end
        | None => ret (c, Errorf ("sub-system " +:+ s +:+ " already deleted"))
        end in
      match rest with
      | [tgt] =>
          if decide (tgt = "")
          then ret (c, Errorf ("sub-system target '" +:+ s +:+ "' cannot be empty"))
          else del tgt
      | _ => del Default
      end
  end.

(** [GetSubSys(s)]: subsystem, inputs, target, error. *)
Definition GetSubSys (s : string) : string * list string * string * error :=
  if decide (s = "") then ("", [], Default, Errorf "input arguments cannot be empty") else
  let inputs := SplitN2 s KvSpaceSeparator in
  let subSystemValue := SplitN2 (hd "" inputs) SubSystemSeparator in
  let subSys := hd "" subSystemValue in
  if negb (Contains SubSystems subSys)
  then (subSys, inputs, Default, Errorf ("unknown sub-system " +:+ s)) else
  if decide (length inputs = 1) then (subSys, inputs, Default, None) else
  if Contains SubSystemsSingleTargets subSys && bool_decide (length subSystemValue = 2)
  then (subSys, inputs, Default,
        Errorf ("sub-system '" +:+ subSys +:+ "' only supports single target")) else
  match subSystemValue with
  | [_; tgt] => (subSys, inputs, tgt, None)
  | _ => (subSys, inputs, Default, None)
  end.

(** The tokens of [SetKVS]: a [key=value] token sets the key, a token
    without separator continues the value of the key before it; the
    first token that can do neither ends the loop with an error. *)
Fixpoint parse_fields (fields : list string) (kvs : KVS) (prevK : string)
    : M (KVS * error) :=
  match fields with
  | [] => ret (kvs, None)
  | v :: rest =>
      match SplitN2 v KvSeparator with
      | [] => parse_fields rest kvs prevK
      | [k0] =>
          if decide (prevK = "")
          then ret (kvs, Errorf ("key '" +:+ k0 +:+ "', cannot have empty value"))
          else
            σ ← get_state;
            let value := Get σ kvs prevK +:+ KvSpaceSeparator +:+ SanitizeValue k0 in
            kvs' ← Set_ kvs prevK value;
            parse_fields rest kvs' prevK
      | [k0; v0] =>
          kvs' ← Set_ kvs k0 (SanitizeValue v0);
          parse_fields rest kvs' k0
      | k0 :: _ => ret (kvs, Errorf ("key '" +:+ k0 +:+ "', cannot have empty value"))
      end
  end.

(** The key/value pairs of the directive ([SetKVS], from [kvs := KVS{}]
    to the implicit state): the parsed pairs, or the error of the token
    loop. *)
Definition directive_kvs (fields : list string) (defaults : KVS)
    : M (KVS * bool * error) :=
  '(kvs, perr) ← parse_fields fields nilKVS "";
  if perr is Some _ then ret (kvs, false, perr) else
  σ ← get_state;
  let ok := (Lookup σ kvs Enable).2 in
  let enableRequired := (Lookup σ defaults Enable).2 in
  kvs ← (if negb ok && enableRequired then Set_ kvs Enable EnableOn else ret kvs);
  ret (kvs, enableRequired, None).

(** The merged pairs ([SetKVS], from [var currKVS KVS] to the comment):
    a clone of the stored entry [ck] back-filled with the defaults, or a
    clone of the defaults, then the pairs of the directive, the comment
    last. *)
Definition merge_kvs (ck : option KVS) (defaults kvs : KVS) : M KVS :=
  currKVS ← match ck with
            | None => Clone_KVS defaults
            | Some ck =>
                currKVS ← Clone_KVS ck;
                range_slice defaults (λ _ kv currKVS,
                  σ ← get_state;
                  if (Lookup σ currKVS (Key kv)).2 then ret currKVS
                  else Set_ currKVS (Key kv) (Value kv)) currKVS
            end;
  currKVS ← range_slice kvs (λ _ kv currKVS,
              if decide (Key kv = Comment) then ret currKVS
              else Set_ currKVS (Key kv) (Value kv)) currKVS;
  σ ← get_state;
  let '(v, ok) := Lookup σ kvs Comment in
  if ok then Set_ currKVS Comment v else ret currKVS.

(** The last loop of [SetKVS] over the merged pairs [l]: the first help
    key that is empty, not optional and under an enabled target is an
    error. *)
Fixpoint check_required (l : list KV) (enableRequired : bool)
    (subSys : string) (hkvs : list HelpKV) : error :=
  match hkvs with
  | [] => None
  | hkv :: rest =>
      let enabled :=
        if enableRequired
        then bool_decide (Get_list l Enable = EnableOn)
        else true in
      let v := (Lookup_list l (HelpKey hkv)).1 in
      if bool_decide (v = "") && negb (Optional hkv) && enabled
      then Errorf ("'" +:+ HelpKey hkv +:+ "' is not optional for '" +:+ subSys +:+
                   "' sub-system, please check '" +:+ subSys +:+ "' documentation")
      else check_required l enableRequired subSys rest
  end.

(** [c.SetKVS(s, defaultKVS)]: the store after the call, [dynamic], [err]. *)
Definition SetKVS (s : string) (defaultKVS : gmap string KVS) (c : Config)
    : M (Config * (bool * error)) :=
  let '(subSys, inputs, tgt, err) := GetSubSys s in
  if err is Some _ then ret (c, (false, err)) else
  let dynamic := Contains SubSystemsDynamic subSys in
  input1 ← index inputs 1;
  σ ← get_state;
  let fields := KvFields input1 (Keys σ (defaultKVS !!! subSys)) in
  if decide (length fields = 0)
  then ret (c, (false, Errorf ("sub-system '" +:+ subSys +:+ "' cannot have empty keys")))
  else
  '(kvs, enableRequired, perr) ← directive_kvs fields (defaultKVS !!! subSys);
  if perr is Some _ then ret (c, (false, perr)) else
  currKVS ← merge_kvs (entry c subSys tgt) (defaultKVS !!! subSys) kvs;
  σ ← get_state;
  match check_required (elems σ currKVS) enableRequired subSys (HelpSubSysMap !!! subSys) with
  | Some e => ret (c, (false, Some e))
  | None => c' ← assign c subSys tgt currKVS; ret (c', (dynamic, None))
  end.

(** [c.GetKVS(s, defaultKVS)]. *)
Definition GetKVS (s : string) (defaultKVS : gmap string KVS) (c : Config)
    : M (list Target * error) :=
  if decide (s = "") then ret ([], Errorf "input cannot be empty") else
  let inputs := Fields s in
  if decide (1 < length inputs) then ret ([], Errorf ("invalid number of arguments " +:+ s)) else
  input0 ← index inputs 0;
  let subSystemValue := SplitN2 input0 SubSystemSeparator in
  match subSystemValue with
  | [] => ret ([], Errorf ("invalid number of arguments " +:+ s))
  | subSysPrefix :: rest =>
      let found :=
        if Contains SubSystems subSysPrefix then true
        else negb (IsEmpty (FuncMatch SubSystems HasPrefix subSysPrefix))
             && bool_decide (length subSystemValue = 1) in
      if negb found then ret ([], Errorf ("unknown sub-system " +:+ s)) else
      match rest with
      | [tgt] =>
          if decide (tgt = "")
          then ret ([], Errorf ("sub-system target '" +:+ s +:+ "' cannot be empty")) else
          match entry c subSysPrefix tgt with
          | None => ret ([], Errorf ("sub-system target '" +:+ s +:+ "' doesn't exist"))
          | Some kvs =>
              kvs ← range_slice (defaultKVS !!! subSysPrefix) (λ _ kv kvs,
                      σ ← get_state;
                      if (Lookup σ kvs (Key kv)).2 then ret kvs
                      else Set_ kvs (Key kv) (Value kv)) kvs;
              ret ([mkTarget input0 kvs], None)
          end
      | _ =>
          deprecated ← range_map HelpDeprecatedSubSysMap (λ _ v kvsOrder,
                          ret (kvsOrder ++ [v])) [];
          let kvsOrder := HelpSubSysMap !!! "" ++ deprecated in
          targets ← for_each kvsOrder (λ hkv targets,
            if negb (HasPrefix (HelpKey hkv) subSysPrefix) then ret targets else
            let targets :=
              if Empty (default nilKVS (entry c (HelpKey hkv) Default))
              then targets ++ [mkTarget (HelpKey hkv) (defaultKVS !!! HelpKey hkv)]
              else targets in
            range_map (c !!! HelpKey hkv) (λ k kvs targets,
              kvs ← range_slice (defaultKVS !!! HelpKey hkv) (λ _ dkv kvs,
                      σ ← get_state;
                      if (Lookup σ kvs (Key dkv)).2 then ret kvs
                      else Set_ kvs (Key dkv) (Value dkv)) kvs;
              if decide (k = Default)
              then ret (targets ++ [mkTarget (HelpKey hkv) kvs])
              else ret (targets ++
                        [mkTarget (HelpKey hkv +:+ SubSystemSeparator +:+ k) kvs]))
              targets) [];
          ret (targets, None)
      end
  end.

(** [c.Merge()].  The loop variable [subSys] is assigned inside the inner
    loop, so it is carried from one target to the next. *)
Definition Merge (c : Config) : M Config :=
  range_map c (λ subSys0 tgtKV cp,
    '(cp, _) ← range_map tgtKV (λ tgt _ '(cp, subSys),
      let orig := default nilKVS (entry c subSys tgt) in
      ckvs ← range_slice (default nilKVS (entry cp subSys Default)) (λ _ kv ckvs,
               σ ← get_state;
               if (Lookup σ orig (Key kv)).2 then ret ckvs
               else Set_ ckvs (Key kv) (Value kv)) orig;
      match cp !! subSys with
      | Some _ => cp ← assign cp subSys tgt ckvs; ret (cp, subSys)
      | None =>
          match renamedSubsys !! subSys with
          | None => ret (cp, subSys)
          | Some rnSubSys =>
              ckvs ← range_slice (default nilKVS (entry cp rnSubSys Default)) (λ _ kv ckvs,
                       σ ← get_state;
                       if (Lookup σ orig (Key kv)).2 then ret ckvs
                       else Set_ ckvs (Key kv) (Value kv)) ckvs;
              cp ← assign cp rnSubSys tgt ckvs;
              ret (cp, rnSubSys)
          end
      end) (cp, subSys0);
    ret cp) New.

(** [c.RedactSensitiveInfo()].  The assignment [configVals[name] = kvs]
    puts back the header the map holds under [name], so the maps of the
    copy stay as they are; the writes go to the arrays. *)
Definition RedactSensitiveInfo (c : Config) : M Config :=
  nc ← Clone c;
  _ ← range_map nc (λ configName configVals (_ : unit),
        for_each (HelpSubSysMap !!! configName) (λ helpKV _,
          if Sensitive helpKV then
            range_map configVals (λ name kvs _,
              range_slice kvs (λ i kvi _,
                if bool_decide (Key kvi = HelpKey helpKV) && negb (bool_decide (Value kvi = ""))
                then modify (store (ptr kvs) i (mkKV (Key kvi) "*redacted*"))
                else ret tt) tt) tt
          else ret tt) tt) tt;
  '(nc, _) ← DelKVS CredentialsSubSys nc;
  ret nc.

(** ** The resolver *)

Definition getEnvVarName (subSys target param : string) : string :=
  if decide (target = Default)
  then EnvPrefix +:+ ToUpper subSys +:+ "_" +:+ ToUpper param
  else EnvPrefix +:+ ToUpper subSys +:+ "_" +:+ ToUpper param +:+ "_" +:+ target.

(** [env.Get(key, defaultValue)] over the environment of the process. *)
Definition env_Get (environ : gmap string string) (key defaultValue : string) : string :=
  default defaultValue (environ !! key).

(** [c.ResolveConfigParam(subSys, target, cfgParam)]. *)
Definition ResolveConfigParam (environ : gmap string string) (σ : state) (c : Config)
    (subSys target cfgParam : string) : string * ValueSource :=
  if negb (Contains resolvableSubsystems subSys) then ("", ValueSourceAbsent) else
  match DefaultKVS !! subSys with
  | None => ("", ValueSourceAbsent)
  | Some defKVS =>
      let '(defValue, isFound) := Lookup σ defKVS cfgParam in
      if negb isFound then ("", ValueSourceAbsent) else
      let target := if decide (target = "") then Default else target in
      let envVar := getEnvVarName subSys target cfgParam in
      let value := env_Get environ envVar "" in
      if negb (bool_decide (value = "")) then (value, ValueSourceEnv) else
      match c !! subSys with
      | Some subSysStore =>
          match subSysStore !! target with
          | Some kvs =>
              let '(value, ok3) := Lookup σ kvs cfgParam in
              if ok3 then (value, ValueSourceCfg) else (defValue, ValueSourceDef)
          | None => (defValue, ValueSourceDef)
          end
      | None => (defValue, ValueSourceDef)
      end
  end.

End config.

#[global] Opaque New.

(** ** A reference instance of the imports

    Used to run the operations on concrete directives: package strings on
    ASCII text, the tokeniser of package madmin, a run time that doubles
    the capacity of a full slice, and a scheduler that visits the keys of a
    map in ascending order, or in descending order at the ticks [flip]
    selects. *)
Module Ref.

Definition upper (a : Ascii.ascii) : Ascii.ascii :=
  let n := Ascii.nat_of_ascii a in
  if (97 <=? n) && (n <=? 122) then Ascii.ascii_of_nat (n - 32) else a.

Fixpoint ToUpper (s : string) : string :=
  match s with
  | EmptyString => EmptyString
  | String a s' => String (upper a) (ToUpper s')
  end.

Fixpoint TrimLeft (s : string) : string :=
  match s with
  | EmptyString => EmptyString
  | String a s' => if Ascii.is_space a then TrimLeft s' else s
  end.

Definition TrimSpace (s : string) : string :=
  String.rev (TrimLeft (String.rev (TrimLeft s))).

Definition TrimPrefix (s p : string) : string :=
  if String.prefix p s
  then String.substring (String.length p) (String.length s - String.length p) s
  else s.

Definition TrimSuffix (s p : string) : string :=
  String.rev (TrimPrefix (String.rev s) (String.rev p)).

Definition KvDoubleQuote : string := String (Ascii.ascii_of_nat 34) EmptyString.
Definition KvSingleQuote : string := "'".

Definition SanitizeValue (v : string) : string :=
  let v := TrimSuffix (TrimPrefix (TrimSpace v) KvDoubleQuote) KvDoubleQuote in
  TrimSuffix (TrimPrefix v KvSingleQuote) KvSingleQuote.

Fixpoint cut (input : string) (valueIndexes : list nat) : list string :=
  match valueIndexes with
  | [] => []
  | i :: rest =>
      match rest with
      | j :: _ => TrimSpace (String.substring i (j - i) input) :: cut input rest
      | [] => [TrimSpace (String.substring i (String.length input - i) input)]
      end
  end.

Definition KvFields (input : string) (keys : list string) : list string :=
  cut input (merge_sort Nat.le
    (omap (λ key, String.index 0 (key +:+ KvSeparator) input) keys)).

Definition order (flip : nat → bool) (t : nat) (ks : list string) : list string :=
  if flip t then reverse (merge_sort String.le ks) else merge_sort String.le ks.

Definition order_perm flip t ks : order flip t ks ≡ₚ ks :=
  match flip t as b
    return (if b then reverse (merge_sort String.le ks) else merge_sort String.le ks) ≡ₚ ks
  with
  | true => transitivity (reverse_Permutation _) (merge_sort_Permutation _ _)
  | false => merge_sort_Permutation _ _
  end.

Definition imports (flip : nat → bool) : Imports :=
  Build_Imports "enable" KvFields SanitizeValue
    String.words ToUpper (λ n k, 2 * n - k) (order flip) (order_perm flip).

End Ref.

(** ** List-level readings of the KVS operations *)

(** What [Set] does to the elements a slice shows. *)
Definition kv_set (l : list KV) (key value : string) : list KV :=
  match find_key l key with
  | Some i => <[i := mkKV key value]> l
  | None => l ++ [mkKV key value]
  end.

(** [Set] with one key and each value of [vs] in turn. *)
Definition Set_many `{Imports} (kvs : KVS) (key : string) (vs : list string) : M KVS :=
  for_each vs (λ v kvs, Set_ kvs key v) kvs.

Section readings.
Context `{Imports}.

(** The token loop of [SetKVS] on elements. *)
Fixpoint parse_list (fields : list string) (l : list KV) (prevK : string)
    : list KV * error :=
  match fields with
  | [] => (l, None)
  | v :: rest =>
      match SplitN2 v KvSeparator with
      | [] => parse_list rest l prevK
      | [k0] =>
          if decide (prevK = "")
          then (l, Errorf ("key '" +:+ k0 +:+ "', cannot have empty value"))
          else parse_list rest
                 (kv_set l prevK (Get_list l prevK +:+ KvSpaceSeparator +:+ SanitizeValue k0))
                 prevK
      | [k0; v0] => parse_list rest (kv_set l k0 (SanitizeValue v0)) k0
      | k0 :: _ => (l, Errorf ("key '" +:+ k0 +:+ "', cannot have empty value"))
      end
  end.

(** The pairs of the directive with the implicit state. *)
Definition directive_list (fields : list string) (defaults : list KV)
    : list KV * bool * error :=
  let '(l, perr) := parse_list fields [] "" in
  if perr is Some _ then (l, false, perr) else
  let enableRequired := (Lookup_list defaults Enable).2 in
  (if negb (Lookup_list l Enable).2 && enableRequired
   then kv_set l Enable EnableOn else l, enableRequired, None).

(** The loops of [SetKVS] over a slice [src]: each pair that [g] selects,
    given the pairs built so far, is set. *)
Definition set_each (g : KV → list KV → bool) (src cur : list KV) : list KV :=
  foldl (λ cur kv, if g kv cur then kv_set cur (Key kv) (Value kv) else cur) cur src.

(** Every default key the pairs lack is added with its default value. *)
Definition backfill_list (defaults cur : list KV) : list KV :=
  set_each (λ kv cur, negb (Lookup_list cur (Key kv)).2) defaults cur.

(** The pairs of the directive, the comment apart, set over [cur]. *)
Definition overlay_list (kvs cur : list KV) : list KV :=
  set_each (λ kv _, negb (bool_decide (Key kv = Comment))) kvs cur.

(** The merged pairs: the stored entry back-filled with the defaults (the
    defaults alone when there is no entry), the pairs of the directive
    over it, the comment last. *)
Definition merged_list (existing : option (list KV)) (defaults kvs : list KV) : list KV :=
  let base := match existing with
              | None => defaults
              | Some ck => backfill_list defaults ck
              end in
  let cur := overlay_list kvs base in
  let '(v, ok) := Lookup_list kvs Comment in
  if ok then kv_set cur Comment v else cur.

End readings.

(** ** Frames *)

(** Every array at an address below [n] is in [σ'] what it is in [σ], and
    no array is lost. *)
Definition frame (n : nat) (σ σ' : state) : Prop :=
  (∀ a, a < n → heap σ' !! a = heap σ !! a) ∧ length (heap σ) ≤ length (heap σ').

(** The array of the slice, if it has one, is at an address from [n] on. *)
Definition owned (n : nat) (kvs : KVS) : Prop :=
  match ptr kvs with Some a => n ≤ a | None => True end.

(** The array of the slice, if it has one, is at an address below [n]. *)
Definition below (n : nat) (kvs : KVS) : Prop :=
  match ptr kvs with Some a => a < n | None => True end.

(** The values a [range] over the slice reads when nothing writes into its
    array meanwhile. *)
Definition cells (σ : state) (kvs : KVS) : list KV :=
  (λ i, default zeroKV (array σ (ptr kvs) !! i)) <$> seq 0 (len kvs).

(** [wp m σ Φ]: running [m] from [σ] ends in a result and a state that
    satisfy [Φ]. *)
Definition wp {A} (m : M A) (σ : state) (Φ : res A → state → Prop) : Prop :=
  Φ (m σ).1 (m σ).2.
Arguments wp : simpl never.


(** ** The resolver as the specification words it *)

Section resolver_spec.
Context `{Imports} `{Registry}.

(** The name of the environment variable: the prefix, the subsystem in
    upper case, an underscore and the parameter in upper case, and for a
    target other than the default one an underscore and the target. *)
Definition spec_envVarName (subSys target param : string) : string :=
  EnvPrefix +:+ ToUpper subSys +:+ "_" +:+ ToUpper param +:+
  (if decide (target = Default) then "" else "_" +:+ target).

(** The variable counts when it is set and not empty. *)
Definition spec_env (environ : gmap string string) (name : string) : option string :=
  match environ !! name with
  | Some v => if decide (v = "") then None else Some v
  | None => None
  end.

(** The stored value counts when the store has an entry for the subsystem
    and target and the entry has the parameter. *)
Definition spec_stored (σ : state) (c : Config) (subSys target param : string)
    : option string :=
  match entry c subSys target with
  | Some kvs =>
      if bool_decide (param ∈ Key <$> elems σ kvs) then Some (Get σ kvs param) else None
  | None => None
  end.

(** Environment first, then the stored entry of the subsystem and target,
    then the default; absent outside the allow-list and for a parameter
    the default KVS does not declare. *)
Definition spec_Resolve (environ : gmap string string) (σ : state) (c : Config)
    (subSys target param : string) : string * ValueSource :=
  match DefaultKVS !! subSys with
  | Some defKVS =>
      if bool_decide (subSys ∈ resolvableSubsystems ∧ param ∈ Key <$> elems σ defKVS) then
        match spec_env environ (spec_envVarName subSys target param) with
        | Some v => (v, ValueSourceEnv)
        | None =>
            match spec_stored σ c subSys target param with
            | Some v => (v, ValueSourceCfg)
            | None => (Get σ defKVS param, ValueSourceDef)
            end
        end
      else ("", ValueSourceAbsent)
  | None => ("", ValueSourceAbsent)
  end.

End resolver_spec.


(** ** A small registry to run the operations on

    Four subsystems with their defaults in the arrays 0 to 3 of the heap
    [Fixture.σ0]: site, notify_webhook, identity_openid and credentials. *)
Module Fixture.

Definition σ0 : state :=
  mkState
    [ [mkKV "name" ""; mkKV "region" ""];
      [mkKV "enable" "off"; mkKV "endpoint" ""; mkKV "auth_token" ""];
      [mkKV "client_id" "D"; mkKV "client_secret" ""];
      [mkKV "access_key" "minioadmin"; mkKV "secret_key" "minioadmin"] ] 0.

Definition registry : Registry := {|
  DefaultKVS :=
    {[ SiteSubSys := mkKVS (Some 0) 2;
       NotifyWebhookSubSys := mkKVS (Some 1) 3;
       IdentityOpenIDSubSys := mkKVS (Some 2) 2;
       CredentialsSubSys := mkKVS (Some 3) 2 ]};
  HelpSubSysMap :=
    {[ "" := [mkHelpKV SiteSubSys true false;
              mkHelpKV NotifyWebhookSubSys true false;
              mkHelpKV IdentityOpenIDSubSys true false];
       SiteSubSys := [mkHelpKV "name" true false; mkHelpKV "region" true false];
       NotifyWebhookSubSys :=
         [mkHelpKV "endpoint" false true; mkHelpKV "auth_token" true true];
       IdentityOpenIDSubSys :=
         [mkHelpKV "client_id" true false; mkHelpKV "client_secret" true true];
       CredentialsSubSys :=
         [mkHelpKV "access_key" false false; mkHelpKV "secret_key" false true] ]};
  HelpDeprecatedSubSysMap := ∅
|}.

(** A store with the default target of notify_webhook alone; its slice is
    the default KVS of the registry, as in a store made by [New]. *)
Definition c0 : Config :=
  {[ NotifyWebhookSubSys := {[ Default := mkKVS (Some 1) 3 ]} ]}.

(** The heap with two more arrays, 4 and 5: a webhook with a token and a
    pair of credentials. *)
Definition σ_secret : state :=
  mkState
    (heap σ0 ++
     [ [mkKV "enable" "on"; mkKV "endpoint" "http://a"; mkKV "auth_token" "secret123"];
       [mkKV "access_key" "AK"; mkKV "secret_key" "SK"] ]) 0.

(** A store with the webhook as the default target of notify_webhook. *)
Definition c_secret : Config :=
  {[ NotifyWebhookSubSys := {[ Default := mkKVS (Some 4) 3 ]} ]}.


(** A store with a target [x] of the credentials subsystem, which is a
    single-target subsystem: [GetSubSys] refuses the directive that would
    make [SetKVS] build it. *)
Definition c_cred : Config :=
  {[ CredentialsSubSys := {[ "x" := mkKVS (Some 5) 2 ]} ]}.

(** A store without the credentials subsystem, with a slice on the array
    of the default credentials of the registry. *)
Definition c_alias : Config :=
  {[ SiteSubSys := {[ "x" := mkKVS (Some 3) 2 ]} ]}.

End Fixture.


(** ** How a directive addresses the store *)

(** A single-token directive [subsystem] or [subsystem:target] and the
    entry it addresses: without a target, the default target. *)
Definition addresses `{Imports} (s subSys tgt : string) : Prop :=
  s ≠ "" ∧ ∃ tok, Fields s = [tok] ∧
    (SplitN2 tok SubSystemSeparator = [subSys] ∧ tgt = Default ∨
     SplitN2 tok SubSystemSeparator = [subSys; tgt] ∧ tgt ≠ "").

(** A single-token query that names the subsystem and the target. *)
Definition names_target `{Imports} (q subSys tgt : string) : Prop :=
  q ≠ "" ∧ ∃ tok, Fields q = [tok] ∧ SplitN2 tok SubSystemSeparator = [subSys; tgt].

(** A single-token query that is a name without target. *)
Definition bare_name `{Imports} (q name : string) : Prop :=
  q ≠ "" ∧ Fields q = [name] ∧ SplitN2 name SubSystemSeparator = [name].


(** ** Well-formed stores *)

(** Every slice of the store is valid in the state. *)
Definition valid_store (σ : state) (c : Config) : Prop :=
  ∀ subSys tgt kvs, entry c subSys tgt = Some kvs → valid σ kvs.

(** Every slice of a table of defaults is valid in the state. *)
Definition valid_table (σ : state) (t : gmap string KVS) : Prop :=
  ∀ subSys kvs, t !! subSys = Some kvs → valid σ kvs.


(** ** What SetKVS leaves *)

(** The result [r] and the state [σ'] of [SetKVS] from the state [σ], read
    on the elements of the slices: arrays allocated before the call are
    untouched; an error or a panic leaves the store alone; a success
    stores, under the subsystem and target of the directive, a slice in a
    new array that shows the merged pairs. *)
Definition SetKVS_post `{Imports} `{Registry} (s : string)
    (defaultKVS : gmap string KVS) (c : Config) (σ : state)
    (r : res (Config * (bool * error))) (σ' : state) : Prop :=
  frame (length (heap σ)) σ σ' ∧ sched σ' = sched σ ∧
  let '(subSys, inputs, tgt, err) := GetSubSys s in
  match err with
  | Some e => r = Done (c, (false, Some e))
  | None =>
      match inputs !! 1 with
      | None => r = Panic "runtime error: index out of range"
      | Some input1 =>
          let defaults := elems σ (defaultKVS !!! subSys) in
          let fields := KvFields input1 (Keys σ (defaultKVS !!! subSys)) in
          if decide (length fields = 0)
          then r = Done (c, (false, Errorf ("sub-system '" +:+ subSys +:+
                                            "' cannot have empty keys")))
          else
            let '(kvs, enableRequired, perr) := directive_list fields defaults in
            match perr with
            | Some e => r = Done (c, (false, Some e))
            | None =>
                let merged := merged_list (elems σ <$> entry c subSys tgt) defaults kvs in
                match check_required merged enableRequired subSys
                        (HelpSubSysMap !!! subSys) with
                | Some e => r = Done (c, (false, Some e))
                | None =>
                    match c !! subSys with
                    | None => r = Panic "assignment to entry in nil map"
                    | Some m =>
                        ∃ kvs', r = Done (<[subSys := <[tgt := kvs']> m]> c,
                                          (Contains SubSystemsDynamic subSys, None)) ∧
                          owned (length (heap σ)) kvs' ∧ valid σ' kvs' ∧
                          elems σ' kvs' = merged
                    end
                end
            end
      end
  end.


(** ** What the redactor does *)







(** [σ'] extends [σ]: the arrays of [σ] are there, unchanged. *)
Definition extends (σ σ' : state) : Prop := frame (length (heap σ)) σ σ'.

(** The slice [k'] is a copy of [kv] as it was in [σ0], in an array of its
    own at an address from [lo] on. *)
Definition is_clone (σ0 σ : state) (lo : nat) (kv k' : KVS) : Prop :=
  valid σ k' ∧ elems σ k' = elems σ0 kv ∧
  ∀ a, ptr k' = Some a → lo ≤ a < length (heap σ).

(** The map [m'] holds a copy of every slice of [m], and no two of them
    share an array. *)
Definition cloned_map (σ0 σ : state) (lo : nat) (m m' : gmap string KVS) : Prop :=
  (∀ t, m' !! t = None ↔ m !! t = None) ∧
  (∀ t kv k', m !! t = Some kv → m' !! t = Some k' → is_clone σ0 σ lo kv k') ∧
  (∀ t1 t2 k1 k2 a, m' !! t1 = Some k1 → m' !! t2 = Some k2 →
     ptr k1 = Some a → ptr k2 = Some a → t1 = t2).



(** The store [nc] is a clone of [c] as it was in [σ0]: a subsystem of
    [c] has a map of copies, no two slices of which share an array; a
    subsystem [c] lacks is as [New] has it. *)
Definition clone_of `{Imports} `{Registry} (σ0 σ : state) (c nc : Config) : Prop :=
  (∀ s, c !! s = None → nc !! s = New !! s) ∧
  (∀ s m, c !! s = Some m →
     ∃ m', nc !! s = Some m' ∧ cloned_map σ0 σ (length (heap σ0)) m m') ∧
  (∀ s s' m1 m2 t t' k k' a, is_Some (c !! s) → is_Some (c !! s') →
     nc !! s = Some m1 → nc !! s' = Some m2 → m1 !! t = Some k → m2 !! t' = Some k' →
     ptr k = Some a → ptr k' = Some a → s = s').


(** ** More of KVS *)

(** [copy(a[i:], xs)] on the array at [p]: the cells from [i] on take the
    values [xs]. *)
Definition copy_at (p : option nat) (i : nat) (xs : list KV) (σ : state) : state :=
  match p with
  | Some a =>
      mkState (alter (λ arr, take i arr ++ xs ++ drop (i + length xs) arr) a (heap σ))
              (sched σ)
  | None => σ
  end.

(** [kvs.Delete(key)].  In [append(kvs[:i], kvs[i+1:]...)] the
    first operand has the capacity of the slice, so the elements after the
    first match move down one cell in the array of the slice and its last
    cell keeps its value; the new header is returned. *)
Definition Delete (kvs : KVS) (key : string) : M KVS :=
  λ σ, match find_key (elems σ kvs) key with
       | Some i =>
           (Done (mkKVS (ptr kvs) (len kvs - 1)),
            copy_at (ptr kvs) i (drop (S i) (elems σ kvs)) σ)
       | None => (Done kvs, σ)
       end.


(** ** Shapes of a store *)

(** The store has a map for every registered subsystem. *)
Definition complete (c : Config) : Prop :=
  ∀ s, s ∈ SubSystems → is_Some (c !! s).

(** A single-target subsystem has no target but the default one. *)
Definition single_targets (c : Config) : Prop :=
  ∀ s t, s ∈ SubSystemsSingleTargets → is_Some (entry c s t) → t = Default.


(** ** Validation, the environment and the bulk loaders *)

(** What these functions take from package madmin: [HasSpace], whether a
    value holds white space, and [KvComment], the marker that begins a
    comment line. *)
Class Madmin := {
  HasSpace : string → bool;
  KvComment : string
}.

(** Modelled from the spec: the constant [madmin.KvDoubleQuote], which the
    spec gives as the double quote that wraps a value with white space. *)
Definition KvDoubleQuote : string := String (Ascii.ascii_of_nat 34) EmptyString.

(** [strings.TrimPrefix(s, prefix)]. *)
Definition TrimPrefix (s prefix : string) : string :=
  if HasPrefix s prefix
  then String.substring (String.length prefix) (String.length s - String.length prefix) s
  else s.

(** [strings.Join(l, sep)]. *)
Fixpoint Join (l : list string) (sep : string) : string :=
  match l with
  | [] => ""
  | [x] => x
  | x :: rest => x +:+ sep +:+ Join rest sep
  end.

(** [env.List(prefix)] of package env: the names of the variables of the
    environment that begin with [prefix]. *)
Definition env_List (environ : gmap string string) (prefix : string) : list string :=
  filter (λ k, HasPrefix k prefix = true) (map_to_list environ).*1.

(** A Go [error] that is a [config.Error] or the plain error of
    [fmt.Errorf]. *)
Inductive goerror :=
  | ConfigError (e : Error)
  | PlainError (msg : string).

Section validation.
Context `{Imports} `{Registry} `{Madmin}.

(** [kvs.String()] on the pairs the slice shows. *)
Definition KVS_String (l : list KV) : string :=
  foldl (λ s kv,
    if bool_decide (Key kv = Enable) && bool_decide (Value kv = EnableOn) then s else
    let spc := HasSpace (Value kv) in
    s +:+ Key kv +:+ KvSeparator +:+ (if spc then KvDoubleQuote else "") +:+ Value kv
      +:+ (if spc then KvDoubleQuote else "") +:+ KvSpaceSeparator) "" l.

(** The function [CheckValidKeys(subSys, kv, validKVS)]; it reads the two
    slices only, which are given by the pairs they show, and its slice
    [nkv] does not leave it. *)
Definition CheckValidKeys (subSys : string) (kv validKVS : list KV) : error :=
  let nkv := foldl (λ nkv kv,
               if decide (Key kv = Comment) then nkv
               else if (Lookup_list validKVS (Key kv)).2 then nkv else nkv ++ [kv]) [] kv in
  if decide (0 < length nkv)
  then Errorf ("found invalid keys (" +:+ KVS_String nkv +:+ ") for '" +:+ subSys +:+
               "' sub-system, use 'mc admin config reset myminio " +:+ subSys +:+
               "' to fix invalid keys")
  else None.

(** The message for the variables left in [candidates]. *)
Definition unknown_vars (candidates : gset string) : goerror :=
  PlainError ("The following environment variables are unknown: " +:+
              Join (ToSlice candidates) ", ").

(** [c.CheckValidKeys(subSys, deprecatedKeys)].  A [return] inside the
    last loop ends it: once the carried result is an error the later
    turns do nothing. *)
Definition Config_CheckValidKeys (environ : gmap string string) (c : Config)
    (subSys : string) (deprecatedKeys : list string) : M (option goerror) :=
  match DefaultKVS !! subSys with
  | None => ret (Some (PlainError ("Subsystem " +:+ subSys +:+ " does not exist")))
  | Some defKVS =>
      σ ← get_state;
      let validKeys := (Key <$> elems σ defKVS) ++ [Comment] in
      let subSysEnvVars := env_List environ (EnvPrefix +:+ ToUpper subSys) in
      let candidates := CreateStringSet subSysEnvVars in
      let candidates :=
        foldl (λ cand param, cand ∖ {[ getEnvVarName subSys Default param ]})
              candidates validKeys in
      let isSingleTarget := Contains SubSystemsSingleTargets subSys in
      if isSingleTarget && bool_decide (0 < size candidates)
      then ret (Some (unknown_vars candidates)) else
      let candidates :=
        if isSingleTarget then candidates else
        foldl (λ cand envVar,
          foldl (λ cand param,
            let pEnvName := getEnvVarName subSys Default param +:+ Default in
            if (String.length pEnvName <? String.length envVar) && HasPrefix envVar pEnvName
            then cand ∖ {[ envVar ]} else cand) cand validKeys)
          candidates (ToSlice candidates) in
      if negb isSingleTarget && bool_decide (0 < size candidates)
      then ret (Some (unknown_vars candidates)) else
      let validKeysSet := CreateStringSet validKeys ∖ CreateStringSet deprecatedKeys in
      range_map (default ∅ (c !! subSys)) (λ tgt kvs (r : option goerror),
        if r is Some _ then ret r else
        σ ← get_state;
        let invalidKV := filter (λ kv, Contains validKeysSet (Key kv) = false) (elems σ kvs) in
        if decide (0 < length invalidKV)
        then ret (Some (ConfigError (mkError (
               "found invalid keys (" +:+ KVS_String invalidKV +:+ ") for '" +:+ subSys +:+
               ":" +:+ tgt +:+ "' sub-system, use 'mc admin config reset myminio " +:+
               subSys +:+ ":" +:+ tgt +:+ "' to fix invalid keys"))))
        else ret None) None
  end.

(** [c.GetAvailableTargets(subSys)]; a nil slice is the empty list. *)
Definition GetAvailableTargets (environ : gmap string string) (c : Config)
    (subSys : string) : M (list string * option goerror) :=
  if Contains SubSystemsSingleTargets subSys then ret ([Default], None) else
  match DefaultKVS !! subSys with
  | None => ret ([], Some (PlainError ("Subsystem " +:+ subSys +:+ " does not exist")))
  | Some defKVS =>
      s ← range_map (default ∅ (c !! subSys)) (λ k _ (s : gset string),
             ret (s ∪ {[ k ]})) ∅;
      σ ← get_state;
      let s :=
        foldl (λ s param,
          let envVarPrefix := getEnvVarName subSys Default (Key param) +:+ Default in
          foldl (λ s k,
            let tgtName := TrimPrefix k envVarPrefix in
            if decide (tgtName = "") then s else s ∪ {[ tgtName ]})
            s (env_List environ envVarPrefix))
          s (elems σ defKVS) in
      ret (ToSlice s, None)
  end.

(** The function [Merge(cfgKVS, envname, defaultKVS)] of the package (the
    method [c.Merge()] is [Merge]). *)
Definition Merge_env (environ : gmap string string) (cfgKVS : gmap string KVS)
    (envname : string) (defaultKVS : KVS) : M (gmap string KVS) :=
  let newCfgKVS :=
    foldl (λ m e,
      let tgt := TrimPrefix e (envname +:+ Default) in
      let tgt := if decide (tgt = envname) then Default else tgt in
      <[tgt := defaultKVS]> m) ∅ (env_List environ envname) in
  range_map cfgKVS (λ tgt kv m, ret (<[tgt := kv]> m)) newCfgKVS.

(** The loop of [c.ReadConfig(r)] over the lines [texts] the scanner
    yields, with [dynOnly] so far; [scanErr] is [scanner.Err()] when the
    scanner stops. *)
Fixpoint ReadConfig_from (texts : list string) (scanErr : error) (c : Config)
    (dynOnly : bool) : M (Config * (bool * error)) :=
  match texts with
  | [] =>
      if scanErr is Some _ then ret (c, (false, scanErr)) else ret (c, (dynOnly, None))
  | text :: rest =>
      if bool_decide (text = "") || HasPrefix text KvComment
      then ReadConfig_from rest scanErr c dynOnly else
      '(c, (dynamic, err)) ← SetKVS text DefaultKVS c;
      if err is Some _ then ret (c, (false, err)) else
      ReadConfig_from rest scanErr c (dynOnly && dynamic)
  end.

(** [c.ReadConfig(r)]. *)
Definition ReadConfig (texts : list string) (scanErr : error) (c : Config)
    : M (Config * (bool * error)) :=
  ReadConfig_from texts scanErr c true.

(** [c.DelFrom(r)], over the lines the scanner yields. *)
Fixpoint DelFrom (texts : list string) (scanErr : error) (c : Config)
    : M (Config * error) :=
  match texts with
  | [] => ret (c, scanErr)
  | text :: rest =>
      if bool_decide (text = "") || HasPrefix text KvComment
      then DelFrom rest scanErr c else
      '(c, err) ← DelKVS text c;
      if err is Some _ then ret (c, err) else DelFrom rest scanErr c
  end.

End validation.


(** A reference instance of [Madmin] for concrete runs: white space as
    package unicode has it on ASCII text, and [#] for comments. *)
Module RefMadmin.

Fixpoint HasSpace (s : string) : bool :=
  match s with
  | EmptyString => false
  | String a s' => Ascii.is_space a || HasSpace s'
  end.

Definition madmin : Madmin := Build_Madmin HasSpace "#".

End RefMadmin.


(** ** The site *)

(** The names of the variables [LookupSite] reads; they are constants of
    the package declared outside this file. *)
Class SiteEnv := {
  EnvRegion : string;
  EnvRegionName : string;
  EnvSiteRegion : string;
  EnvSiteName : string
}.

Definition RegionKey : string := "region".
Definition NameKey : string := "name".
Definition RegionName : string := "name".

Definition DefaultSiteKVS : list KV := [mkKV NameKey ""; mkKV RegionKey ""].
Definition DefaultRegionKVS : list KV := [mkKV RegionName ""].

Definition is_lower (a : Ascii.ascii) : bool :=
  let n := Ascii.nat_of_ascii a in (97 <=? n) && (n <=? 122).
Definition is_upper (a : Ascii.ascii) : bool :=
  let n := Ascii.nat_of_ascii a in (65 <=? n) && (n <=? 90).
Definition is_digit (a : Ascii.ascii) : bool :=
  let n := Ascii.nat_of_ascii a in (48 <=? n) && (n <=? 57).
Definition is_hyphen (a : Ascii.ascii) : bool := bool_decide (Ascii.nat_of_ascii a = 45).
Definition is_underscore (a : Ascii.ascii) : bool :=
  bool_decide (Ascii.nat_of_ascii a = 95).

(** [validRegionRegex.MatchString], for [^[a-zA-Z][a-zA-Z0-9-_-]+$]: a
    letter, then one or more letters, digits, hyphens or underscores. *)
Definition validRegion (s : string) : bool :=
  match s with
  | String a rest =>
      (is_lower a || is_upper a) && negb (bool_decide (rest = "")) &&
      forallb (λ b, is_lower b || is_upper b || is_digit b || is_hyphen b || is_underscore b)
              (String.list_ascii_of_string rest)
  | EmptyString => false
  end.

(** [validSiteNameRegex.MatchString], for [^[a-z][a-z0-9-]+$]: a lower
    case letter, then one or more lower case letters, digits or
    hyphens. *)
Definition validSiteName (s : string) : bool :=
  match s with
  | String a rest =>
      is_lower a && negb (bool_decide (rest = "")) &&
      forallb (λ b, is_lower b || is_digit b || is_hyphen b)
              (String.list_ascii_of_string rest)
  | EmptyString => false
  end.

Record Site := mkSite { Name : string; Region : string }.

Section site.
Context `{Imports} `{Madmin} `{SiteEnv}.

(** [LookupSite(siteKV, regionKV)], the two KVS given by the pairs they
    show.  The results are named: a [return] after an error gives the
    site as far as it was filled.  The value of the second [env.Get] is
    dropped by the source. *)
Definition LookupSite (environ : gmap string string) (siteKV regionKV : list KV)
    : Site * error :=
  match CheckValidKeys SiteSubSys siteKV DefaultSiteKVS with
  | Some e => (mkSite "" "", Some e)
  | None =>
      let region := env_Get environ EnvRegion "" in
      let _ := if decide (region = "") then env_Get environ EnvRegionName "" else "" in
      let region :=
        if decide (region = "")
        then env_Get environ EnvSiteRegion (Get_list siteKV RegionKey) else region in
      let legacy : string * error :=
        if decide (region = "") then
          match CheckValidKeys RegionSubSys regionKV DefaultRegionKVS with
          | Some e =>
              ("", Errorf ("could not load region from legacy configuration as it was " +:+
                           "invalid - use 'mc admin config set myminio site " +:+
                           "region=myregion name=myname' to set a region and name (" +:+
                           Err e +:+ ")"))
          | None => (Get_list regionKV RegionName, None)
          end
        else (region, None) in
      match legacy with
      | (_, Some e) => (mkSite "" "", Some e)
      | (region, None) =>
          if negb (bool_decide (region = "")) && negb (validRegion region)
          then (mkSite "" "",
                Errorf ("region '" +:+ region +:+ "' is invalid, expected simple " +:+
                        "characters such as [us-east-1, myregion...]"))
          else
            let name := env_Get environ EnvSiteName (Get_list siteKV NameKey) in
            if negb (bool_decide (name = "")) && negb (validSiteName name)
            then (mkSite "" region,
                  Errorf ("site name '" +:+ name +:+ "' is invalid, expected simple " +:+
                          "characters such as [cal-rack0, myname...]"))
            else (mkSite name region, None)
      end
  end.

End site.

(** * Properties *)

(** ** The heap *)

Section heap_facts.
Context `{Imports}.

Lemma elems_length σ kvs : valid σ kvs → length (elems σ kvs) = len kvs.
Proof.
  unfold valid, elems, cap. destruct (ptr kvs) as [a|]; simpl.
  - intros [_ ?]. rewrite length_take. lia.
  - intros ->. done.
Qed.

Lemma valid_nil σ : valid σ nilKVS.
Proof. done. Qed.

Lemma elems_nil σ : elems σ nilKVS = [].
Proof. done. Qed.

Lemma find_key_lt l key i : find_key l key = Some i → i < length l.
Proof.
  revert i. induction l as [|kv l IH]; intros i; simpl; [done|].
  destruct (decide (Key kv = key)); [intros [= <-]; lia|].
  destruct (find_key l key) as [j|]; simpl; [|done].
  intros [= <-]. specialize (IH j eq_refl). lia.
Qed.

Lemma find_key_Some l key i :
  find_key l key = Some i → ∃ kv, l !! i = Some kv ∧ Key kv = key.
Proof.
  revert i. induction l as [|kv l IH]; intros i; simpl; [done|].
  destruct (decide (Key kv = key)); [intros [= <-]; eauto|].
  destruct (find_key l key) as [j|]; simpl; [|done].
  intros [= <-]. apply (IH j eq_refl).
Qed.

Lemma find_key_None l key : find_key l key = None ↔ key ∉ Key <$> l.
Proof.
  induction l as [|kv l IH]; simpl.
  - split; [intros _; apply not_elem_of_nil|done].
  - rewrite not_elem_of_cons. destruct (decide (Key kv = key)) as [Hk|Hk].
    + split; [done|]. intros [? _]. congruence.
    + rewrite <- IH. destruct (find_key l key); simpl; [|done].
      split; [done|]. by intros [_ ?].
Qed.

Lemma Lookup_list_find l key :
  Lookup_list l key =
    match find_key l key with
    | Some i => (default "" (Value <$> l !! i), true)
    | None => ("", false)
    end.
Proof.
  induction l as [|kv l IH]; simpl; [done|].
  destruct (decide (Key kv = key)); [done|]. rewrite IH.
  by destruct (find_key l key).
Qed.

Lemma Lookup_list_found l key : (Lookup_list l key).2 = true ↔ key ∈ Key <$> l.
Proof.
  rewrite Lookup_list_find. destruct (find_key l key) as [i|] eqn:E; simpl.
  - split; [intros _|done]. destruct (decide (key ∈ Key <$> l)) as [|Hn]; [done|].
    apply find_key_None in Hn. congruence.
  - apply find_key_None in E. naive_solver.
Qed.

Lemma find_key_insert l key value i k :
  find_key l key = Some i →
  find_key (<[i := mkKV key value]> l) k = find_key l k.
Proof.
  revert i. induction l as [|kv l IH]; intros i; simpl; [done|].
  destruct (decide (Key kv = key)) as [Hk|Hk].
  - intros [= <-]. simpl. subst key. done.
  - destruct (find_key l key) as [j|] eqn:Ej; simpl; [|done].
    intros [= <-]. simpl. by rewrite (IH j eq_refl).
Qed.

Lemma find_key_snoc l x k :
  find_key (l ++ [x]) k =
    match find_key l k with
    | Some i => Some i
    | None => if decide (Key x = k) then Some (length l) else None
    end.
Proof.
  induction l as [|kv l IH]; simpl.
  - by destruct (decide (Key x = k)).
  - destruct (decide (Key kv = k)); [done|]. rewrite IH.
    destruct (find_key l k); simpl; [done|].
    by destruct (decide (Key x = k)).
Qed.

Lemma find_key_kv_set l key value k :
  find_key (kv_set l key value) k =
    match find_key l k with
    | Some i => Some i
    | None => if decide (key = k) then Some (length l) else None
    end.
Proof.
  unfold kv_set. destruct (find_key l key) as [i|] eqn:E.
  - rewrite (find_key_insert _ _ _ _ _ E).
    destruct (find_key l k) eqn:E'; [done|].
    case_decide; [|done]. congruence.
  - by rewrite find_key_snoc.
Qed.

Lemma Lookup_list_kv_set l key value :
  Lookup_list (kv_set l key value) key = (value, true).
Proof.
  rewrite Lookup_list_find, find_key_kv_set. unfold kv_set.
  destruct (find_key l key) as [i|] eqn:E.
  - apply find_key_lt in E. by rewrite list_lookup_insert_eq.
  - rewrite decide_True by done. by rewrite lookup_app_r, Nat.sub_diag by lia.
Qed.

Lemma length_kv_set l key value :
  length (kv_set l key value) =
    if decide (key ∈ Key <$> l) then length l else S (length l).
Proof.
  unfold kv_set. destruct (find_key l key) as [i|] eqn:E.
  - rewrite length_insert. rewrite decide_True; [done|].
    destruct (decide (key ∈ Key <$> l)) as [|Hn]; [done|].
    apply find_key_None in Hn. congruence.
  - rewrite length_app. simpl. apply find_key_None in E.
    rewrite decide_False by done. lia.
Qed.

Lemma elems_store_own σ kvs i x :
  i < len kvs →
  elems (store (ptr kvs) i x σ) kvs = <[i := x]> (elems σ kvs).
Proof.
  intros Hi. unfold elems, store, array.
  destruct (ptr kvs) as [a|]; simpl; [|by rewrite take_nil].
  rewrite list_lookup_alter_eq. destruct (heap σ !! a) as [arr|]; simpl.
  - by rewrite take_insert_lt.
  - by rewrite take_nil.
Qed.

Lemma heap_store_ne p i x σ a : p ≠ Some a → heap (store p i x σ) !! a = heap σ !! a.
Proof.
  unfold store. destruct p as [b|]; simpl; [|done].
  intros Hne. apply list_lookup_alter_ne. congruence.
Qed.

Lemma length_heap_store p i x σ : length (heap (store p i x σ)) = length (heap σ).
Proof. unfold store. destruct p; simpl; [apply length_alter|done]. Qed.

Lemma sched_store p i x σ : sched (store p i x σ) = sched σ.
Proof. unfold store. by destruct p. Qed.

Lemma length_array_store p i x σ q :
  length (array (store p i x σ) q) = length (array σ q).
Proof.
  unfold array, store. destruct q as [b|]; [|done]. destruct p as [a|]; simpl; [|done].
  destruct (decide (a = b)) as [->|Hne].
  - rewrite list_lookup_alter_eq. destruct (heap σ !! b); simpl; [|done].
    apply length_insert.
  - by rewrite list_lookup_alter_ne.
Qed.

Lemma valid_after_store p i x σ kvs : valid σ kvs → valid (store p i x σ) kvs.
Proof.
  unfold valid, cap. rewrite length_array_store, length_heap_store. done.
Qed.

Lemma valid_alloc arr σ kvs : valid σ kvs → valid (alloc arr σ).2 kvs.
Proof.
  unfold valid, cap, array. destruct (ptr kvs) as [a|]; simpl; [|done].
  intros [Ha Hl]. rewrite length_app. split; [lia|]. by rewrite lookup_app_l.
Qed.

Lemma elems_alloc_new arr σ n :
  n ≤ length arr → elems (alloc arr σ).2 (mkKVS (alloc arr σ).1 n) = take n arr.
Proof.
  intros Hn. unfold elems, array. simpl.
  by rewrite lookup_app_r, Nat.sub_diag by lia.
Qed.

Lemma valid_alloc_new arr σ n :
  n ≤ length arr → valid (alloc arr σ).2 (mkKVS (alloc arr σ).1 n).
Proof.
  intros Hn. unfold valid, cap, array. simpl. rewrite length_app. simpl.
  split; [lia|]. by rewrite lookup_app_r, Nat.sub_diag by lia.
Qed.

Lemma heap_alloc_old arr σ a :
  a < length (heap σ) → heap (alloc arr σ).2 !! a = heap σ !! a.
Proof. intros Ha. simpl. by rewrite lookup_app_l. Qed.

Lemma elems_append_here σ kvs x :
  len kvs < cap σ kvs →
  elems (store (ptr kvs) (len kvs) x σ) (mkKVS (ptr kvs) (S (len kvs))) = elems σ kvs ++ [x].
Proof.
  unfold elems, store, array, cap. simpl.
  destruct (ptr kvs) as [a|]; simpl; [|lia].
  rewrite list_lookup_alter_eq. destruct (heap σ !! a) as [arr|]; simpl; [|lia].
  intros Hc. rewrite (take_S_r _ _ x).
  - by rewrite take_insert_ge by lia.
  - by apply list_lookup_insert_eq.
Qed.

(** What [Set] returns and what the new slice shows. *)
Lemma Set_spec σ kvs key value :
  valid σ kvs →
  ∃ kvs' σ', Set_ kvs key value σ = (Done kvs', σ') ∧
    valid σ' kvs' ∧
    elems σ' kvs' = kv_set (elems σ kvs) key value ∧
    (ptr kvs' = ptr kvs ∨ ptr kvs' = Some (length (heap σ))) ∧
    (∀ a, ptr kvs ≠ Some a → a < length (heap σ) → heap σ' !! a = heap σ !! a) ∧
    length (heap σ) ≤ length (heap σ') ∧
    sched σ' = sched σ.
Proof.
  intros Hv. pose proof (elems_length _ _ Hv) as Hlen.
  unfold Set_, kv_set. destruct (find_key (elems σ kvs) key) as [i|] eqn:E.
  - pose proof (find_key_lt _ _ _ E) as Hi. rewrite Hlen in Hi.
    eexists _, _. split; [done|]. split_and!.
    + by apply valid_after_store.
    + by apply elems_store_own.
    + by left.
    + intros a Hne _. by apply heap_store_ne.
    + by rewrite length_heap_store.
    + apply sched_store.
  - unfold append1. case_decide as Hc.
    + eexists _, _. split; [done|]. split_and!.
      * pose proof (valid_after_store (ptr kvs) (len kvs) (mkKV key value) _ _ Hv) as Hv'.
        unfold valid, cap in *. simpl. rewrite length_array_store in *.
        destruct (ptr kvs); [split; [tauto|lia]|simpl in Hc; lia].
      * by apply elems_append_here.
      * by left.
      * intros a Hne _. by apply heap_store_ne.
      * by rewrite length_heap_store.
      * apply sched_store.
    + set (arr := elems σ kvs ++ _ :: _).
      assert (S (len kvs) ≤ length arr) as Hn.
      { unfold arr. rewrite length_app. simpl. lia. }
      destruct (alloc arr σ) as [p σ'] eqn:Ea.
      assert (p = (alloc arr σ).1) as -> by by rewrite Ea.
      assert (σ' = (alloc arr σ).2) as -> by by rewrite Ea.
      eexists _, _. split; [done|]. split_and!.
      * by apply valid_alloc_new.
      * rewrite elems_alloc_new by done. unfold arr.
        rewrite <- Hlen at 1.
        rewrite (cons_middle _ (elems σ kvs)), app_assoc.
        apply take_app_length'. rewrite length_app. simpl. lia.
      * by right.
      * intros a _ Ha. by apply heap_alloc_old.
      * simpl. rewrite length_app. lia.
      * done.
Qed.

End heap_facts.

(** ** Rules of the monad *)

Section wp_rules.
Context `{Imports}.

Lemma wp_ret {A} (a : A) σ Φ : Φ (Done a) σ → wp (ret a) σ Φ.
Proof. done. Qed.

Lemma wp_panic {A} msg σ (Φ : res A → state → Prop) :
  Φ (Panic msg) σ → wp (panic msg) σ Φ.
Proof. done. Qed.

Lemma wp_get_state σ Φ : Φ (Done σ) σ → wp get_state σ Φ.
Proof. done. Qed.


Lemma wp_bind {A B} (m : M A) (k : A → M B) σ Φ :
  wp m σ (λ r σ', match r with
                  | Done a => wp (k a) σ' Φ
                  | Panic msg => Φ (Panic msg) σ'
                  end) →
  wp (m ≫= k) σ Φ.
Proof.
  unfold wp, mbind, M_bind, bind. by destruct (m σ) as [[a|msg] σ'].
Qed.

Lemma wp_mono {A} (m : M A) σ (Φ Ψ : res A → state → Prop) :
  wp m σ Φ → (∀ r σ', Φ r σ' → Ψ r σ') → wp m σ Ψ.
Proof. unfold wp. auto. Qed.

Lemma wp_run {A} (m : M A) σ Φ r σ' : wp m σ Φ → m σ = (r, σ') → Φ r σ'.
Proof. unfold wp. intros Hw E. by rewrite E in Hw. Qed.

Lemma frame_refl n σ : frame n σ σ.
Proof. by split. Qed.

Lemma frame_trans n σ1 σ2 σ3 : frame n σ1 σ2 → frame n σ2 σ3 → frame n σ1 σ3.
Proof.
  intros [H1 L1] [H2 L2]. split; [|lia].
  intros a Ha. by rewrite H2, H1.
Qed.

Lemma frame_mono n n' σ σ' : n' ≤ n → frame n σ σ' → frame n' σ σ'.
Proof. intros Hn [H1 L1]. split; [|done]. intros a Ha. apply H1. lia. Qed.

Lemma frame_array n σ σ' kvs :
  frame n σ σ' → below n kvs → array σ' (ptr kvs) = array σ (ptr kvs).
Proof.
  intros [H1 _]. unfold below, array. destruct (ptr kvs) as [a|]; [|done].
  intros Ha. by rewrite H1.
Qed.

Lemma frame_elems n σ σ' kvs :
  frame n σ σ' → below n kvs → elems σ' kvs = elems σ kvs.
Proof. intros Hf Hb. unfold elems. by rewrite (frame_array _ _ _ _ Hf Hb). Qed.

Lemma frame_valid n σ σ' kvs :
  frame n σ σ' → below n kvs → valid σ kvs → valid σ' kvs.
Proof.
  intros Hf Hb. pose proof (frame_array _ _ _ _ Hf Hb) as Ha.
  destruct Hf as [_ Hl]. unfold valid, cap. rewrite Ha.
  destruct (ptr kvs); [|done]. intros []. split; [lia|done].
Qed.

Lemma valid_below σ kvs : valid σ kvs → below (length (heap σ)) kvs.
Proof. unfold valid, below. destruct (ptr kvs); [tauto|done]. Qed.

Lemma below_mono n n' kvs : n ≤ n' → below n kvs → below n' kvs.
Proof. unfold below. destruct (ptr kvs); [lia|done]. Qed.

Lemma owned_mono n n' kvs : n' ≤ n → owned n kvs → owned n' kvs.
Proof. unfold owned. destruct (ptr kvs); [lia|done]. Qed.

Lemma owned_nil n : owned n nilKVS.
Proof. done. Qed.

Lemma cells_elems σ kvs : valid σ kvs → cells σ kvs = elems σ kvs.
Proof.
  intros Hv. apply list_eq. intros i. unfold cells, elems.
  rewrite list_lookup_fmap.
  destruct (decide (i < len kvs)) as [Hi|Hi].
  - rewrite lookup_seq_lt by done. simpl. rewrite lookup_take_lt by done.
    unfold valid, cap in Hv. destruct (ptr kvs) as [a|]; [|lia].
    destruct Hv as [_ Hc].
    destruct (lookup_lt_is_Some_2 (array σ (Some a)) i) as [x Hx]; [lia|].
    by rewrite Hx.
  - rewrite lookup_seq_ge by lia. simpl. by rewrite lookup_take_ge by lia.
Qed.

(** [Set] on a slice whose array is at [n] or above: arrays below [n] are
    untouched, the new slice is again at [n] or above, and on a valid
    slice the elements are those of [kv_set]. *)
Lemma Set_wp n σ kvs key value Φ :
  owned n kvs → n ≤ length (heap σ) →
  (∀ kvs' σ', owned n kvs' → frame n σ σ' → sched σ' = sched σ →
     (valid σ kvs → valid σ' kvs' ∧ elems σ' kvs' = kv_set (elems σ kvs) key value) →
     Φ (Done kvs') σ') →
  wp (Set_ kvs key value) σ Φ.
Proof.
  intros Ho Hn HΦ. unfold wp.
  assert (∀ i x, frame n σ (store (ptr kvs) i x σ)) as Hst.
  { intros i x. split; [|by rewrite length_heap_store].
    intros a Ha. apply heap_store_ne. unfold owned in Ho.
    destruct (ptr kvs); [|done]. intros [= ->]. lia. }
  destruct (Set_ kvs key value σ) as [r σ'] eqn:E. simpl.
  assert (∃ kvs', r = Done kvs' ∧ owned n kvs' ∧ frame n σ σ' ∧ sched σ' = sched σ)
    as (kvs' & -> & Ho' & Hf & Hs).
  { unfold Set_, append1 in E.
    destruct (find_key (elems σ kvs) key).
    - injection E as <- <-. eauto using sched_store.
    - case_decide.
      + injection E as <- <-. eexists. split_and!; eauto using sched_store.
      + injection E as <- <-. eexists. split_and!; [done| |split|done].
        * unfold owned. simpl. done.
        * intros a Ha. simpl. rewrite lookup_app_l by lia. done.
        * simpl. rewrite length_app. lia. }
  apply HΦ; [done..|]. intros Hv.
  destruct (Set_spec σ kvs key value Hv) as (k2 & σ2 & E2 & ? & ? & _).
  rewrite E in E2. by injection E2 as <- <-.
Qed.

(** [Clone] allocates: the copy is at the first free address. *)
Lemma Clone_wp σ kvs Φ :
  (∀ kvs' σ', owned (length (heap σ)) kvs' → frame (length (heap σ)) σ σ' →
     sched σ' = sched σ →
     (valid σ kvs → valid σ' kvs' ∧ elems σ' kvs' = elems σ kvs) →
     Φ (Done kvs') σ') →
  wp (Clone_KVS kvs) σ Φ.
Proof.
  intros HΦ. unfold wp, Clone_KVS. simpl. apply HΦ.
  - unfold owned. simpl. done.
  - split; [|simpl; rewrite length_app; lia].
    intros a Ha. simpl. by rewrite lookup_app_l.
  - done.
  - intros Hv. pose proof (elems_length _ _ Hv) as Hl.
    pose proof (valid_alloc_new (elems σ kvs) σ (len kvs)) as Hv'.
    pose proof (elems_alloc_new (elems σ kvs) σ (len kvs)) as He.
    simpl in Hv', He. split; [apply Hv'; lia|].
    rewrite He by lia. rewrite <- Hl. apply firstn_all.
Qed.

(** A loop with an invariant over the values already visited. *)
Lemma for_each_wp {A B} (Inv : list A → B → state → Prop)
    (l : list A) (body : A → B → M B) b σ Φ :
  Inv [] b σ →
  (∀ pre a post b σ1, l = pre ++ a :: post → Inv pre b σ1 →
     wp (body a b) σ1 (λ r σ2, ∃ b', r = Done b' ∧ Inv (pre ++ [a]) b' σ2)) →
  (∀ b' σ', Inv l b' σ' → Φ (Done b') σ') →
  wp (for_each l body b) σ Φ.
Proof.
  intros H0 Hbody HΦ.
  assert (∀ post pre b σ1, l = pre ++ post → Inv pre b σ1 →
            wp (for_each post body b) σ1 Φ) as Hgen.
  { induction post as [|a post IH]; intros pre b1 σ1 Hl Hi.
    - rewrite app_nil_r in Hl. subst. simpl. by apply HΦ.
    - simpl. apply wp_bind. eapply wp_mono; [by eapply Hbody|].
      intros r σ2 (b' & -> & Hi'). apply (IH (pre ++ [a])); [|done].
      by rewrite <- app_assoc. }
  by apply (Hgen l []).
Qed.

(** The loop over a slice whose array the body leaves alone. *)
Lemma range_slice_wp {B} (Inv : list KV → B → state → Prop)
    (src : KVS) (body : nat → KV → B → M B) b σ Φ :
  Inv [] b σ →
  (∀ pre b σ1, Inv pre b σ1 → array σ1 (ptr src) = array σ (ptr src)) →
  (∀ pre x post b σ1, cells σ src = pre ++ x :: post → Inv pre b σ1 →
     wp (body (length pre) x b) σ1 (λ r σ2, ∃ b', r = Done b' ∧ Inv (pre ++ [x]) b' σ2)) →
  (∀ b' σ', Inv (cells σ src) b' σ' → Φ (Done b') σ') →
  wp (range_slice src body b) σ Φ.
Proof.
  intros H0 Harr Hbody HΦ. unfold range_slice.
  set (rd := λ i, default zeroKV (array σ (ptr src) !! i)).
  apply (for_each_wp (λ ixs b σ1, Inv (rd <$> ixs) b σ1)); [done| |done].
  intros pre i post b1 σ1 Hl Hi.
  apply wp_bind, wp_get_state.
  rewrite (Harr _ _ _ Hi). rewrite fmap_app. simpl.
  assert (i = length (rd <$> pre)) as ->.
  { rewrite length_fmap. apply (f_equal (λ l, l !! length pre)) in Hl.
    rewrite lookup_app_r, Nat.sub_diag in Hl by lia. simpl in Hl.
    apply lookup_seq in Hl. lia. }
  rewrite length_fmap. fold (rd (length pre)).
  assert (length pre = length (rd <$> pre)) as Hlen by by rewrite length_fmap.
  rewrite Hlen at 1.
  apply (Hbody _ _ (rd <$> post)); [|done].
  unfold cells. fold rd. rewrite Hl, fmap_app. simpl.
  apply (f_equal (λ l, l !! length pre)) in Hl.
  rewrite lookup_app_r, Nat.sub_diag in Hl by lia. simpl in Hl.
  apply lookup_seq in Hl as [-> _]. done.
Qed.

End wp_rules.

(** ** KVS: Set and Get *)

Section set_get.
Context `{Imports}.

Lemma key_in_kv_set l key value : key ∈ Key <$> kv_set l key value.
Proof.
  apply Lookup_list_found. by rewrite Lookup_list_kv_set.
Qed.

Lemma Set_len σ kvs key value kvs' σ' :
  valid σ kvs → Set_ kvs key value σ = (Done kvs', σ') →
  valid σ' kvs' ∧ elems σ' kvs' = kv_set (elems σ kvs) key value ∧
  len kvs' = if decide (key ∈ Key <$> elems σ kvs) then len kvs else S (len kvs).
Proof.
  intros Hv E. destruct (Set_spec σ kvs key value Hv) as (k2 & σ2 & E2 & Hv' & He & _).
  rewrite E in E2. injection E2 as <- <-. split_and!; [done..|].
  rewrite <- (elems_length _ _ Hv'), He, length_kv_set, (elems_length _ _ Hv). done.
Qed.

Lemma Set_many_len σ kvs key vs :
  valid σ kvs → key ∈ Key <$> elems σ kvs →
  ∃ kvs' σ', Set_many kvs key vs σ = (Done kvs', σ') ∧ len kvs' = len kvs.
Proof.
  revert σ kvs. induction vs as [|v vs IH]; intros σ kvs Hv Hin.
  - by eexists _, _.
  - destruct (Set_spec σ kvs key v Hv) as (k1 & σ1 & E1 & _).
    destruct (Set_len _ _ _ _ _ _ Hv E1) as (Hv1 & He1 & Hl1).
    rewrite decide_True in Hl1 by done.
    destruct (IH σ1 k1 Hv1) as (k2 & σ2 & E2 & Hl2).
    { rewrite He1. apply key_in_kv_set. }
    exists k2, σ2. split; [|congruence].
    unfold Set_many in *. simpl. unfold mbind, M_bind, bind. by rewrite E1.
Qed.

(** C6.  On every valid KVS, [Set(key, value)] returns, and afterwards
    [Get(key)] is [value]; when the key already occurs, with its first
    occurrence at position [i], the length is unchanged and the elements
    are the old ones with position [i] overwritten; and however often
    [Set] is then repeated with the same key, with whatever values, the
    length stays what it was after the first [Set]. *)
Theorem Set_then_Get σ kvs key value :
  valid σ kvs →
  ∃ kvs' σ', Set_ kvs key value σ = (Done kvs', σ') ∧
    Get σ' kvs' key = value ∧
    (∀ i, find_key (elems σ kvs) key = Some i →
       len kvs' = len kvs ∧
       elems σ' kvs' = <[i := mkKV key value]> (elems σ kvs)) ∧
    (∀ vs, ∃ kvs'' σ'', Set_many kvs' key vs σ' = (Done kvs'', σ'') ∧
       len kvs'' = len kvs').
Proof.
  intros Hv. destruct (Set_spec σ kvs key value Hv) as (kvs' & σ' & E & _).
  destruct (Set_len _ _ _ _ _ _ Hv E) as (Hv' & He & Hl).
  exists kvs', σ'. split_and!; [done| | |].
  - unfold Get, Get_list. by rewrite He, Lookup_list_kv_set.
  - intros i Hi. split.
    + rewrite decide_True in Hl; [done|].
      destruct (decide (key ∈ Key <$> elems σ kvs)) as [|Hn]; [done|].
      apply find_key_None in Hn. congruence.
    + rewrite He. unfold kv_set. by rewrite Hi.
  - intros vs. apply Set_many_len; [done|]. rewrite He. apply key_in_kv_set.
Qed.

End set_get.

Section set_get_example.
#[local] Instance set_get_imports : Imports := Ref.imports (λ _, false).

(** A slice of two pairs in an array with room for three: the key of the
    second pair is set again. *)
Lemma Set_then_Get_witness :
  let σ := mkState [[mkKV "name" "a"; mkKV "region" "b"; zeroKV]] 0 in
  let kvs := mkKVS (Some 0) 2 in
  ∃ kvs' σ', Set_ kvs "region" "c" σ = (Done kvs', σ') ∧
    Get σ' kvs' "region" = "c" ∧
    (∀ i, find_key (elems σ kvs) "region" = Some i →
       len kvs' = len kvs ∧
       elems σ' kvs' = <[i := mkKV "region" "c"]> (elems σ kvs)) ∧
    (∀ vs, ∃ kvs'' σ'', Set_many kvs' "region" vs σ' = (Done kvs'', σ'') ∧
       len kvs'' = len kvs').
Proof.
  intros σ kvs. apply (Set_then_Get σ kvs "region" "c").
  unfold valid, cap. simpl. lia.
Defined.

End set_get_example.

(** ** The resolver *)

Section resolver.
Context `{Imports} `{Registry}.

Lemma app_empty_r (s : string) : s +:+ "" = s.
Proof.
  induction s as [|a s IH]; [done|].
  change (String a (s +:+ "") = String a s). by rewrite IH.
Qed.

Lemma app_assoc_str (s1 s2 s3 : string) : (s1 +:+ s2) +:+ s3 = s1 +:+ s2 +:+ s3.
Proof.
  induction s1 as [|a s1 IH]; [done|].
  change (String a ((s1 +:+ s2) +:+ s3) = String a (s1 +:+ s2 +:+ s3)). by rewrite IH.
Qed.

Lemma getEnvVarName_spec subSys target param :
  getEnvVarName subSys target param = spec_envVarName subSys target param.
Proof.
  unfold getEnvVarName, spec_envVarName. case_decide; [|done].
  by rewrite app_empty_r.
Qed.

Lemma Lookup_list_Get l key :
  Lookup_list l key = (Get_list l key, bool_decide (key ∈ Key <$> l)).
Proof.
  unfold Get_list. destruct (Lookup_list l key) as [v ok] eqn:E.
  pose proof (Lookup_list_found l key) as Hf. rewrite E in Hf. simpl in Hf.
  destruct ok.
  - by rewrite bool_decide_eq_true_2 by by apply Hf.
  - rewrite bool_decide_eq_false_2 by (intros ?%Hf; done).
    rewrite Lookup_list_find in E. by destruct (find_key l key); simplify_eq.
Qed.

(** C1, amended.  For every subsystem, target and parameter the resolver
    returns what the specification says for the target it resolves, where
    the empty target stands for the default target: the value of the
    environment variable with source Env when it is set and not empty,
    else the stored value with source Config when the entry of the
    subsystem and target has the parameter, else the default with source
    Default; and Absent with an empty value outside the allow-list and for
    a parameter the default KVS does not declare. *)
Theorem ResolveConfigParam_precedence environ σ c subSys target param :
  ResolveConfigParam environ σ c subSys target param =
  spec_Resolve environ σ c subSys (if decide (target = "") then Default else target) param.
Proof.
  unfold ResolveConfigParam, spec_Resolve, spec_env, spec_stored.
  unfold Contains, Lookup, Get, env_Get, entry.
  set (t := if decide (target = "") then Default else target).
  destruct (decide (subSys ∈ resolvableSubsystems)) as [Hs|Hs].
  - rewrite (bool_decide_eq_true_2 _ Hs). simpl.
    destruct (DefaultKVS !! subSys) as [defKVS|]; [|done].
    rewrite Lookup_list_Get.
    destruct (decide (param ∈ Key <$> elems σ defKVS)) as [Hp|Hp].
    + rewrite (bool_decide_eq_true_2 _ Hp). simpl.
      rewrite (bool_decide_eq_true_2 (_ ∧ _)) by by split.
      rewrite getEnvVarName_spec.
      assert (match c !! subSys with
              | Some subSysStore =>
                  match subSysStore !! t with
                  | Some kvs =>
                      let '(value, ok3) := Lookup_list (elems σ kvs) param in
                      if ok3 then (value, ValueSourceCfg)
                      else (Get_list (elems σ defKVS) param, ValueSourceDef)
                  | None => (Get_list (elems σ defKVS) param, ValueSourceDef)
                  end
              | None => (Get_list (elems σ defKVS) param, ValueSourceDef)
              end =
              match match c !! subSys ≫= lookup t with
                    | Some kvs =>
                        if bool_decide (param ∈ Key <$> elems σ kvs)
                        then Some (Get_list (elems σ kvs) param) else None
                    | None => None
                    end with
              | Some v => (v, ValueSourceCfg)
              | None => (Get_list (elems σ defKVS) param, ValueSourceDef)
              end) as Hst.
      { destruct (c !! subSys) as [m|]; simpl; [|done].
        destruct (m !! t) as [kvs|]; [|done].
        rewrite Lookup_list_Get. by destruct (bool_decide _). }
      destruct (environ !! spec_envVarName subSys t param) as [v|]; simpl.
      * destruct (decide (v = "")) as [->|Hv]; [done|].
        by rewrite bool_decide_eq_false_2.
      * done.
    + rewrite (bool_decide_eq_false_2 _ Hp). simpl.
      rewrite (bool_decide_eq_false_2 (_ ∧ _)) by tauto. done.
  - rewrite (bool_decide_eq_false_2 _ Hs). simpl.
    destruct (DefaultKVS !! subSys); [|done].
    rewrite (bool_decide_eq_false_2 (_ ∧ _)) by tauto. done.
Qed.


End resolver.

Section resolver_example.
#[local] Instance resolver_imports : Imports := Ref.imports (λ _, false).
#[local] Instance resolver_registry : Registry := Fixture.registry.

(** C1 as stated fails at the empty target.  On a fresh store the
    directive [identity_openid: client_id=C] stores an entry under the
    target with the empty name; asked for that target, with no environment
    variable set, the specification reads the stored value [C], while the
    resolver looks under the default target and returns its value [D]. *)
Lemma ResolveConfigParam_empty_target :
  match SetKVS "identity_openid: client_id=C" DefaultKVS New Fixture.σ0 with
  | (Done (c, (_, None)), σ) =>
      spec_Resolve ∅ σ c "identity_openid" "" "client_id" = ("C", ValueSourceCfg) ∧
      ResolveConfigParam ∅ σ c "identity_openid" "" "client_id" = ("D", ValueSourceCfg) ∧
      ResolveConfigParam ∅ σ c "identity_openid" "" "client_id" ≠
      spec_Resolve ∅ σ c "identity_openid" "" "client_id"
  | _ => False
  end.
Proof. vm_compute. split_and!; [done..|discriminate]. Qed.

End resolver_example.

(** ** Directives without key/value pairs *)

Section bare_directive.
Context `{Imports} `{Registry}.

Lemma GetSubSys_bare s : s ∈ SubSystems → GetSubSys s = (s, [s], Default, None).
Proof.
  with_strategy transparent [SubSystems] unfold SubSystems.
  unfold CreateStringSet. rewrite elem_of_list_to_set.
  intros Hs. repeat (apply elem_of_cons in Hs as [->|Hs]); [by vm_compute..|].
  by apply elem_of_nil in Hs.
Qed.

(** C8, as the code has it.  A directive that is the name of a registered
    subsystem and nothing else passes [GetSubSys] with a single input, and
    [SetKVS] then reads the second input: the call panics, it does not
    return the error of an empty key set.  Nothing has been written. *)
Theorem SetKVS_bare_subsystem_panics s defaultKVS c σ :
  s ∈ SubSystems →
  SetKVS s defaultKVS c σ = (Panic "runtime error: index out of range", σ).
Proof.
  intros Hs. unfold SetKVS. rewrite (GetSubSys_bare s Hs). done.
Qed.

End bare_directive.

Section bare_directive_example.
#[local] Instance bare_imports : Imports := Ref.imports (λ _, false).
#[local] Instance bare_registry : Registry := Fixture.registry.

(** [SetKVS("site")] on a fresh store. *)
Lemma SetKVS_site_panics :
  SetKVS "site" DefaultKVS New Fixture.σ0
    = (Panic "runtime error: index out of range", Fixture.σ0).
Proof.
  apply (SetKVS_bare_subsystem_panics "site" DefaultKVS New Fixture.σ0).
  by vm_compute.
Defined.

(** With one space after the name the second input exists and is empty:
    this is the path that returns the error. *)
Lemma SetKVS_site_space_errors :
  match SetKVS "site " DefaultKVS New Fixture.σ0 with
  | (Done (_, r), σ) =>
      r = (false, Errorf "sub-system 'site' cannot have empty keys") ∧ σ = Fixture.σ0
  | _ => False
  end.
Proof. vm_compute. done. Qed.

End bare_directive_example.

(** ** DelKVS *)

Section delkvs.
Context `{Imports} `{Registry}.

Lemma Contains_true S x : Contains S x = true ↔ x ∈ S.
Proof. unfold Contains. apply bool_decide_eq_true. Qed.

Lemma Contains_false S x : Contains S x = false ↔ x ∉ S.
Proof. unfold Contains. apply bool_decide_eq_false. Qed.

Lemma entry_insert_delete (c : Config) subSys tgt m s' t' :
  c !! subSys = Some m →
  entry (<[subSys := delete tgt m]> c) s' t' =
    if decide ((s', t') = (subSys, tgt)) then None else entry c s' t'.
Proof.
  intros Hm. unfold entry. destruct (decide (s' = subSys)) as [->|Hs].
  - rewrite lookup_insert_eq, Hm. simpl. destruct (decide (t' = tgt)) as [->|Ht].
    + rewrite lookup_delete_eq. by rewrite decide_True.
    + rewrite lookup_delete_ne by done. rewrite decide_False by congruence. done.
  - rewrite lookup_insert_ne by done. rewrite decide_False by congruence. done.
Qed.

(** C5.  For a single-token directive [subsystem] or [subsystem:target]:
    when the subsystem is not registered, [DelKVS] succeeds and the
    addressed entry is gone (with the whole subsystem); when it is
    registered and the addressed entry is absent, [DelKVS] returns the
    error [already deleted] and the store is the same; when the entry is
    present, [DelKVS] succeeds, that entry is gone, every other entry is
    the same, and [GetKVS] with a query that names this subsystem and
    target returns the error [doesn't exist]. *)
Theorem DelKVS_cases s subSys tgt (c : Config) σ :
  addresses s subSys tgt →
  (subSys ∉ SubSystems →
     DelKVS s c σ = (Done (delete subSys c, None), σ) ∧
     entry (delete subSys c) subSys tgt = None) ∧
  (subSys ∈ SubSystems → entry c subSys tgt = None →
     DelKVS s c σ = (Done (c, Errorf ("sub-system " +:+ s +:+ " already deleted")), σ)) ∧
  (subSys ∈ SubSystems → is_Some (entry c subSys tgt) →
     ∃ c', DelKVS s c σ = (Done (c', None), σ) ∧
       entry c' subSys tgt = None ∧
       (∀ s' t', (s', t') ≠ (subSys, tgt) → entry c' s' t' = entry c s' t') ∧
       (∀ q defaultKVS σ', names_target q subSys tgt →
          GetKVS q defaultKVS c' σ'
            = (Done ([], Errorf ("sub-system target '" +:+ q +:+ "' doesn't exist")), σ'))).
Proof.
  intros (Hs & tok & Htok & Hsplit).
  assert (DelKVS s c σ =
          (if negb (Contains SubSystems subSys) then ret (delete subSys c, None) else
           match c !! subSys with
           | Some m =>
               match m !! tgt with
               | Some _ => ret (<[subSys := delete tgt m]> c, None)
               | None => ret (c, Errorf ("sub-system " +:+ s +:+ " already deleted"))
               end
           | None => ret (c, Errorf ("sub-system " +:+ s +:+ " already deleted"))
           end) σ) as ->.
  { unfold DelKVS. rewrite decide_False by done. rewrite Htok. simpl.
    unfold mbind, M_bind, bind. simpl.
    destruct Hsplit as [[-> ->]|[-> Ht]].
    - by destruct (Contains SubSystems subSys).
    - destruct (Contains SubSystems subSys); [|done]. simpl.
      by rewrite decide_False. }
  split_and!.
  - intros Hn. apply Contains_false in Hn. rewrite Hn. simpl.
    split; [done|]. unfold entry. by rewrite lookup_delete_eq.
  - intros Hin%Contains_true Hnone. rewrite Hin. simpl.
    unfold entry in Hnone. destruct (c !! subSys) as [m|]; [|unfold ret; reflexivity].
    simpl in Hnone. rewrite Hnone. unfold ret. reflexivity.
  - intros Hin [kvs Hkvs]. pose proof Hin as Hin'. apply Contains_true in Hin'.
    rewrite Hin'. simpl. unfold entry in Hkvs.
    destruct (c !! subSys) as [m|] eqn:Hm; [|discriminate Hkvs].
    simpl in Hkvs. rewrite Hkvs.
    eexists. split; [done|].
    assert (∀ s' t', entry (<[subSys := delete tgt m]> c) s' t' =
              if decide ((s', t') = (subSys, tgt)) then None else entry c s' t') as He.
    { intros. by apply entry_insert_delete. }
    split_and!.
    + by rewrite He, decide_True.
    + intros s' t' Hne. by rewrite He, decide_False.
    + intros q defaultKVS σ' (Hq & qtok & Hqtok & Hqsplit).
      unfold GetKVS. rewrite decide_False by done. rewrite Hqtok. simpl.
      unfold mbind, M_bind, bind. simpl.
      rewrite Hqsplit, Hin'. simpl.
      rewrite decide_False by (by destruct Hsplit as [[_ ->]|[_ Ht]]).
      by rewrite He, decide_True.
Qed.

End delkvs.

Section delkvs_example.
#[local] Instance delkvs_imports : Imports := Ref.imports (λ _, false).
#[local] Instance delkvs_registry : Registry := Fixture.registry.

(** [DelKVS("notify_webhook:primary")] on a store lacking that target, and
    on a store that has it, followed by [GetKVS("notify_webhook:primary")]. *)
Lemma DelKVS_cases_witness :
  let s := "notify_webhook:primary" in
  let c : Config := {[ "notify_webhook" := {[ "primary" := mkKVS (Some 1) 3 ]} ]} in
  DelKVS s ∅ Fixture.σ0
    = (Done (∅, Errorf ("sub-system " +:+ s +:+ " already deleted")), Fixture.σ0) ∧
  ∃ c', DelKVS s c Fixture.σ0 = (Done (c', None), Fixture.σ0) ∧
    entry c' "notify_webhook" "primary" = None ∧
    GetKVS s DefaultKVS c' Fixture.σ0
      = (Done ([], Errorf ("sub-system target '" +:+ s +:+ "' doesn't exist")), Fixture.σ0).
Proof.
  intros s c.
  assert (addresses s "notify_webhook" "primary") as Ha.
  { split; [done|]. exists s. split; [reflexivity|]. right. by split. }
  assert (names_target s "notify_webhook" "primary") as Hq.
  { split; [done|]. exists s. by split. }
  assert ("notify_webhook" ∈ SubSystems) as Hin by by vm_compute.
  split.
  - by apply (DelKVS_cases s "notify_webhook" "primary" ∅ Fixture.σ0 Ha).
  - destruct (DelKVS_cases s "notify_webhook" "primary" c Fixture.σ0 Ha)
      as (_ & _ & Hdel).
    destruct (Hdel Hin) as (c' & Hd & Hgone & _ & Hget); [by eexists|].
    exists c'. split_and!; [done..|]. by apply Hget.
Defined.

End delkvs_example.

(** ** Loops over maps *)

Section range_rules.
Context `{Imports}.

(** A [range] over a map visits every key once, in the order the
    scheduler gives. *)
Lemma range_map_wp {V B} (Inv : list string → B → state → Prop)
    (m : gmap string V) (body : string → V → B → M B) b σ Φ :
  Inv [] b (mkState (heap σ) (S (sched σ))) →
  (∀ pre k v b σ1, m !! k = Some v → k ∉ pre → Inv pre b σ1 →
     wp (body k v b) σ1 (λ r σ2, ∃ b', r = Done b' ∧ Inv (pre ++ [k]) b' σ2)) →
  (∀ ks b' σ', ks ≡ₚ (map_to_list m).*1 → Inv ks b' σ' → Φ (Done b') σ') →
  wp (range_map m body b) σ Φ.
Proof.
  intros H0 Hbody HΦ. unfold range_map. apply wp_bind. unfold wp at 1. simpl.
  set (ks := maporder (sched σ) (map_to_list m).*1).
  assert (ks ≡ₚ (map_to_list m).*1) as Hperm by apply maporder_perm.
  assert (NoDup ks) as Hnd.
  { rewrite Hperm. apply NoDup_fst_map_to_list. }
  apply (for_each_wp Inv); [done| |by intros; eapply HΦ].
  intros pre k post b1 σ1 Hl Hi.
  assert (k ∈ (map_to_list m).*1) as Hk.
  { rewrite <- Hperm, Hl. apply elem_of_app. right. apply elem_of_cons. by left. }
  apply list_elem_of_fmap in Hk as ([k' v] & -> & Hkv). simpl.
  apply elem_of_map_to_list in Hkv. rewrite Hkv.
  apply Hbody; [done| |done].
  rewrite Hl in Hnd. apply NoDup_app in Hnd as (_ & Hnd & _).
  intros Hin. apply (Hnd _ Hin). apply elem_of_cons. by left.
Qed.

(** A loop over a slice with an invariant that does not look at the
    values read. *)
Lemma range_slice_wp_any {B} (Inv : B → state → Prop)
    (src : KVS) (body : nat → KV → B → M B) b σ Φ :
  Inv b σ →
  (∀ i x b σ1, Inv b σ1 →
     wp (body i x b) σ1 (λ r σ2, ∃ b', r = Done b' ∧ Inv b' σ2)) →
  (∀ b' σ', Inv b' σ' → Φ (Done b') σ') →
  wp (range_slice src body b) σ Φ.
Proof.
  intros H0 Hbody HΦ. unfold range_slice.
  apply (for_each_wp (λ _ b σ1, Inv b σ1)); [done| |done].
  intros pre i post b1 σ1 _ Hi. apply wp_bind, wp_get_state. by apply Hbody.
Qed.

(** [Set] always returns. *)
Lemma Set_wp_any σ kvs key value Φ :
  (∀ kvs' σ', sched σ' = sched σ → Φ (Done kvs') σ') →
  wp (Set_ kvs key value) σ Φ.
Proof.
  intros HΦ. apply (Set_wp 0); [unfold owned; destruct (ptr kvs); [lia|done]|lia|].
  intros kvs' σ' _ _ Hs _. by apply HΦ.
Qed.

End range_rules.

(** ** GetKVS on a name without target *)

Section getkvs.
Context `{Imports} `{Registry}.

Lemma prefix_refl (s : string) : String.prefix s s = true.
Proof. induction s as [|a s IH]; simpl; [done|]. by destruct (Ascii.ascii_dec a a). Qed.

Lemma prefix_app (p s x : string) :
  String.prefix p s = true → String.prefix p (s +:+ x) = true.
Proof.
  revert s. induction p as [|a p IH]; intros s; [by destruct s, x|].
  destruct s as [|b s]; simpl; [done|].
  change (String b s +:+ x) with (String b (s +:+ x)). simpl.
  destruct (Ascii.ascii_dec a b); [apply IH|done].
Qed.

Lemma bind_index_0 {A} x l (k : string → M A) : index (x :: l) 0 ≫= k = k x.
Proof. reflexivity. Qed.

(** The loop that back-fills a local copy of a stored KVS runs to its
    end. *)
Lemma backfill_total defaults kvs σ Φ :
  (∀ kvs' σ', sched σ' = sched σ → Φ (Done kvs') σ') →
  wp (range_slice defaults (λ _ kv kvs,
        σ ← get_state;
        if (Lookup σ kvs (Key kv)).2 then ret kvs
        else Set_ kvs (Key kv) (Value kv)) kvs) σ Φ.
Proof.
  intros HΦ.
  apply (range_slice_wp_any (λ _ σ1, sched σ1 = sched σ)); [done| |by intros; apply HΦ].
  intros i x b σ1 Hs. apply wp_bind, wp_get_state.
  destruct (Lookup σ1 b (Key x)).2.
  - apply wp_ret. eauto.
  - apply Set_wp_any. intros kvs' σ' Hs'. eexists. split; [done|congruence].
Qed.

(** C9, amended.  For a query that is a name without target: when no
    registered subsystem has the name as a prefix, [GetKVS] returns the
    error [unknown sub-system]; when at least one has, be it one or many,
    [GetKVS] returns without error, and every target it returns belongs to
    a subsystem whose name has the query as a prefix. *)
Theorem GetKVS_bare_prefix q name defaultKVS (c : Config) σ :
  bare_name q name →
  (FuncMatch SubSystems HasPrefix name = ∅ →
     GetKVS q defaultKVS c σ = (Done ([], Errorf ("unknown sub-system " +:+ q)), σ)) ∧
  (FuncMatch SubSystems HasPrefix name ≠ ∅ →
     ∃ targets σ', GetKVS q defaultKVS c σ = (Done (targets, None), σ') ∧
       Forall (λ t, HasPrefix (SubSystem t) name = true) targets).
Proof.
  intros (Hq & Htok & Hsplit).
  assert (Contains SubSystems name = true → FuncMatch SubSystems HasPrefix name ≠ ∅) as Hex.
  { intros Hc%Contains_true Hemp.
    assert (name ∈ FuncMatch SubSystems HasPrefix name) as Hin.
    { apply elem_of_filter. split; [apply prefix_refl|done]. }
    rewrite Hemp in Hin. by apply not_elem_of_empty in Hin. }
  unfold GetKVS. rewrite decide_False by done. rewrite Htok. simpl.
  rewrite bind_index_0, Hsplit. simpl.
  split.
  - intros Hemp. destruct (Contains SubSystems name) eqn:Hc; [by destruct Hex|].
    unfold IsEmpty. rewrite bool_decide_eq_true_2 by done. done.
  - intros Hne.
    assert ((if Contains SubSystems name then true
             else negb (IsEmpty (FuncMatch SubSystems HasPrefix name)) && true) = true) as ->.
    { destruct (Contains SubSystems name); [done|].
      unfold IsEmpty. by rewrite bool_decide_eq_false_2. }
    simpl.
    match goal with |- ∃ targets σ', ?m σ = _ ∧ _ =>
      cut (wp m σ (λ r σ', ∃ targets, r = Done (targets, None) ∧
                   Forall (λ t, HasPrefix (SubSystem t) name = true) targets)) end.
    { unfold wp. intros (targets & Hr & Hall). exists targets. eexists.
      split; [|done]. rewrite <- Hr. apply surjective_pairing. }
    apply wp_bind.
    apply (range_map_wp (λ _ _ _, True)); [done| |].
    { intros. apply wp_ret. eauto. }
    intros _ deprecated σ1 _ _. apply wp_bind.
    apply (for_each_wp (λ _ targets _,
             Forall (λ t, HasPrefix (SubSystem t) name = true) targets)).
    { apply Forall_nil_2. }
    2:{ intros targets σ' Hall. apply wp_ret. eauto. }
    intros pre hkv post targets σ2 _ Hall.
    destruct (HasPrefix (HelpKey hkv) name) eqn:Hp; simpl.
    2:{ apply wp_ret. eauto. }
    set (targets1 := if Empty _ then _ else _).
    assert (Forall (λ t, HasPrefix (SubSystem t) name = true) targets1) as Hall1.
    { unfold targets1. destruct (Empty _); [|done].
      apply Forall_app. split; [done|]. apply Forall_singleton. done. }
    clearbody targets1.
    apply (range_map_wp (λ _ targets _,
             Forall (λ t, HasPrefix (SubSystem t) name = true) targets)); [done| |eauto].
    intros _ k kvs targets2 σ3 _ _ Hall2. apply wp_bind.
    apply backfill_total. intros kvs' σ4 _.
    destruct (decide (k = Default)); apply wp_ret; eexists; (split; [done|]);
      apply Forall_app; (split; [done|]); apply Forall_singleton; simpl; [done|].
    by apply prefix_app.
Qed.

End getkvs.

Section getkvs_example.
#[local] Instance getkvs_imports : Imports := Ref.imports (λ _, false).
#[local] Instance getkvs_registry : Registry := Fixture.registry.

Lemma bare_name_notify : bare_name "notify" "notify".
Proof. by split_and!. Qed.

Lemma FuncMatch_notify : NotifyWebhookSubSys ∈ FuncMatch SubSystems HasPrefix "notify".
Proof.
  apply elem_of_filter. split; [done|]. by vm_compute.
Qed.

(** [GetKVS("notify")]: ten registered subsystems have the prefix, none is
    called [notify], and the call returns the targets of those the help
    lists, here the default target of notify_webhook. *)
Lemma GetKVS_bare_prefix_witness :
  ∃ targets σ', GetKVS "notify" DefaultKVS New Fixture.σ0 = (Done (targets, None), σ') ∧
    Forall (λ t, HasPrefix (SubSystem t) "notify" = true) targets.
Proof.
  apply (GetKVS_bare_prefix "notify" "notify" DefaultKVS New Fixture.σ0 bare_name_notify).
  intros Hemp. pose proof FuncMatch_notify as Hp. rewrite Hemp in Hp.
  by apply not_elem_of_empty in Hp.
Defined.

(** C9 as stated fails at [notify]: the name is a prefix of more than one
    registered subsystem and an exact match of none, and [GetKVS] returns
    a target and no error. *)
Lemma GetKVS_prefix_of_many_accepted :
  bare_name "notify" "notify" ∧
  ("notify" ∉ SubSystems) ∧
  size (FuncMatch SubSystems HasPrefix "notify") = 10 ∧
  match GetKVS "notify" DefaultKVS New Fixture.σ0 with
  | (Done (targets, err), σ') =>
      err = None ∧
      (λ t, (SubSystem t, elems σ' (Target_KVS t))) <$> targets =
        [("notify_webhook",
          [mkKV "enable" "off"; mkKV "endpoint" ""; mkKV "auth_token" ""])] ∧
      err ≠ Errorf "unknown sub-system notify"
  | _ => False
  end.
Proof.
  split; [apply bare_name_notify|].
  split; [apply (bool_decide_unpack _); by vm_compute|].
  split.
  - vm_compute. reflexivity.
  - vm_compute. by split_and!.
Qed.

End getkvs_example.

(** ** SetKVS *)

Section setkvs.
Context `{Imports} `{Registry}.

Lemma frame_length n σ σ' : frame n σ σ' → length (heap σ) ≤ length (heap σ').
Proof. by intros [_ ?]. Qed.

Lemma parse_fields_wp n fields : ∀ kvs prevK σ Φ,
  owned n kvs → n ≤ length (heap σ) → valid σ kvs →
  (∀ kvs' σ', owned n kvs' → frame n σ σ' → sched σ' = sched σ → valid σ' kvs' →
     elems σ' kvs' = (parse_list fields (elems σ kvs) prevK).1 →
     Φ (Done (kvs', (parse_list fields (elems σ kvs) prevK).2)) σ') →
  wp (parse_fields fields kvs prevK) σ Φ.
Proof.
  induction fields as [|v rest IH]; intros kvs prevK σ Φ Ho Hn Hv; simpl.
  - intros HΦ. apply wp_ret. apply HΦ; [done|apply frame_refl|done..].
  - destruct (SplitN2 v KvSeparator) as [|k0 [|v0 [|? ?]]].
    + by apply IH.
    + destruct (decide (prevK = "")); intros HΦ.
      * apply wp_ret. apply HΦ; [done|apply frame_refl|done..].
      * apply wp_bind, wp_get_state, wp_bind. apply (Set_wp n); [done..|].
        intros kvs1 σ1 Ho1 Hf1 Hs1 Hc1. destruct (Hc1 Hv) as [Hv1 He1].
        pose proof (frame_length _ _ _ Hf1).
        apply IH; [done|lia|done|]. rewrite He1.
        intros kvs' σ' Ho' Hf' Hs' Hv' He'.
        apply HΦ; [done|by eapply frame_trans|congruence|done..].
    + intros HΦ. apply wp_bind. apply (Set_wp n); [done..|].
      intros kvs1 σ1 Ho1 Hf1 Hs1 Hc1. destruct (Hc1 Hv) as [Hv1 He1].
      pose proof (frame_length _ _ _ Hf1).
      apply IH; [done|lia|done|]. rewrite He1.
      intros kvs' σ' Ho' Hf' Hs' Hv' He'.
      apply HΦ; [done|by eapply frame_trans|congruence|done..].
    + intros HΦ. apply wp_ret. apply HΦ; [done|apply frame_refl|done..].
Qed.

Lemma directive_kvs_wp n fields defaults σ Φ :
  n ≤ length (heap σ) → below n defaults →
  (∀ kvs' σ', owned n kvs' → frame n σ σ' → sched σ' = sched σ → valid σ' kvs' →
     elems σ' kvs' = (directive_list fields (elems σ defaults)).1.1 →
     Φ (Done (kvs', (directive_list fields (elems σ defaults)).1.2,
              (directive_list fields (elems σ defaults)).2)) σ') →
  wp (directive_kvs fields defaults) σ Φ.
Proof.
  intros Hn Hb. unfold directive_kvs, directive_list.
  destruct (parse_list fields [] "") as [l perr] eqn:Ep. intros HΦ.
  apply wp_bind.
  apply (parse_fields_wp n); [apply owned_nil|done|apply valid_nil|].
  rewrite elems_nil, Ep. simpl. intros kvs1 σ1 Ho1 Hf1 Hs1 Hv1 He1.
  destruct perr as [e|].
  { apply wp_ret. by apply HΦ. }
  apply wp_bind, wp_get_state. unfold Lookup.
  rewrite He1, (frame_elems _ _ _ _ Hf1 Hb). simpl in *.
  pose proof (frame_length _ _ _ Hf1).
  destruct (negb (Lookup_list l Enable).2 && (Lookup_list (elems σ defaults) Enable).2).
  - apply wp_bind. apply (Set_wp n); [done|lia|].
    intros kvs2 σ2 Ho2 Hf2 Hs2 Hc2. destruct (Hc2 Hv1) as [Hv2 He2].
    apply wp_ret. apply HΦ; [done|by eapply frame_trans|congruence|done|].
    by rewrite He2, He1.
  - apply wp_bind, wp_ret, wp_ret. by apply HΦ.
Qed.

(** A loop over a slice below [n] whose body sets, in a slice at [n] or
    above, the pairs that [g] selects. *)
Lemma range_set_wp n (g : KV → list KV → bool) src
    (body : nat → KV → KVS → M KVS) cur σ Φ :
  (∀ i kv cur σ1, body i kv cur σ1 =
     if g kv (elems σ1 cur) then Set_ cur (Key kv) (Value kv) σ1 else (Done cur, σ1)) →
  n ≤ length (heap σ) → below n src → valid σ src → owned n cur → valid σ cur →
  (∀ cur' σ', owned n cur' → frame n σ σ' → sched σ' = sched σ → valid σ' cur' →
     elems σ' cur' = set_each g (elems σ src) (elems σ cur) → Φ (Done cur') σ') →
  wp (range_slice src body cur) σ Φ.
Proof.
  intros Hbody Hn Hb Hvs Ho Hv HΦ.
  apply (range_slice_wp (λ pre cur1 σ1,
           owned n cur1 ∧ frame n σ σ1 ∧ sched σ1 = sched σ ∧ valid σ1 cur1 ∧
           elems σ1 cur1 = set_each g pre (elems σ cur))).
  - split_and!; [done|apply frame_refl|done..].
  - intros pre cur1 σ1 (_ & Hf & _). by apply (frame_array n).
  - intros pre x post cur1 σ1 _ (Ho1 & Hf1 & Hs1 & Hv1 & He1).
    pose proof (frame_length _ _ _ Hf1).
    unfold wp. rewrite Hbody. unfold set_each. rewrite foldl_snoc.
    fold (set_each g pre (elems σ cur)). rewrite <- He1.
    destruct (g x (elems σ1 cur1)).
    + apply (Set_wp n); [done|lia|].
      intros cur2 σ2 Ho2 Hf2 Hs2 Hc2. destruct (Hc2 Hv1) as [Hv2 He2].
      exists cur2. split_and!; [done|done|by eapply frame_trans|congruence|done|done].
    + simpl. exists cur1. by split_and!.
  - rewrite (cells_elems _ _ Hvs). intros cur' σ' (? & ? & ? & ? & ?). by apply HΦ.
Qed.

Lemma merge_kvs_wp ck defaults kvs σ Φ :
  valid σ defaults → valid σ kvs → (∀ k, ck = Some k → valid σ k) →
  (∀ cur σ', owned (length (heap σ)) cur → frame (length (heap σ)) σ σ' →
     sched σ' = sched σ → valid σ' cur →
     elems σ' cur = merged_list (elems σ <$> ck) (elems σ defaults) (elems σ kvs) →
     Φ (Done cur) σ') →
  wp (merge_kvs ck defaults kvs) σ Φ.
Proof.
  intros Hvd Hvk Hvc HΦ. set (n := length (heap σ)).
  pose proof (valid_below _ _ Hvd) as Hbd. pose proof (valid_below _ _ Hvk) as Hbk.
  fold n in Hbd, Hbk.
  unfold merge_kvs. apply wp_bind.
  (* the clone, back-filled *)
  cut (wp (match ck with
           | None => Clone_KVS defaults
           | Some ck =>
               currKVS ← Clone_KVS ck;
               range_slice defaults (λ _ kv currKVS,
                 σ ← get_state;
                 if (Lookup σ currKVS (Key kv)).2 then ret currKVS
                 else Set_ currKVS (Key kv) (Value kv)) currKVS
           end) σ
         (λ r σ1, ∃ cur1, r = Done cur1 ∧ owned n cur1 ∧ frame n σ σ1 ∧
            sched σ1 = sched σ ∧ valid σ1 cur1 ∧
            elems σ1 cur1 = match elems σ <$> ck with
                            | None => elems σ defaults
                            | Some l => backfill_list (elems σ defaults) l
                            end)).
  2:{ destruct ck as [k|]; simpl.
      - specialize (Hvc k eq_refl). apply wp_bind. apply Clone_wp.
        intros cur0 σ0 Ho0 Hf0 Hs0 Hc0. destruct (Hc0 Hvc) as [Hv0 He0].
        pose proof (frame_length _ _ _ Hf0).
        apply (range_set_wp n (λ kv cur, negb (Lookup_list cur (Key kv)).2));
          [|done|done|by eapply frame_valid|done|done|].
        { intros i kv cur σ1. unfold mbind, M_bind, bind, get_state, Lookup. simpl.
          by destruct (Lookup_list (elems σ1 cur) (Key kv)).2. }
        rewrite (frame_elems _ _ _ _ Hf0 Hbd), He0.
        intros cur1 σ1 Ho1 Hf1 Hs1 Hv1 He1. exists cur1.
        split_and!; [done|done|by eapply frame_trans|congruence|done|done].
      - apply Clone_wp. intros cur0 σ0 Ho0 Hf0 Hs0 Hc0. destruct (Hc0 Hvd) as [Hv0 He0].
        exists cur0. by split_and!. }
  intros Hw. eapply wp_mono; [exact Hw|]. clear Hw.
  intros r σ1 (cur1 & -> & Ho1 & Hf1 & Hs1 & Hv1 & He1).
  pose proof (frame_length _ _ _ Hf1). fold n in H1.
  (* the pairs of the directive *)
  apply wp_bind.
  apply (range_set_wp n (λ kv _, negb (bool_decide (Key kv = Comment))));
    [|done|done|by eapply frame_valid|done|done|].
  { intros i kv cur σ2. simpl. destruct (decide (Key kv = Comment)).
    - by rewrite bool_decide_eq_true_2.
    - by rewrite bool_decide_eq_false_2. }
  rewrite (frame_elems _ _ _ _ Hf1 Hbk), He1.
  intros cur2 σ2 Ho2 Hf2 Hs2 Hv2 He2.
  pose proof (frame_length _ _ _ Hf2).
  assert (frame n σ σ2) as Hf02 by by eapply frame_trans.
  (* the comment *)
  apply wp_bind, wp_get_state. unfold Lookup.
  rewrite (frame_elems _ _ _ _ Hf02 Hbk).
  fold (overlay_list (elems σ kvs)
          (match elems σ <$> ck with
           | Some l => backfill_list (elems σ defaults) l
           | None => elems σ defaults
           end)) in He2.
  destruct (Lookup_list (elems σ kvs) Comment) as [v ok] eqn:El. destruct ok.
  - apply (Set_wp n); [done|lia|].
    intros cur3 σ3 Ho3 Hf3 Hs3 Hc3. destruct (Hc3 Hv2) as [Hv3 He3].
    apply HΦ; [done|by eapply frame_trans|congruence|done|].
    unfold merged_list. rewrite El, He3, He2. by destruct ck.
  - apply wp_ret. apply HΦ; [done..|congruence|done|].
    unfold merged_list. rewrite El, He2. by destruct ck.
Qed.

Lemma valid_table_total σ (t : gmap string KVS) subSys :
  valid_table σ t → valid σ (t !!! subSys).
Proof.
  intros Hv. rewrite lookup_total_alt. destruct (t !! subSys) eqn:E; simpl.
  - by eapply Hv.
  - apply valid_nil.
Qed.

(** [SetKVS] on a well-formed store and table. *)
Lemma SetKVS_spec s defaultKVS c σ :
  valid_store σ c → valid_table σ defaultKVS →
  wp (SetKVS s defaultKVS c) σ (SetKVS_post s defaultKVS c σ).
Proof.
  intros Hvc Hvt. unfold SetKVS, SetKVS_post.
  destruct (GetSubSys s) as [[[subSys inputs] tgt] err].
  destruct err as [e|].
  { apply wp_ret. split_and!; [apply frame_refl|done..]. }
  apply wp_bind. unfold index. destruct (inputs !! 1) as [input1|].
  2:{ apply wp_panic. split_and!; [apply frame_refl|done..]. }
  apply wp_ret, wp_bind, wp_get_state.
  pose proof (valid_table_total σ defaultKVS subSys Hvt) as Hvd.
  set (defaults := defaultKVS !!! subSys) in *.
  destruct (decide (length (KvFields input1 (Keys σ defaults)) = 0)).
  { apply wp_ret. split_and!; [apply frame_refl|done..]. }
  apply wp_bind.
  apply (directive_kvs_wp (length (heap σ))); [done|by apply valid_below|].
  destruct (directive_list (KvFields input1 (Keys σ defaults)) (elems σ defaults))
    as [[l enableRequired] perr].
  simpl. intros kvs1 σ1 Ho1 Hf1 Hs1 Hv1 He1.
  destruct perr as [e|].
  { apply wp_ret. by split_and!. }
  pose proof (frame_length _ _ _ Hf1) as Hl1.
  assert (∀ k, below (length (heap σ)) k → elems σ1 k = elems σ k) as Hsame.
  { intros k Hk. by apply (frame_elems _ _ _ _ Hf1). }
  apply wp_bind. apply merge_kvs_wp.
  { eapply frame_valid; [done|by apply valid_below|done]. }
  { done. }
  { intros k Hk. eapply frame_valid; [done| |]; [apply valid_below|]; by eapply Hvc. }
  intros cur σ2 Ho2 Hf2 Hs2 Hv2 He2.
  assert (elems σ2 cur = merged_list (elems σ <$> entry c subSys tgt) (elems σ defaults) l)
    as He.
  { rewrite He2, He1, (Hsame defaults) by by apply valid_below. f_equal.
    destruct (entry c subSys tgt) as [k|] eqn:Ek; simpl; [|done].
    rewrite Hsame; [done|]. apply valid_below. by eapply Hvc. }
  assert (frame (length (heap σ)) σ σ2) as Hf.
  { eapply frame_trans; [done|]. by eapply frame_mono. }
  apply wp_bind, wp_get_state. rewrite He.
  destruct (check_required _ enableRequired subSys (HelpSubSysMap !!! subSys)).
  { apply wp_ret. split_and!; [done|congruence|done]. }
  apply wp_bind. unfold assign. destruct (c !! subSys) as [m|].
  - apply wp_ret, wp_ret. split_and!; [done|congruence|].
    exists cur. split_and!; [done| |done..]. by eapply owned_mono.
  - apply wp_panic. split_and!; [done|congruence|done].
Qed.

End setkvs.

Section setkvs_claims.
Context `{Imports} `{Registry}.

Lemma frame_valid_elems σ σ' kvs :
  frame (length (heap σ)) σ σ' → valid σ kvs → elems σ' kvs = elems σ kvs.
Proof. intros Hf Hv. eapply frame_elems; [done|]. by apply valid_below. Qed.

(** C2.  On a well-formed store and table of defaults, when [SetKVS]
    returns an error the store it leaves is the store it was given, every
    array allocated before the call is untouched, and so every entry of
    the store and every default KVS shows the elements it showed. *)
Theorem SetKVS_error_leaves_store s defaultKVS c σ c' dynamic e σ' :
  valid_store σ c → valid_table σ defaultKVS →
  SetKVS s defaultKVS c σ = (Done (c', (dynamic, Some e)), σ') →
  c' = c ∧
  (∀ a, a < length (heap σ) → heap σ' !! a = heap σ !! a) ∧
  (∀ subSys tgt kvs, entry c subSys tgt = Some kvs → elems σ' kvs = elems σ kvs) ∧
  (∀ subSys kvs, defaultKVS !! subSys = Some kvs → elems σ' kvs = elems σ kvs).
Proof.
  intros Hvc Hvt Hrun.
  pose proof (wp_run _ _ _ _ _ (SetKVS_spec s defaultKVS c σ Hvc Hvt) Hrun) as (Hf & _ & Hr).
  assert (c' = c) as ->.
  { destruct (GetSubSys s) as [[[subSys inputs] tgt] err].
    destruct err; [by simplify_eq|].
    destruct (inputs !! 1); [|done].
    simpl in Hr. destruct (decide _); [by simplify_eq|].
    destruct (directive_list _ _) as [[l er] perr].
    destruct perr; [by simplify_eq|].
    destruct (check_required _ _ _ _); [by simplify_eq|].
    destruct (c !! subSys); [|done].
    destruct Hr as (? & ? & _). discriminate. }
  split_and!; [done|by destruct Hf| |].
  - intros subSys tgt kvs Hk. apply frame_valid_elems; [done|]. by eapply Hvc.
  - intros subSys kvs Hk. apply frame_valid_elems; [done|]. by eapply Hvt.
Qed.

(** C10.  On a well-formed store and table of defaults, a successful
    [SetKVS] for the subsystem and target of the directive leaves every
    other entry of the store as it was; the slice it stores is in an array
    allocated by the call; every array allocated before the call is
    untouched, so every slice the store held and every default KVS shows
    the elements it showed. *)
Theorem SetKVS_frame s defaultKVS c σ c' dynamic σ' :
  valid_store σ c → valid_table σ defaultKVS →
  SetKVS s defaultKVS c σ = (Done (c', (dynamic, None)), σ') →
  ∃ subSys inputs tgt kvs',
    GetSubSys s = (subSys, inputs, tgt, None) ∧
    entry c' subSys tgt = Some kvs' ∧ owned (length (heap σ)) kvs' ∧
    (∀ s' t', (s', t') ≠ (subSys, tgt) → entry c' s' t' = entry c s' t') ∧
    (∀ a, a < length (heap σ) → heap σ' !! a = heap σ !! a) ∧
    (∀ s' t' kvs, entry c s' t' = Some kvs → elems σ' kvs = elems σ kvs) ∧
    (∀ s' kvs, defaultKVS !! s' = Some kvs → elems σ' kvs = elems σ kvs).
Proof.
  intros Hvc Hvt Hrun.
  pose proof (wp_run _ _ _ _ _ (SetKVS_spec s defaultKVS c σ Hvc Hvt) Hrun) as (Hf & _ & Hr).
  destruct (GetSubSys s) as [[[subSys inputs] tgt] err].
  destruct err; [by simplify_eq|].
  destruct (inputs !! 1); [|done].
  simpl in Hr. destruct (decide _); [by simplify_eq|].
  destruct (directive_list _ _) as [[l er] perr].
  destruct perr; [by simplify_eq|].
  destruct (check_required _ _ _ _); [by simplify_eq|].
  destruct (c !! subSys) as [m|] eqn:Hm; [|done].
  destruct Hr as (kvs' & Hr & Ho & _). injection Hr as -> ->.
  exists subSys, inputs, tgt, kvs'. split_and!; [done| |done| |by destruct Hf| |].
  - unfold entry. rewrite lookup_insert_eq. simpl. by rewrite lookup_insert_eq.
  - intros s' t' Hne. unfold entry. destruct (decide (s' = subSys)) as [->|Hs].
    + rewrite lookup_insert_eq, Hm. simpl. rewrite lookup_insert_ne; [done|congruence].
    + by rewrite lookup_insert_ne.
  - intros s' t' kvs Hk. apply frame_valid_elems; [done|]. by eapply Hvc.
  - intros s' kvs Hk. apply frame_valid_elems; [done|]. by eapply Hvt.
Qed.

Lemma Lookup_list_fst l key : (Lookup_list l key).1 = Get_list l key.
Proof. by rewrite Lookup_list_Get. Qed.

Lemma directive_list_enable fields defaults kvs enableRequired :
  directive_list fields defaults = (kvs, enableRequired, None) →
  enableRequired = (Lookup_list defaults Enable).2.
Proof.
  unfold directive_list. destruct (parse_list fields [] "") as [l perr].
  destruct perr; [done|]. by intros [= _ <-].
Qed.

Lemma check_required_disabled l subSys hkvs :
  bool_decide (Get_list l Enable = EnableOn) = false →
  check_required l true subSys hkvs = None.
Proof.
  intros Hd. induction hkvs as [|hkv rest IH]; simpl; [done|].
  rewrite Hd. by rewrite Bool.andb_false_r.
Qed.

Lemma check_required_missing l (enableRequired : bool) subSys hkvs :
  (if enableRequired then bool_decide (Get_list l Enable = EnableOn) else true) = true →
  (∃ hkv, hkv ∈ hkvs ∧ Optional hkv = false ∧ Get_list l (HelpKey hkv) = "") →
  ∃ hkv, hkv ∈ hkvs ∧ Optional hkv = false ∧ Get_list l (HelpKey hkv) = "" ∧
    check_required l enableRequired subSys hkvs =
      Errorf ("'" +:+ HelpKey hkv +:+ "' is not optional for '" +:+ subSys +:+
              "' sub-system, please check '" +:+ subSys +:+ "' documentation").
Proof.
  intros Hen. induction hkvs as [|hkv rest IH]; intros (x & Hx & Ho & Hg).
  { by apply elem_of_nil in Hx. }
  simpl. rewrite Hen, Lookup_list_fst, Bool.andb_true_r.
  destruct (bool_decide (Get_list l (HelpKey hkv) = "") && negb (Optional hkv)) eqn:E.
  - apply Bool.andb_true_iff in E as [E1%bool_decide_eq_true E2%Bool.negb_true_iff].
    exists hkv. split_and!; [apply elem_of_cons; by left|done..].
  - destruct IH as (y & Hy & ? & ? & ?).
    + apply elem_of_cons in Hx as [->|Hx]; [|by eauto].
      rewrite Ho, bool_decide_eq_true_2 in E by done. done.
    + exists y. split_and!; [apply elem_of_cons; by right|done..].
Qed.

(** C3.  For a directive that parses into pairs [kvs], on a well-formed
    store and table, with [merged] the merged pairs (the stored entry
    back-filled with the defaults, the pairs of the directive over it, the
    comment last) and the target enabled when the merged state is on or
    the default KVS has no state key: if the target is enabled and some
    help key that is not optional has an empty value in [merged], [SetKVS]
    returns the error that names such a key and leaves the store alone; if
    the target is not enabled and the store has the subsystem, [SetKVS]
    succeeds and stores under the subsystem and target a slice that shows
    [merged], empty keys or not. *)
Theorem SetKVS_required_keys s defaultKVS c σ subSys inputs tgt input1 kvs enableRequired :
  valid_store σ c → valid_table σ defaultKVS →
  GetSubSys s = (subSys, inputs, tgt, None) → inputs !! 1 = Some input1 →
  let defaults := elems σ (defaultKVS !!! subSys) in
  let fields := KvFields input1 (Keys σ (defaultKVS !!! subSys)) in
  fields ≠ [] → directive_list fields defaults = (kvs, enableRequired, None) →
  let merged := merged_list (elems σ <$> entry c subSys tgt) defaults kvs in
  let enabled :=
    if (Lookup_list defaults Enable).2
    then bool_decide (Get_list merged Enable = EnableOn) else true in
  (enabled = true →
   (∃ hkv, hkv ∈ HelpSubSysMap !!! subSys ∧ Optional hkv = false ∧
      Get_list merged (HelpKey hkv) = "") →
   ∃ hkv σ', hkv ∈ HelpSubSysMap !!! subSys ∧ Optional hkv = false ∧
     Get_list merged (HelpKey hkv) = "" ∧
     SetKVS s defaultKVS c σ =
       (Done (c, (false,
          Errorf ("'" +:+ HelpKey hkv +:+ "' is not optional for '" +:+ subSys +:+
                  "' sub-system, please check '" +:+ subSys +:+ "' documentation"))), σ')) ∧
  (enabled = false → ∀ m, c !! subSys = Some m →
   ∃ kvs' σ',
     SetKVS s defaultKVS c σ =
       (Done (<[subSys := <[tgt := kvs']> m]> c,
              (Contains SubSystemsDynamic subSys, None)), σ') ∧
     elems σ' kvs' = merged).
Proof.
  intros Hvc Hvt Hsub Hin defaults fields Hfields Hdir merged enabled.
  pose proof (SetKVS_spec s defaultKVS c σ Hvc Hvt) as Hw.
  unfold wp, SetKVS_post in Hw. rewrite Hsub, Hin in Hw. simpl in Hw.
  fold defaults fields in Hw. rewrite decide_False in Hw by by destruct fields.
  rewrite Hdir in Hw. fold merged in Hw.
  pose proof (directive_list_enable _ _ _ _ Hdir) as Her.
  destruct Hw as (_ & _ & Hr).
  destruct (SetKVS s defaultKVS c σ) as [r σ'] eqn:Hrun. simpl in Hr.
  split.
  - intros Hen Hmiss.
    destruct (check_required_missing merged enableRequired subSys
                (HelpSubSysMap !!! subSys)) as (hkv & ? & ? & ? & Hc); [|done|].
    { by rewrite Her. }
    rewrite Hc in Hr. exists hkv, σ'. split_and!; [done..|]. by rewrite Hr.
  - intros Hdis m Hm. unfold enabled in Hdis. rewrite <- Her in Hdis.
    destruct enableRequired; [|done].
    rewrite (check_required_disabled _ _ _ Hdis), Hm in Hr.
    destruct Hr as (kvs' & -> & _ & _ & He). by exists kvs', σ'.
Qed.

End setkvs_claims.

Section setkvs_example.
#[local] Instance setkvs_imports : Imports := Ref.imports (λ _, false).
#[local] Instance setkvs_registry : Registry := Fixture.registry.

Lemma valid_table_fixture : valid_table Fixture.σ0 DefaultKVS.
Proof.
  intros subSys kvs Hk. unfold DefaultKVS in Hk. simpl in Hk.
  repeat (apply lookup_insert_Some in Hk as [[_ <-]|[_ Hk]];
          [unfold valid, cap; simpl; lia|]).
  apply lookup_singleton_Some in Hk as [_ <-]. unfold valid, cap. simpl. lia.
Qed.

Lemma valid_store_fixture : valid_store Fixture.σ0 Fixture.c0.
Proof.
  intros subSys tgt kvs. unfold entry, Fixture.c0.
  destruct (decide (subSys = NotifyWebhookSubSys)) as [->|Hne].
  - rewrite lookup_singleton_eq. simpl. intros [_ <-]%lookup_singleton_Some.
    unfold valid, cap. simpl. lia.
  - by rewrite lookup_singleton_ne.
Qed.

Lemma not_dynamic_notify_webhook : Contains SubSystemsDynamic "notify_webhook" = false.
Proof. vm_compute. reflexivity. Qed.

(** [SetKVS("notify_webhook:t1 comment=x")]: the target is enabled by the
    implicit state, the endpoint is empty, the call returns the error. *)
Lemma SetKVS_error_leaves_store_witness :
  let s := "notify_webhook:t1 comment=x" in
  ∃ e σ', SetKVS s DefaultKVS Fixture.c0 Fixture.σ0 = (Done (Fixture.c0, (false, Some e)), σ') ∧
    (∀ a, a < length (heap Fixture.σ0) → heap σ' !! a = heap Fixture.σ0 !! a) ∧
    (∀ subSys tgt kvs, entry Fixture.c0 subSys tgt = Some kvs →
       elems σ' kvs = elems Fixture.σ0 kvs) ∧
    (∀ subSys kvs, DefaultKVS !! subSys = Some kvs → elems σ' kvs = elems Fixture.σ0 kvs).
Proof.
  intros s.
  assert (match SetKVS s DefaultKVS Fixture.c0 Fixture.σ0 with
          | (Done (_, (false, Some _)), _) => True
          | _ => False
          end) as Hobs by (vm_compute; exact I).
  destruct (SetKVS s DefaultKVS Fixture.c0 Fixture.σ0)
    as [[[c' [[|] [e|]]]|msg] σ'] eqn:Hrun; try (exfalso; exact Hobs).
  destruct (SetKVS_error_leaves_store s DefaultKVS Fixture.c0 Fixture.σ0
              c' false e σ' valid_store_fixture valid_table_fixture Hrun)
    as (-> & Hrest).
  exists e, σ'. split; [reflexivity|exact Hrest].
Defined.

(** [SetKVS("notify_webhook:t1 endpoint=http://a")]: the call succeeds and
    stores the target [t1]. *)
Lemma SetKVS_frame_witness :
  let s := "notify_webhook:t1 endpoint=http://a" in
  ∃ c' σ' kvs', SetKVS s DefaultKVS Fixture.c0 Fixture.σ0 = (Done (c', (false, None)), σ') ∧
    entry c' "notify_webhook" "t1" = Some kvs' ∧
    owned (length (heap Fixture.σ0)) kvs' ∧
    (∀ s' t', (s', t') ≠ ("notify_webhook", "t1") → entry c' s' t' = entry Fixture.c0 s' t') ∧
    (∀ a, a < length (heap Fixture.σ0) → heap σ' !! a = heap Fixture.σ0 !! a) ∧
    (∀ s' t' kvs, entry Fixture.c0 s' t' = Some kvs → elems σ' kvs = elems Fixture.σ0 kvs) ∧
    (∀ s' kvs, DefaultKVS !! s' = Some kvs → elems σ' kvs = elems Fixture.σ0 kvs).
Proof.
  intros s.
  assert (match SetKVS s DefaultKVS Fixture.c0 Fixture.σ0 with
          | (Done (_, (false, None)), _) => True
          | _ => False
          end) as Hobs by (vm_compute; exact I).
  destruct (SetKVS s DefaultKVS Fixture.c0 Fixture.σ0)
    as [[[c' [[|] [e|]]]|msg] σ'] eqn:Hrun; try (exfalso; exact Hobs).
  destruct (SetKVS_frame s DefaultKVS Fixture.c0 Fixture.σ0 c' false σ'
              valid_store_fixture valid_table_fixture Hrun)
    as (subSys & inputs & tgt & kvs' & Hsub & Hrest).
  assert (GetSubSys s = ("notify_webhook", ["notify_webhook:t1"; "endpoint=http://a"],
                         "t1", None)) as Hsub' by (vm_compute; reflexivity).
  rewrite Hsub' in Hsub. injection Hsub as <- <- <-.
  exists c', σ', kvs'. split; [reflexivity|exact Hrest].
Defined.

(** [SetKVS("notify_webhook:t1 comment=x")]: enabled by the implicit
    state, with the key [endpoint], which is not optional, empty; and
    [SetKVS("notify_webhook:t1 enable=off")]: not enabled, stored. *)
Lemma SetKVS_required_keys_witness :
  (∃ σ', SetKVS "notify_webhook:t1 comment=x" DefaultKVS Fixture.c0 Fixture.σ0 =
     (Done (Fixture.c0,
        (false, Errorf "'endpoint' is not optional for 'notify_webhook' sub-system, please check 'notify_webhook' documentation")),
      σ')) ∧
  (∃ kvs' σ', SetKVS "notify_webhook:t1 enable=off" DefaultKVS Fixture.c0 Fixture.σ0 =
     (Done (<["notify_webhook" := <["t1" := kvs']> {[ Default := mkKVS (Some 1) 3 ]}]> Fixture.c0,
            (false, None)), σ') ∧
     elems σ' kvs' = [mkKV "enable" "off"; mkKV "endpoint" ""; mkKV "auth_token" ""]).
Proof.
  split.
  - destruct (SetKVS_required_keys "notify_webhook:t1 comment=x" DefaultKVS
                Fixture.c0 Fixture.σ0 "notify_webhook"
                ["notify_webhook:t1"; "comment=x"] "t1" "comment=x"
                [mkKV "comment" "x"; mkKV "enable" "on"] true
                valid_store_fixture valid_table_fixture)
      as [Ha _]; [vm_compute; reflexivity|reflexivity|vm_compute; discriminate
                 |vm_compute; reflexivity|].
    destruct Ha as (hkv & σ' & Hin & Ho & Hg & Hrun); [vm_compute; reflexivity| |].
    { exists (mkHelpKV "endpoint" false true).
      split; [apply elem_of_cons; left; reflexivity|].
      split; [reflexivity|vm_compute; reflexivity]. }
    exists σ'. rewrite Hrun. clear Hrun.
    assert (hkv = mkHelpKV "endpoint" false true) as ->; [|reflexivity].
    apply elem_of_cons in Hin as [->|Hin]; [reflexivity|].
    apply elem_of_cons in Hin as [->|Hin]; [discriminate Ho|].
    apply elem_of_nil in Hin. destruct Hin.
  - destruct (SetKVS_required_keys "notify_webhook:t1 enable=off" DefaultKVS
                Fixture.c0 Fixture.σ0 "notify_webhook"
                ["notify_webhook:t1"; "enable=off"] "t1" "enable=off"
                [mkKV "enable" "off"] true
                valid_store_fixture valid_table_fixture)
      as [_ Hb]; [vm_compute; reflexivity|reflexivity|vm_compute; discriminate
                 |vm_compute; reflexivity|].
    destruct (Hb ltac:(vm_compute; reflexivity) {[ Default := mkKVS (Some 1) 3 ]})
      as (kvs' & σ' & Hrun & He); [apply lookup_singleton_eq|].
    rewrite not_dynamic_notify_webhook in Hrun.
    exists kvs', σ'. split; [exact Hrun|]. rewrite He. vm_compute. reflexivity.
Defined.

End setkvs_example.

(** ** Merge *)

Section merge_example.
#[local] Instance merge_imports : Imports := Ref.imports (λ t, t <? 32).
#[local] Instance merge_registry : Registry := Fixture.registry.

(** C7, as the code has it.  A fresh store takes a comment on the default
    target of notify_webhook and a second target [t1].  [Merge] ranges
    over two maps whose order Go leaves open: the first call visits [t1]
    before the default target and returns [t1] as it was; the second call
    visits the default target first, so that the default-target entry of
    the new store is already the merged one when [t1] is back-filled from
    it, and [t1] takes the comment of the default target.  The second
    [Merge] does not return what the first returned. *)
Lemma Merge_twice_drifts :
  match
    ('(c, _) ← SetKVS "notify_webhook endpoint=http://a comment=primary" DefaultKVS New;
     '(c, _) ← SetKVS "notify_webhook:t1 endpoint=http://b" DefaultKVS c;
     m ← Merge c; σ1 ← get_state;
     m' ← Merge m; σ2 ← get_state;
     ret (elems σ1 <$> entry m "notify_webhook" "t1",
          elems σ2 <$> entry m' "notify_webhook" "t1")) Fixture.σ0
  with
  | (Done (once, twice), _) =>
      once = Some [mkKV "enable" "on"; mkKV "endpoint" "http://b"; mkKV "auth_token" ""] ∧
      twice = Some [mkKV "enable" "on"; mkKV "endpoint" "http://b"; mkKV "auth_token" "";
                    mkKV "comment" "primary"] ∧
      once ≠ twice
  | _ => False
  end.
Proof. vm_compute. split_and!; [reflexivity..|discriminate]. Qed.

End merge_example.

(** ** New and Clone *)

Section clone.
Context `{Imports} `{Registry}.

Lemma foldl_insert_lookup {V} (f : string → V) (l : list string) (acc : gmap string V) k :
  foldl (λ m k, <[k := f k]> m) acc l !! k =
    if decide (k ∈ l) then Some (f k) else acc !! k.
Proof.
  revert acc. induction l as [|x l IH]; intros acc.
  - destruct (decide (k ∈ [])) as [Hin|]; [|done]. by apply elem_of_nil in Hin.
  - simpl. rewrite IH. destruct (decide (k ∈ x :: l)) as [Hin|Hin].
    + destruct (decide (k ∈ l)); [done|].
      apply elem_of_cons in Hin as [->|Hin]; [|done]. apply lookup_insert_eq.
    + apply not_elem_of_cons in Hin as [Hx Hl].
      rewrite decide_False by done. by rewrite lookup_insert_ne.
Qed.

Lemma lookup_New k :
  New !! k = if decide (k ∈ SubSystems) then Some {[ Default := DefaultKVS !!! k ]} else None.
Proof.
  with_strategy transparent [New] unfold New.
  rewrite (foldl_insert_lookup (λ k, {[ Default := DefaultKVS !!! k ]})).
  assert (k ∈ ToSlice SubSystems ↔ k ∈ SubSystems) as Hiff.
  { unfold ToSlice. rewrite merge_sort_Permutation. apply elem_of_elements. }
  destruct (decide (k ∈ SubSystems)).
  - rewrite decide_True by by apply Hiff. done.
  - rewrite decide_False by by rewrite Hiff. apply lookup_empty.
Qed.

Lemma complete_New : complete New.
Proof. intros s Hs. rewrite lookup_New. rewrite decide_True by exact Hs. by eexists. Qed.

Lemma valid_store_New σ : valid_table σ DefaultKVS → valid_store σ New.
Proof.
  intros Hvt s t kvs. unfold entry. rewrite lookup_New.
  destruct (decide (s ∈ SubSystems)); simpl; [|discriminate].
  intros [_ <-]%lookup_singleton_Some. by apply valid_table_total.
Qed.

Lemma extends_refl σ : extends σ σ.
Proof. apply frame_refl. Qed.

Lemma extends_trans σ1 σ2 σ3 : extends σ1 σ2 → extends σ2 σ3 → extends σ1 σ3.
Proof.
  unfold extends. intros H12 H23. eapply frame_trans; [done|].
  eapply frame_mono; [|done]. by apply frame_length in H12.
Qed.

Lemma extends_length σ σ' : extends σ σ' → length (heap σ) ≤ length (heap σ').
Proof. apply frame_length. Qed.

Lemma extends_elems σ σ' kvs : extends σ σ' → valid σ kvs → elems σ' kvs = elems σ kvs.
Proof. apply frame_valid_elems. Qed.

Lemma extends_valid σ σ' kvs : extends σ σ' → valid σ kvs → valid σ' kvs.
Proof. intros He Hv. eapply frame_valid; [done|by apply valid_below|done]. Qed.

Lemma is_clone_extends σ0 σ σ' lo kv k' :
  is_clone σ0 σ lo kv k' → extends σ σ' → is_clone σ0 σ' lo kv k'.
Proof.
  intros (Hv & He & Ha) Hext. split_and!.
  - by eapply extends_valid.
  - by rewrite (extends_elems _ _ _ Hext Hv).
  - intros a Hp. apply Ha in Hp. apply extends_length in Hext. lia.
Qed.

Lemma is_clone_lo σ0 σ lo lo' kv k' :
  lo' ≤ lo → is_clone σ0 σ lo kv k' → is_clone σ0 σ lo' kv k'.
Proof.
  intros Hlo (Hv & He & Ha). split_and!; [done..|].
  intros a Hp. apply Ha in Hp. lia.
Qed.

(** [append(nil, kv...)]: nil, or a copy in a new array. *)
Lemma append_nil_wp σ0 kv σ Φ :
  extends σ0 σ → valid σ0 kv →
  (∀ k' σ', extends σ σ' → sched σ' = sched σ →
     is_clone σ0 σ' (length (heap σ)) kv k' → Φ (Done k') σ') →
  wp (append_nil kv) σ Φ.
Proof.
  intros Hext Hv HΦ. unfold wp, append_nil.
  pose proof (extends_elems _ _ _ Hext Hv) as He.
  pose proof (elems_length _ _ Hv) as Hl.
  case_decide as Hz; simpl.
  - apply HΦ; [apply extends_refl|done|]. split_and!; [done| |done].
    rewrite elems_nil. symmetry. apply length_zero_iff_nil. by rewrite Hl.
  - apply HΦ.
    + split; [|simpl; rewrite length_app; lia]. intros a Ha. simpl.
      by rewrite lookup_app_l.
    + done.
    + set (arr := elems σ kv ++ _).
      assert (len kv ≤ length arr) as Hn.
      { unfold arr. rewrite length_app, He, Hl. lia. }
      split_and!.
      * by apply (valid_alloc_new arr σ (len kv)).
      * pose proof (elems_alloc_new arr σ (len kv) Hn) as Hx. simpl in Hx.
        rewrite Hx. unfold arr. rewrite <- He.
        apply take_app_length'. by rewrite He, Hl.
      * simpl. intros a [= <-]. rewrite length_app. simpl. lia.
Qed.

Lemma cloned_map_extends σ0 σ σ' lo lo' m m' :
  cloned_map σ0 σ lo m m' → extends σ σ' → lo' ≤ lo → cloned_map σ0 σ' lo' m m'.
Proof.
  intros (Hd & Hc & Hi) Hext Hlo. split_and!; [done| |done].
  intros t kv k' Hm Hm'. eapply is_clone_lo; [done|].
  eapply is_clone_extends; [|done]. by eapply Hc.
Qed.

Lemma extends_tick σ : extends σ (mkState (heap σ) (S (sched σ))).
Proof. by split. Qed.

(** The inner loop of [Clone]: the targets of one subsystem. *)
Lemma clone_targets_wp σ0 (tgtKV : gmap string KVS) σ Φ :
  extends σ0 σ → (∀ t kv, tgtKV !! t = Some kv → valid σ0 kv) →
  (∀ m' σ', extends σ σ' → cloned_map σ0 σ' (length (heap σ)) tgtKV m' →
     Φ (Done m') σ') →
  wp (range_map tgtKV (λ tgt kv (m : gmap string KVS),
        new ← append_nil kv; ret (<[tgt := new]> m)) ∅) σ Φ.
Proof.
  intros Hext Hv HΦ. set (n := length (heap σ)).
  apply (range_map_wp (λ pre m σ1,
           extends σ σ1 ∧
           (∀ t, m !! t = None ↔ t ∉ pre) ∧
           (∀ t k', m !! t = Some k' →
              ∃ kv, tgtKV !! t = Some kv ∧ is_clone σ0 σ1 n kv k') ∧
           (∀ t1 t2 k1 k2 a, m !! t1 = Some k1 → m !! t2 = Some k2 →
              ptr k1 = Some a → ptr k2 = Some a → t1 = t2))).
  - split_and!; [apply extends_tick| |done|done].
    intros t. rewrite lookup_empty. split; [intros _; apply not_elem_of_nil|done].
  - intros pre t kv m σ1 Ht Hpre (He1 & Hdom & Hcl & Hinj).
    apply wp_bind. apply (append_nil_wp σ0); [by eapply extends_trans|by eapply Hv|].
    intros k' σ2 He2 _ Hk'. apply wp_ret. exists (<[t := k']> m). split; [done|].
    pose proof (extends_length _ _ He1) as Hl1. fold n in Hl1.
    split_and!.
    + by eapply extends_trans.
    + intros t'. rewrite elem_of_app, list_elem_of_singleton.
      destruct (decide (t' = t)) as [->|Hne].
      * rewrite lookup_insert_eq. split; [done|]. intros Hn. destruct Hn. by right.
      * rewrite lookup_insert_ne by done. rewrite Hdom. tauto.
    + intros t' k2. destruct (decide (t' = t)) as [->|Hne].
      * rewrite lookup_insert_eq. intros [= <-]. exists kv. split; [done|].
        by eapply is_clone_lo.
      * rewrite lookup_insert_ne by done. intros Hm.
        destruct (Hcl _ _ Hm) as (kv2 & ? & ?). exists kv2. split; [done|].
        by eapply is_clone_extends.
    + assert (∀ t2 k2 a, m !! t2 = Some k2 → ptr k2 = Some a → ptr k' = Some a → False)
        as Hfresh.
      { intros t2 k2 a Hm Hp2 Hp'. destruct (Hcl _ _ Hm) as (kv2 & _ & _ & _ & Hr).
        destruct Hk' as (_ & _ & Hr'). apply Hr in Hp2. apply Hr' in Hp'. lia. }
      intros t1 t2 k1 k2 a.
      destruct (decide (t1 = t)) as [->|Hne1]; destruct (decide (t2 = t)) as [->|Hne2];
        [done| | |].
      * rewrite lookup_insert_eq, lookup_insert_ne by done.
        intros [= <-] Hm ? ?. exfalso. by eapply Hfresh.
      * rewrite lookup_insert_eq, lookup_insert_ne by done.
        intros Hm [= <-] ? ?. exfalso. by eapply Hfresh.
      * rewrite !lookup_insert_ne by done. apply Hinj.
  - intros ks m σ' Hperm (He & Hdom & Hcl & Hinj). apply HΦ; [done|].
    assert (∀ t, t ∈ ks ↔ is_Some (tgtKV !! t)) as Hks.
    { intros t. rewrite Hperm, list_elem_of_fmap. split.
      - intros ([t' kv] & -> & Hin%elem_of_map_to_list). by eexists.
      - intros [kv Hkv]. exists (t, kv). split; [done|]. by apply elem_of_map_to_list. }
    split_and!; [|by intros t kv k' Hkv Hm; destruct (Hcl _ _ Hm) as (? & ? & ?); simplify_eq|done].
    intros t. rewrite Hdom, Hks, <- eq_None_not_Some. done.
Qed.

(** [Clone] on a well-formed store. *)
Lemma Clone_wp_store σ c Φ :
  valid_store σ c →
  (∀ nc σ', extends σ σ' → clone_of σ σ' c nc → Φ (Done nc) σ') →
  wp (Clone c) σ Φ.
Proof.
  intros Hvc HΦ. set (n0 := length (heap σ)). unfold Clone.
  assert (∀ s m t kv, c !! s = Some m → m !! t = Some kv → valid σ kv) as Hv.
  { intros s m t kv Hs Ht. apply (Hvc s t). unfold entry. by rewrite Hs. }
  apply (range_map_wp (λ pre cp σ1,
           extends σ σ1 ∧
           (∀ s, s ∉ pre → cp !! s = New !! s) ∧
           (∀ s, s ∈ pre → ∃ m m', c !! s = Some m ∧ cp !! s = Some m' ∧
              cloned_map σ σ1 n0 m m') ∧
           (∀ s s' m1 m2 t t' k k' a, s ∈ pre → s' ∈ pre →
              cp !! s = Some m1 → cp !! s' = Some m2 → m1 !! t = Some k → m2 !! t' = Some k' →
              ptr k = Some a → ptr k' = Some a → s = s'))).
  - split_and!; [apply extends_tick|done| |].
    + intros s Hs. apply elem_of_nil in Hs. destruct Hs.
    + intros s s' m1 m2 t t' k k' a Hs. apply elem_of_nil in Hs. destruct Hs.
  - intros pre s tgtKV cp σ1 Hs Hpre (He1 & Hnew & Hold & Hinj).
    apply wp_bind. apply (clone_targets_wp σ); [done|by intros; eapply Hv|].
    intros m' σ2 He2 Hcm. apply wp_ret. exists (<[s := m']> cp). split; [done|].
    pose proof (extends_length _ _ He1) as Hl1. fold n0 in Hl1.
    assert (∀ s2 m2 t2 k2 a t k, s2 ∈ pre → cp !! s2 = Some m2 → m2 !! t2 = Some k2 →
              ptr k2 = Some a → m' !! t = Some k → ptr k = Some a → False) as Hfresh.
    { intros s2 m2 t2 k2 a t k Hs2 Hcp Hm2 Hp2 Hm' Hp.
      destruct (Hold _ Hs2) as (mo & mo' & Hc & Hcp' & Hd & Hcl & _).
      rewrite Hcp in Hcp'. injection Hcp' as <-.
      destruct (mo !! t2) as [kv2|] eqn:Hmo.
      2:{ apply Hd in Hmo. congruence. }
      destruct (Hcl _ _ _ Hmo Hm2) as (_ & _ & Hr). apply Hr in Hp2.
      destruct Hcm as (Hd' & Hcl' & _).
      destruct (tgtKV !! t) as [kv|] eqn:Htg.
      2:{ apply Hd' in Htg. congruence. }
      destruct (Hcl' _ _ _ Htg Hm') as (_ & _ & Hr'). apply Hr' in Hp. lia. }
    split_and!.
    + by eapply extends_trans.
    + intros s2. rewrite elem_of_app, list_elem_of_singleton. intros Hn.
      rewrite lookup_insert_ne by (intros ->; tauto). apply Hnew. tauto.
    + intros s2. rewrite elem_of_app, list_elem_of_singleton.
      destruct (decide (s2 = s)) as [->|Hne].
      * intros _. exists tgtKV, m'. rewrite lookup_insert_eq. split_and!; [done..|].
        eapply cloned_map_extends; [done|apply extends_refl|done].
      * intros [Hin|?]; [|done]. destruct (Hold _ Hin) as (mo & mo' & ? & ? & ?).
        exists mo, mo'. rewrite lookup_insert_ne by done. split_and!; [done..|].
        eapply cloned_map_extends; [done..|lia].
    + intros s1 s2 m1 m2 t t' k k' a.
      rewrite !elem_of_app, !list_elem_of_singleton.
      destruct (decide (s1 = s)) as [->|Hne1]; destruct (decide (s2 = s)) as [->|Hne2];
        [done| | |].
      * rewrite lookup_insert_eq, lookup_insert_ne by done.
        intros _ [Hin|?] [= <-] Hcp Hm1 Hm2 Hp1 Hp2; [|done]. exfalso. by eapply Hfresh.
      * rewrite lookup_insert_eq, lookup_insert_ne by done.
        intros [Hin|?] _ Hcp [= <-] Hm1 Hm2 Hp1 Hp2; [|done]. exfalso. by eapply Hfresh.
      * rewrite !lookup_insert_ne by done.
        intros [?|?] [?|?]; [|done..]. by apply Hinj.
  - intros ks nc σ' Hperm (He & Hnew & Hold & Hinj). apply HΦ; [done|].
    assert (∀ s, s ∈ ks ↔ is_Some (c !! s)) as Hks.
    { intros s. rewrite Hperm, list_elem_of_fmap. split.
      - intros ([s' m] & -> & Hin%elem_of_map_to_list). by eexists.
      - intros [m Hm]. exists (s, m). split; [done|]. by apply elem_of_map_to_list. }
    split_and!.
    + intros s Hs. apply Hnew. rewrite Hks, Hs. by intros [].
    + intros s m Hm. destruct (Hold s) as (mo & mo' & Hc & ? & ?); [by apply Hks|].
      rewrite Hm in Hc. injection Hc as <-. by exists mo'.
    + intros s s' m1 m2 t t' k k' a Hs Hs'. apply Hinj; by apply Hks.
Qed.

End clone.

(** ** The redactor *)

Section redact.
Context `{Imports} `{Registry}.










Lemma elem_of_range_keys {V} (m : gmap string V) ks k :
  ks ≡ₚ (map_to_list m).*1 → k ∈ ks ↔ is_Some (m !! k).
Proof.
  intros Hperm. rewrite Hperm, list_elem_of_fmap. split.
  - intros ([k' v] & -> & Hin%elem_of_map_to_list). by eexists.
  - intros [v Hv]. exists (k, v). split; [done|]. by apply elem_of_map_to_list.
Qed.





Lemma valid_ptr σ kvs a : valid σ kvs → ptr kvs = Some a → a < length (heap σ).
Proof. unfold valid. intros Hv Hp. rewrite Hp in Hv. tauto. Qed.

(** A run that satisfies a postcondition on results ends in a result. *)
Lemma wp_done {A} (m : M A) σ (Q : A → state → Prop) :
  wp m σ (λ r σ', ∃ a, r = Done a ∧ Q a σ') → ∃ a σ', m σ = (Done a, σ') ∧ Q a σ'.
Proof.
  unfold wp. destruct (m σ) as [r σ']. simpl. intros (a & -> & HQ). by exists a, σ'.
Qed.









End redact.

(** ** The redactor on the fixture *)

Section redact_example.
#[local] Instance redact_imports : Imports := Ref.imports (λ _, false).
#[local] Instance redact_registry : Registry := Fixture.registry.

Lemma valid_table_secret : valid_table Fixture.σ_secret DefaultKVS.
Proof.
  intros subSys kvs Hk. unfold DefaultKVS in Hk. simpl in Hk.
  repeat (apply lookup_insert_Some in Hk as [[_ <-]|[_ Hk]];
          [unfold valid, cap; simpl; lia|]).
  apply lookup_singleton_Some in Hk as [_ <-]. unfold valid, cap. simpl. lia.
Qed.

Lemma entry_secret subSys tgt kvs :
  entry Fixture.c_secret subSys tgt = Some kvs →
  subSys = NotifyWebhookSubSys ∧ tgt = Default ∧ kvs = mkKVS (Some 4) 3.
Proof.
  unfold entry, Fixture.c_secret.
  destruct (decide (subSys = NotifyWebhookSubSys)) as [->|Hne].
  - rewrite lookup_singleton_eq. simpl. by intros [<- <-]%lookup_singleton_Some.
  - rewrite lookup_singleton_ne by done. discriminate.
Qed.

Lemma valid_store_secret : valid_store Fixture.σ_secret Fixture.c_secret.
Proof.
  intros subSys tgt kvs (_ & _ & ->)%entry_secret. unfold valid, cap. simpl. lia.
Qed.






(** The two shape hypotheses are used.  A store with the target [x] of
    the credentials subsystem has more than the default target under a
    single-target subsystem: [RedactSensitiveInfo] deletes the default
    target alone, so the returned store has the target [x], the secret
    key redacted and the access key as it was. *)
Lemma RedactSensitiveInfo_keeps_credentials_target :
  match RedactSensitiveInfo Fixture.c_cred Fixture.σ_secret with
  | (Done nc, σ') =>
      match entry nc CredentialsSubSys "x" with
      | Some kvs => elems σ' kvs = [mkKV "access_key" "AK"; mkKV "secret_key" "*redacted*"]
      | None => False
      end
  | _ => False
  end.
Proof. vm_compute. reflexivity. Qed.

(** A store that lacks the map of the credentials subsystem and has a
    slice on the array of its default KVS: [Clone] takes the entry of the
    missing subsystem from [New], which is the default KVS of the
    registry itself, and the redactor writes the marker into that array;
    the slice of the store and the default KVS of the registry show it
    afterwards. *)
Lemma RedactSensitiveInfo_shared_default_rewritten :
  match RedactSensitiveInfo Fixture.c_alias Fixture.σ0 with
  | (Done nc, σ') =>
      elems Fixture.σ0 (mkKVS (Some 3) 2)
        = [mkKV "access_key" "minioadmin"; mkKV "secret_key" "minioadmin"] ∧
      elems σ' (mkKVS (Some 3) 2)
        = [mkKV "access_key" "minioadmin"; mkKV "secret_key" "*redacted*"] ∧
      elems σ' (DefaultKVS !!! CredentialsSubSys)
        = [mkKV "access_key" "minioadmin"; mkKV "secret_key" "*redacted*"]
  | _ => False
  end.
Proof. vm_compute. split_and!; reflexivity. Qed.

End redact_example.

(** ** Delete, and what Set and Clone keep *)

Section kvs_more.
Context `{Imports}.

Lemma Lookup_list_delete_ne l key i k :
  k ≠ key → find_key l key = Some i → Lookup_list (delete i l) k = Lookup_list l k.
Proof.
  intros Hne. revert i. induction l as [|x l IH]; intros i; simpl; [done|].
  destruct (decide (Key x = key)) as [Hx|Hx].
  - intros [= <-]. simpl. rewrite decide_False by congruence. done.
  - destruct (find_key l key) as [j|] eqn:E; simpl; [|done]. intros [= <-]. simpl.
    destruct (decide (Key x = k)); [done|]. by apply IH.
Qed.

Lemma Lookup_list_absent l key : key ∉ Key <$> l → Lookup_list l key = ("", false).
Proof.
  induction l as [|x l IH]; simpl; [done|]. intros Hn.
  apply not_elem_of_cons in Hn as [Hx Hl]. rewrite decide_False by done. by apply IH.
Qed.

Lemma find_key_first l key i : find_key l key = Some i → key ∉ Key <$> take i l.
Proof.
  revert i. induction l as [|x l IH]; intros i; simpl; [done|].
  destruct (decide (Key x = key)) as [Hx|Hx].
  - intros [= <-]. simpl. apply not_elem_of_nil.
  - destruct (find_key l key) as [j|] eqn:E; simpl; [|done]. intros [= <-]. simpl.
    apply not_elem_of_cons. split; [done|]. by apply IH.
Qed.

Lemma find_key_at l key i : find_key l key = Some i → Key <$> l !! i = Some key.
Proof.
  revert i. induction l as [|x l IH]; intros i; simpl; [done|].
  destruct (decide (Key x = key)) as [Hx|Hx].
  - intros [= <-]. simpl. by rewrite Hx.
  - destruct (find_key l key) as [j|] eqn:E; simpl; [|done]. intros [= <-]. simpl.
    by apply IH.
Qed.

Lemma delete_take_drop_kv (l : list KV) i : delete i l = take i l ++ drop (S i) l.
Proof.
  revert i. induction l as [|x l IH]; intros [|i]; simpl; [done..|]. by rewrite IH.
Qed.

Lemma NoDup_delete_absent l key i :
  NoDup (Key <$> l) → find_key l key = Some i → key ∉ Key <$> delete i l.
Proof.
  intros Hnd Hi. pose proof (find_key_at _ _ _ Hi) as Hat.
  pose proof (find_key_lt _ _ _ Hi) as Hlt.
  rewrite delete_take_drop_kv, fmap_app, fmap_take, fmap_drop.
  rewrite <- (take_drop_middle (Key <$> l) i key) in Hnd by (by rewrite list_lookup_fmap in *).
  apply NoDup_app in Hnd as (_ & Hd & Hnd). apply NoDup_cons in Hnd as [Hn _].
  intros [Hin|Hin]%elem_of_app; [|done].
  apply (Hd _ Hin). apply elem_of_cons. by left.
Qed.

(** The array of a valid slice after [copy_at]. *)
Lemma array_copy_at σ kvs i xs :
  array (copy_at (ptr kvs) i xs σ) (ptr kvs)
  = match ptr kvs with
    | Some a =>
        match heap σ !! a with
        | Some arr => take i arr ++ xs ++ drop (i + length xs) arr
        | None => []
        end
    | None => []
    end.
Proof.
  unfold array, copy_at. destruct (ptr kvs) as [a|]; [|done]. simpl.
  rewrite list_lookup_alter_eq. by destruct (heap σ !! a).
Qed.

Lemma shift_down (arr : list KV) n i :
  i < n → n ≤ length arr →
  take i arr ++ drop (S i) (take n arr) ++ drop (i + length (drop (S i) (take n arr))) arr
  = delete i (take n arr) ++ drop (n - 1) arr.
Proof.
  intros Hi Hn. rewrite length_drop, length_take_le by done.
  replace (i + (n - S i)) with (n - 1) by lia.
  rewrite delete_take_drop_kv, take_take, Nat.min_l by lia. by rewrite <- app_assoc.
Qed.

(** What [Delete] leaves in the array when the key is found. *)
Lemma Delete_found σ kvs key i :
  valid σ kvs → find_key (elems σ kvs) key = Some i →
  let σ' := copy_at (ptr kvs) i (drop (S i) (elems σ kvs)) σ in
  array σ' (ptr kvs) = delete i (elems σ kvs) ++ drop (len kvs - 1) (array σ (ptr kvs)) ∧
  length (delete i (elems σ kvs)) = len kvs - 1 ∧
  len kvs ≤ length (array σ (ptr kvs)) ∧ 0 < len kvs ∧
  length (heap σ') = length (heap σ).
Proof.
  intros Hv Hi σ'. pose proof (find_key_lt _ _ _ Hi) as Hlt.
  pose proof (elems_length _ _ Hv) as Hl. rewrite Hl in Hlt.
  assert (len kvs ≤ length (array σ (ptr kvs))) as Hcap.
  { unfold valid, cap in Hv. destruct (ptr kvs); [tauto|lia]. }
  split_and!; [| |done|lia|].
  - unfold σ'. rewrite array_copy_at. unfold elems in *. unfold array in *.
    destruct (ptr kvs) as [a|]; [|simpl in Hcap; lia].
    destruct (heap σ !! a) as [arr|]; simpl in *; [|lia].
    by apply shift_down.
  - rewrite length_delete, Hl; [done|]. apply lookup_lt_is_Some. lia.
  - unfold σ', copy_at. destruct (ptr kvs); [|done]. simpl. apply length_alter.
Qed.

(** X1.  On a valid KVS, [Delete(key)] returns without allocating.  A key
    that does not occur leaves the slice and the heap as they are.  A key
    that occurs loses its first pair and no other: the new slice shows the
    other pairs in their order, so the lookup of every other key is what
    it was, and when no key occurs twice the deleted key is not found
    any more. *)
Theorem Delete_first_match σ kvs key :
  valid σ kvs →
  ∃ kvs' σ', Delete kvs key σ = (Done kvs', σ') ∧
    valid σ' kvs' ∧ length (heap σ') = length (heap σ) ∧
    (key ∉ Key <$> elems σ kvs → kvs' = kvs ∧ σ' = σ) ∧
    (∀ i, find_key (elems σ kvs) key = Some i →
       elems σ' kvs' = delete i (elems σ kvs)) ∧
    (∀ k, k ≠ key → Lookup σ' kvs' k = Lookup σ kvs k) ∧
    (NoDup (Key <$> elems σ kvs) → Lookup σ' kvs' key = ("", false)).
Proof.
  intros Hv. unfold Delete. destruct (find_key (elems σ kvs) key) as [i|] eqn:Hi.
  - destruct (Delete_found σ kvs key i Hv Hi) as (Harr & Hlen & Hcap & Hpos & Hheap).
    set (σ' := copy_at _ _ _ _) in *.
    assert (elems σ' (mkKVS (ptr kvs) (len kvs - 1)) = delete i (elems σ kvs)) as He.
    { unfold elems at 1. simpl. rewrite Harr. by apply take_app_length'. }
    eexists _, _. split; [reflexivity|]. split_and!.
    + unfold valid, cap in *. simpl. rewrite Harr, Hheap.
      destruct (ptr kvs); [|lia]. split; [tauto|]. rewrite length_app, Hlen. lia.
    + done.
    + intros Hn. apply find_key_None in Hn. congruence.
    + by intros ? [= <-].
    + intros k Hk. unfold Lookup. rewrite He. by apply (Lookup_list_delete_ne _ key).
    + intros Hnd. unfold Lookup. rewrite He. apply Lookup_list_absent.
      by apply NoDup_delete_absent.
  - exists kvs, σ. split_and!; [done..| | |].
    + intros i. discriminate.
    + done.
    + intros _. apply Lookup_list_absent. by apply find_key_None.
Qed.

(** X2.  [Delete] works in the array of the slice: a header that was over
    the same array with the same length shows, after a key was found and
    deleted through the other header, the remaining pairs followed by the
    last pair once more. *)
Theorem Delete_old_header σ kvs key i :
  valid σ kvs → find_key (elems σ kvs) key = Some i →
  ∃ kvs' σ', Delete kvs key σ = (Done kvs', σ') ∧
    elems σ' kvs = delete i (elems σ kvs) ++ drop (len kvs - 1) (elems σ kvs) ∧
    length (elems σ' kvs) = len kvs.
Proof.
  intros Hv Hi. unfold Delete. rewrite Hi.
  destruct (Delete_found σ kvs key i Hv Hi) as (Harr & Hlen & Hcap & Hpos & Hheap).
  set (σ' := copy_at _ _ _ _) in *.
  eexists _, _. split; [reflexivity|].
  assert (elems σ' kvs = delete i (elems σ kvs) ++ drop (len kvs - 1) (elems σ kvs)) as He.
  { unfold elems at 1. rewrite Harr.
    replace (len kvs) with (length (delete i (elems σ kvs)) + 1) at 1 by lia.
    rewrite take_app_add. f_equal. unfold elems.
    rewrite skipn_firstn_comm. f_equal. lia. }
  split; [done|]. rewrite He, length_app, Hlen, length_drop, elems_length by done. lia.
Qed.

Lemma kv_set_cons x l key value :
  kv_set (x :: l) key value =
    if decide (Key x = key) then mkKV key value :: l else x :: kv_set l key value.
Proof.
  unfold kv_set. simpl. destruct (decide (Key x = key)); [done|].
  by destruct (find_key l key).
Qed.

Lemma Lookup_list_kv_set_ne l key value k :
  k ≠ key → Lookup_list (kv_set l key value) k = Lookup_list l k.
Proof.
  intros Hne. induction l as [|x l IH].
  - unfold kv_set. simpl. rewrite decide_False by done. done.
  - rewrite kv_set_cons. destruct (decide (Key x = key)) as [Hx|Hx]; simpl.
    + rewrite !decide_False by congruence. done.
    + destruct (decide (Key x = k)); [done|]. apply IH.
Qed.

Lemma keys_kv_set l key value :
  Key <$> kv_set l key value =
    if decide (key ∈ Key <$> l) then Key <$> l else (Key <$> l) ++ [key].
Proof.
  induction l as [|x l IH].
  - destruct (decide (key ∈ Key <$> [])) as [Hin|_]; [by apply elem_of_nil in Hin|done].
  - rewrite kv_set_cons. rewrite fmap_cons.
    destruct (decide (Key x = key)) as [Hx|Hx]; simpl.
    + rewrite decide_True by (apply elem_of_cons; by left). by rewrite Hx.
    + change (list_fmap KV string Key (kv_set l key value)) with (Key <$> kv_set l key value).
      rewrite IH. destruct (decide (key ∈ Key <$> l)) as [Hin|Hin].
      * rewrite decide_True by (apply elem_of_cons; by right). done.
      * rewrite decide_False; [done|]. intros [?|?]%elem_of_cons; congruence.
Qed.

(** X3.  On a valid KVS, [Set(key, value)] keeps the keys where they are:
    a key that occurs stays at its place and no pair is added, a key that
    does not occur is added at the end.  So a KVS without a repeated key
    stays without one, and the lookup of every other key is what it
    was. *)
Theorem Set_keeps_keys σ kvs key value :
  valid σ kvs →
  ∃ kvs' σ', Set_ kvs key value σ = (Done kvs', σ') ∧
    Key <$> elems σ' kvs' =
      (if decide (key ∈ Key <$> elems σ kvs) then Key <$> elems σ kvs
       else (Key <$> elems σ kvs) ++ [key]) ∧
    (NoDup (Key <$> elems σ kvs) → NoDup (Key <$> elems σ' kvs')) ∧
    (∀ k, k ≠ key → Lookup σ' kvs' k = Lookup σ kvs k).
Proof.
  intros Hv. destruct (Set_spec σ kvs key value Hv) as (kvs' & σ' & E & _ & He & _).
  exists kvs', σ'. split; [done|]. rewrite He, keys_kv_set. split_and!; [done| |].
  - intros Hnd. destruct (decide (key ∈ Key <$> elems σ kvs)) as [|Hn]; [done|].
    apply NoDup_app. split_and!; [done| |apply NoDup_singleton].
    intros k Hk ->%list_elem_of_singleton. done.
  - intros k Hk. unfold Lookup. rewrite He. by apply Lookup_list_kv_set_ne.
Qed.

(** X4.  [Clone] gives a slice of its own: on a valid KVS the clone shows
    the pairs of the original, and a [Set] through the clone leaves what
    the original shows as it was, as a [Set] through the original leaves
    what the clone shows. *)
Theorem Clone_then_Set_independent σ kvs key value :
  valid σ kvs →
  ∃ k1 σ1, Clone_KVS kvs σ = (Done k1, σ1) ∧
    valid σ1 k1 ∧ elems σ1 k1 = elems σ kvs ∧ elems σ1 kvs = elems σ kvs ∧
    (∃ k2 σ2, Set_ k1 key value σ1 = (Done k2, σ2) ∧
       elems σ2 k2 = kv_set (elems σ kvs) key value ∧
       elems σ2 kvs = elems σ kvs) ∧
    (∃ k3 σ3, Set_ kvs key value σ1 = (Done k3, σ3) ∧
       elems σ3 k3 = kv_set (elems σ kvs) key value ∧
       elems σ3 k1 = elems σ kvs).
Proof.
  intros Hv. pose proof (elems_length _ _ Hv) as Hl.
  pose proof (valid_alloc_new (elems σ kvs) σ (len kvs)) as Hv1.
  pose proof (elems_alloc_new (elems σ kvs) σ (len kvs)) as He1.
  pose proof (valid_alloc (elems σ kvs) σ kvs Hv) as Hvk.
  unfold Clone_KVS. simpl in *.
  set (σ1 := mkState (heap σ ++ [elems σ kvs]) (sched σ)) in *.
  set (k1 := mkKVS (Some (length (heap σ))) (len kvs)) in *.
  assert (elems σ1 k1 = elems σ kvs) as Hk1.
  { rewrite He1 by lia. rewrite <- Hl. apply firstn_all. }
  assert (elems σ1 kvs = elems σ kvs) as Hk.
  { unfold elems, array. destruct (ptr kvs) as [a|] eqn:Hp; [|done].
    unfold valid in Hv. rewrite Hp in Hv. simpl. by rewrite lookup_app_l by tauto. }
  assert (valid σ1 k1) as Hvk1 by (apply Hv1; lia).
  assert (∀ a, ptr kvs = Some a → a < length (heap σ)) as Hlt.
  { intros a Hp. unfold valid in Hv. rewrite Hp in Hv. tauto. }
  exists k1, σ1. split_and!; [done..| |].
  - destruct (Set_spec σ1 k1 key value Hvk1) as (k2 & σ2 & E & _ & He & _ & Hfr & _).
    exists k2, σ2. split_and!; [done|by rewrite He, Hk1|]. rewrite <- Hk.
    unfold elems, array. destruct (ptr kvs) as [a|] eqn:Hp; [|done].
    rewrite Hfr; [done| |].
    + simpl. intros [= <-]. specialize (Hlt _ eq_refl). lia.
    + simpl. rewrite length_app. specialize (Hlt _ eq_refl). lia.
  - destruct (Set_spec σ1 kvs key value Hvk) as (k3 & σ3 & E & _ & He & _ & Hfr & _).
    exists k3, σ3. split_and!; [done|by rewrite He, Hk|]. rewrite <- Hk1.
    unfold elems, array. simpl. rewrite Hfr; [done| |].
    + intros Hp. specialize (Hlt _ Hp). lia.
    + simpl. rewrite length_app. simpl. lia.
Qed.

End kvs_more.

Section kvs_more_example.
#[local] Instance kvs_more_imports : Imports := Ref.imports (λ _, false).

(** Three pairs in an array of four cells; [region] is the second. *)
Lemma Delete_first_match_witness :
  let σ := mkState [[mkKV "name" "a"; mkKV "region" "b"; mkKV "comment" "c"; zeroKV]] 0 in
  let kvs := mkKVS (Some 0) 3 in
  ∃ kvs' σ', Delete kvs "region" σ = (Done kvs', σ') ∧
    elems σ' kvs' = [mkKV "name" "a"; mkKV "comment" "c"] ∧
    Lookup σ' kvs' "region" = ("", false) ∧
    Lookup σ' kvs' "comment" = ("c", true).
Proof.
  intros σ kvs.
  assert (valid σ kvs) as Hv by (unfold valid, cap; simpl; lia).
  destruct (Delete_first_match σ kvs "region" Hv)
    as (kvs' & σ' & E & _ & _ & _ & Hd & Hk & Hn).
  exists kvs', σ'. split_and!; [exact E| | |].
  - apply (Hd 1). reflexivity.
  - apply Hn. refine (bool_decide_unpack _ _). vm_compute. exact I.
  - rewrite Hk by discriminate. reflexivity.
Defined.

Lemma Delete_old_header_witness :
  let σ := mkState [[mkKV "name" "a"; mkKV "region" "b"; mkKV "comment" "c"; zeroKV]] 0 in
  let kvs := mkKVS (Some 0) 3 in
  ∃ kvs' σ', Delete kvs "region" σ = (Done kvs', σ') ∧
    elems σ' kvs = [mkKV "name" "a"; mkKV "comment" "c"; mkKV "comment" "c"].
Proof.
  intros σ kvs.
  assert (valid σ kvs) as Hv by (unfold valid, cap; simpl; lia).
  destruct (Delete_old_header σ kvs "region" 1 Hv eq_refl) as (kvs' & σ' & E & He & _).
  exists kvs', σ'. split; [exact E|]. rewrite He. reflexivity.
Defined.

Lemma Set_keeps_keys_witness :
  let σ := mkState [[mkKV "name" "a"; mkKV "region" "b"]] 0 in
  let kvs := mkKVS (Some 0) 2 in
  ∃ kvs' σ', Set_ kvs "comment" "c" σ = (Done kvs', σ') ∧
    Key <$> elems σ' kvs' = ["name"; "region"; "comment"] ∧
    Lookup σ' kvs' "region" = ("b", true).
Proof.
  intros σ kvs.
  assert (valid σ kvs) as Hv by (unfold valid, cap; simpl; lia).
  destruct (Set_keeps_keys σ kvs "comment" "c" Hv) as (kvs' & σ' & E & Hk & _ & Hl).
  exists kvs', σ'. split_and!; [exact E| |].
  - rewrite Hk. reflexivity.
  - rewrite Hl by discriminate. reflexivity.
Defined.

Lemma Clone_then_Set_independent_witness :
  let σ := mkState [[mkKV "name" "a"; mkKV "region" "b"; zeroKV]] 0 in
  let kvs := mkKVS (Some 0) 2 in
  ∃ k1 σ1 k2 σ2, Clone_KVS kvs σ = (Done k1, σ1) ∧
    Set_ k1 "region" "c" σ1 = (Done k2, σ2) ∧
    elems σ2 k2 = [mkKV "name" "a"; mkKV "region" "c"] ∧
    elems σ2 kvs = [mkKV "name" "a"; mkKV "region" "b"].
Proof.
  intros σ kvs.
  assert (valid σ kvs) as Hv by (unfold valid, cap; simpl; lia).
  destruct (Clone_then_Set_independent σ kvs "region" "c" Hv)
    as (k1 & σ1 & E1 & _ & _ & _ & (k2 & σ2 & E2 & He2 & Hk) & _).
  exists k1, σ1, k2, σ2. split_and!; [exact E1|exact E2| |].
  - rewrite He2. reflexivity.
  - rewrite Hk. reflexivity.
Defined.

End kvs_more_example.

(** ** Directives and the shape of the store *)

Section shape.
Context `{Imports} `{Registry}.

Lemma SplitN2_length s sep : length (SplitN2 s sep) = 1 ∨ length (SplitN2 s sep) = 2.
Proof. unfold SplitN2. destruct (String.index 0 sep s); [by right|by left]. Qed.

(** X5.  A directive [GetSubSys] accepts is not empty and names a
    registered subsystem; its inputs are the directive cut at the first
    space.  Without a space the target is the default one, whatever
    follows the subsystem in the token.  With a space the target is the
    part of the first token after the first separator, which is accepted
    for a subsystem that is not single-target only, or the default target
    when the token has no separator. *)
Theorem GetSubSys_accepted s subSys inputs tgt :
  GetSubSys s = (subSys, inputs, tgt, None) →
  s ≠ "" ∧ subSys ∈ SubSystems ∧ inputs = SplitN2 s KvSpaceSeparator ∧
  hd "" (SplitN2 (hd "" inputs) SubSystemSeparator) = subSys ∧
  (length inputs = 1 ∧ tgt = Default ∨
   length inputs = 2 ∧
     (SplitN2 (hd "" inputs) SubSystemSeparator = [subSys] ∧ tgt = Default ∨
      SplitN2 (hd "" inputs) SubSystemSeparator = [subSys; tgt] ∧
      subSys ∉ SubSystemsSingleTargets)).
Proof.
  unfold GetSubSys. destruct (decide (s = "")) as [|Hs]; [discriminate|].
  remember (SplitN2 s KvSpaceSeparator) as inputs0 eqn:Hin.
  pose proof (SplitN2_length (hd "" inputs0) SubSystemSeparator) as Hlen.
  remember (SplitN2 (hd "" inputs0) SubSystemSeparator) as ssv eqn:Hssv.
  destruct (Contains SubSystems (hd "" ssv)) eqn:Hc; simpl; [|discriminate].
  apply Contains_true in Hc.
  destruct (decide (length inputs0 = 1)) as [H1|H1].
  { intros [= <- <- <-].
    split_and!; [exact Hs|exact Hc|reflexivity|rewrite <- Hssv; reflexivity|].
    left. split; [exact H1|reflexivity]. }
  assert (length inputs0 = 2) as H2.
  { rewrite Hin in *. destruct (SplitN2_length s KvSpaceSeparator); [contradiction|assumption]. }
  destruct (Contains SubSystemsSingleTargets (hd "" ssv) && bool_decide (length ssv = 2))
    eqn:Hst; [discriminate|].
  destruct ssv as [|a [|b [|x rest]]]; simpl in Hlen; [lia| | |lia].
  - intros [= <- <- <-].
    split_and!; [exact Hs|exact Hc|reflexivity|rewrite <- Hssv; reflexivity|].
    right. split; [exact H2|]. left. rewrite <- Hssv. split; reflexivity.
  - intros [= <- <- <-].
    split_and!; [exact Hs|exact Hc|reflexivity|rewrite <- Hssv; reflexivity|].
    right. split; [exact H2|]. right. split; [rewrite <- Hssv; reflexivity|].
    simpl in Hst. rewrite Bool.andb_true_r in Hst. apply Contains_false. exact Hst.
Qed.

Lemma GetSubSys_single s subSys inputs tgt :
  GetSubSys s = (subSys, inputs, tgt, None) →
  subSys ∈ SubSystems ∧ inputs = SplitN2 s KvSpaceSeparator ∧
  (tgt ≠ Default → subSys ∉ SubSystemsSingleTargets).
Proof.
  unfold GetSubSys. destruct (decide (s = "")) as [|Hs]; [discriminate|].
  remember (SplitN2 s KvSpaceSeparator) as inputs0 eqn:Hin.
  remember (SplitN2 (hd "" inputs0) SubSystemSeparator) as ssv eqn:Hssv.
  destruct (Contains SubSystems (hd "" ssv)) eqn:Hc; simpl; [|discriminate].
  apply Contains_true in Hc.
  destruct (decide (length inputs0 = 1)) as [H1|H1].
  { intros [= <- <- <-]. split_and!; [exact Hc|reflexivity|]. intros Hn. by destruct Hn. }
  destruct (Contains SubSystemsSingleTargets (hd "" ssv) && bool_decide (length ssv = 2))
    eqn:Hst; [discriminate|].
  destruct ssv as [|a [|b [|x rest]]]; intros [= <- <- <-];
    (split_and!; [exact Hc|reflexivity|]);
    try (intros Hn; exfalso; apply Hn; reflexivity).
  intros _. simpl in Hst. rewrite Bool.andb_true_r in Hst. apply Contains_false. exact Hst.
Qed.

(** The outcomes of [SetKVS] on a well-formed store and table. *)
Lemma SetKVS_outcome s defaultKVS c σ r σ' :
  valid_store σ c → valid_table σ defaultKVS → SetKVS s defaultKVS c σ = (r, σ') →
  frame (length (heap σ)) σ σ' ∧
  ((∃ e, r = Done (c, (false, Some e))) ∨
   (∃ subSys inputs tgt, GetSubSys s = (subSys, inputs, tgt, None) ∧
      ((inputs !! 1 = None ∧ r = Panic "runtime error: index out of range") ∨
       (is_Some (inputs !! 1) ∧ c !! subSys = None ∧
        r = Panic "assignment to entry in nil map") ∨
       (∃ m kvs', c !! subSys = Some m ∧
          r = Done (<[subSys := <[tgt := kvs']> m]> c,
                    (Contains SubSystemsDynamic subSys, None)) ∧
          owned (length (heap σ)) kvs' ∧ valid σ' kvs')))).
Proof.
  intros Hvc Hvt Hrun.
  pose proof (wp_run _ _ _ _ _ (SetKVS_spec s defaultKVS c σ Hvc Hvt) Hrun) as (Hf & _ & Hr).
  split; [exact Hf|].
  destruct (GetSubSys s) as [[[subSys inputs] tgt] err].
  destruct err as [e|]; [left; by exists e|].
  destruct (inputs !! 1) as [input1|] eqn:Hi.
  2:{ right. exists subSys, inputs, tgt. split; [reflexivity|]. left. by split. }
  simpl in Hr. destruct (decide _); [left; by eexists|].
  destruct (directive_list _ _) as [[l er] perr].
  destruct perr as [e|]; [left; by exists e|].
  destruct (check_required _ _ _ _) as [e|]; [left; by exists e|].
  right. exists subSys, inputs, tgt. split; [reflexivity|]. right.
  destruct (c !! subSys) as [m|] eqn:Hm.
  - right. destruct Hr as (kvs' & Hr & Ho & Hv' & _). exists m, kvs'. by split_and!.
  - left. split_and!; [by eexists|reflexivity|exact Hr].
Qed.

Lemma entry_insert_insert (c : Config) subSys tgt kvs m s' t' :
  c !! subSys = Some m →
  entry (<[subSys := <[tgt := kvs]> m]> c) s' t' =
    if decide ((s', t') = (subSys, tgt)) then Some kvs else entry c s' t'.
Proof.
  intros Hm. unfold entry. destruct (decide (s' = subSys)) as [->|Hs].
  - rewrite lookup_insert_eq, Hm. simpl. destruct (decide (t' = tgt)) as [->|Ht].
    + rewrite lookup_insert_eq. by rewrite decide_True.
    + rewrite lookup_insert_ne by done. rewrite decide_False by congruence. done.
  - rewrite lookup_insert_ne by done. rewrite decide_False by congruence. done.
Qed.

(** X6.  Whatever [SetKVS] returns on a well-formed store, the store it
    returns is well formed in the new state, and so is the table of
    defaults; the store has the subsystems it had and every target it
    had; a store with a map for every registered subsystem keeps one, and
    a store whose single-target subsystems have the default target alone
    stays so. *)
Theorem SetKVS_keeps_shape s defaultKVS c σ c' dynamic err σ' :
  valid_store σ c → valid_table σ defaultKVS →
  SetKVS s defaultKVS c σ = (Done (c', (dynamic, err)), σ') →
  valid_store σ' c' ∧ valid_table σ' defaultKVS ∧
  dom c' = dom c ∧
  (∀ s' t', is_Some (entry c s' t') → is_Some (entry c' s' t')) ∧
  (complete c → complete c') ∧
  (single_targets c → single_targets c').
Proof.
  intros Hvc Hvt Hrun.
  destruct (SetKVS_outcome _ _ _ _ _ _ Hvc Hvt Hrun) as [Hf Hcases].
  assert (valid_store σ' c) as Hvc'.
  { intros s' t' kvs Hk. eapply frame_valid; [exact Hf| |by eapply Hvc].
    apply valid_below. by eapply Hvc. }
  assert (valid_table σ' defaultKVS) as Hvt'.
  { intros s' kvs Hk. eapply frame_valid; [exact Hf| |by eapply Hvt].
    apply valid_below. by eapply Hvt. }
  destruct Hcases as [[e [= -> _ _]]|(subSys & inputs & tgt & Hsub & Hcases)].
  { split_and!; [exact Hvc'|exact Hvt'|reflexivity|tauto..]. }
  destruct Hcases as [[_ Hr]|[(_ & _ & Hr)|(m & kvs' & Hm & Hr & Ho & Hv')]];
    [discriminate Hr..|].
  injection Hr as -> _ _.
  destruct (GetSubSys_single _ _ _ _ Hsub) as (Hreg & _ & Hsingle).
  split_and!.
  - intros s' t' kvs. rewrite (entry_insert_insert _ _ _ _ _ _ _ Hm).
    destruct (decide _); [by intros [= <-]|]. apply Hvc'.
  - exact Hvt'.
  - apply set_eq. intros s'. rewrite !elem_of_dom.
    destruct (decide (s' = subSys)) as [->|Hne].
    + rewrite lookup_insert_eq, Hm. split; intros _; by eexists.
    + by rewrite lookup_insert_ne.
  - intros s' t'. rewrite (entry_insert_insert _ _ _ _ _ _ _ Hm).
    destruct (decide _); [by eexists|tauto].
  - intros Hc s' Hs'. destruct (decide (s' = subSys)) as [->|Hne].
    + rewrite lookup_insert_eq. by eexists.
    + rewrite lookup_insert_ne by done. by apply Hc.
  - intros Hst s' t' Hs'. rewrite (entry_insert_insert _ _ _ _ _ _ _ Hm).
    destruct (decide _) as [[= -> ->]|]; [|by apply Hst].
    intros _. destruct (decide (tgt = Default)) as [|Hne]; [done|].
    by destruct (Hsingle Hne).
Qed.

(** X7.  On a well-formed store that has a map for every registered
    subsystem, [SetKVS] with a directive that has a space returns: it
    does not panic. *)
Theorem SetKVS_returns s defaultKVS c σ a b :
  valid_store σ c → valid_table σ defaultKVS → complete c →
  SplitN2 s KvSpaceSeparator = [a; b] →
  ∃ c' dynamic err σ', SetKVS s defaultKVS c σ = (Done (c', (dynamic, err)), σ').
Proof.
  intros Hvc Hvt Hc Hsp.
  destruct (SetKVS s defaultKVS c σ) as [r σ'] eqn:Hrun.
  destruct (SetKVS_outcome _ _ _ _ _ _ Hvc Hvt Hrun) as [_ Hcases].
  destruct Hcases as [[e ->]|(subSys & inputs & tgt & Hsub & Hcases)]; [by eauto|].
  destruct (GetSubSys_single _ _ _ _ Hsub) as (Hreg & Hin & _).
  rewrite Hsp in Hin. subst inputs.
  destruct Hcases as [[Hn _]|[(_ & Hn & _)|(m & kvs' & _ & -> & _)]].
  - discriminate Hn.
  - destruct (Hc _ Hreg) as [m Hm]. congruence.
  - by eauto.
Qed.

(** X8.  [New] has the registered subsystems and no other, each with the
    default target alone, and the slice under it is the default KVS of the
    registry itself, not a copy.  So a new store has a map for every
    registered subsystem and one target per single-target subsystem. *)
Theorem New_entries :
  (∀ s t kvs, entry New s t = Some kvs ↔
     s ∈ SubSystems ∧ t = Default ∧ kvs = DefaultKVS !!! s) ∧
  complete New ∧ single_targets New.
Proof.
  assert (∀ s t kvs, entry New s t = Some kvs ↔
            s ∈ SubSystems ∧ t = Default ∧ kvs = DefaultKVS !!! s) as Hent.
  { intros s t kvs. unfold entry. rewrite lookup_New.
    destruct (decide (s ∈ SubSystems)) as [Hs|Hs]; simpl.
    - rewrite lookup_singleton_Some. split.
      + intros [<- <-]. by split_and!.
      + intros (_ & -> & ->). by split.
    - split; [discriminate|]. intros [Hs' _]. contradiction. }
  split_and!; [exact Hent| |].
  - intros s Hs. rewrite lookup_New. rewrite decide_True by exact Hs. by eexists.
  - intros s t _ [kvs Hk]. apply Hent in Hk. tauto.
Qed.

Lemma entry_delete_subsys (c : Config) subSys s' t' kvs :
  entry (delete subSys c) s' t' = Some kvs → entry c s' t' = Some kvs.
Proof.
  unfold entry. destruct (decide (s' = subSys)) as [->|Hne].
  - rewrite lookup_delete_eq. discriminate.
  - by rewrite lookup_delete_ne.
Qed.

(** [DelKVS] on a string that is empty or has a field. *)
Lemma DelKVS_returns s (c : Config) σ :
  s = "" ∨ Fields s ≠ [] →
  ∃ c' err, DelKVS s c σ = (Done (c', err), σ) ∧
    (err ≠ None → c' = c) ∧
    (∀ s' t' kvs, entry c' s' t' = Some kvs → entry c s' t' = Some kvs) ∧
    (complete c → complete c').
Proof.
  intros Hor. unfold DelKVS.
  destruct (decide (s = "")) as [Hs|Hs].
  { exists c, (Errorf "input arguments cannot be empty"). by split_and!. }
  destruct Hor as [?|HF]; [contradiction|].
  destruct (decide (1 < length (Fields s))) as [Hl|Hl].
  { eexists c, _. by split_and!. }
  destruct (Fields s) as [|input0 [|x rest]]; [contradiction| |simpl in Hl; lia].
  rewrite bind_index_0.
  pose proof (SplitN2_length input0 SubSystemSeparator) as Hlen.
  destruct (SplitN2 input0 SubSystemSeparator) as [|subSys rest]; [simpl in Hlen; lia|].
  destruct (Contains SubSystems subSys) eqn:Hc; simpl negb; cbv iota.
  2:{ apply Contains_false in Hc. eexists _, _. split; [reflexivity|].
      split_and!; [by intros []|apply entry_delete_subsys|].
      intros Hcomp s' Hs'. rewrite lookup_delete_ne; [by apply Hcomp|].
      intros <-. contradiction. }
  assert (∀ tgt, ∃ c' err,
            match c !! subSys with
            | Some m =>
                match m !! tgt with
                | Some _ => ret (<[subSys := delete tgt m]> c, None)
                | None => ret (c, Errorf ("sub-system " +:+ s +:+ " already deleted"))
                end
            | None => ret (c, Errorf ("sub-system " +:+ s +:+ " already deleted"))
            end σ = (Done (c', err), σ) ∧
            (err ≠ None → c' = c) ∧
            (∀ s' t' kvs, entry c' s' t' = Some kvs → entry c s' t' = Some kvs) ∧
            (complete c → complete c')) as Hdel.
  { intros tgt. destruct (c !! subSys) as [m|] eqn:Hm; [destruct (m !! tgt) eqn:Ht|].
    - eexists _, _. split; [reflexivity|]. split_and!; [by intros []| |].
      + intros s' t' kvs. rewrite (entry_insert_delete _ _ _ _ _ _ Hm).
        destruct (decide _); [discriminate|done].
      + intros Hcomp s' Hs'. destruct (decide (s' = subSys)) as [->|Hne].
        * rewrite lookup_insert_eq. by eexists.
        * rewrite lookup_insert_ne by done. by apply Hcomp.
    - eexists c, _. by split_and!.
    - eexists c, _. by split_and!. }
  destruct rest as [|tgt [|y rest]]; [apply Hdel| |apply Hdel].
  destruct (decide (tgt = "")); [|apply Hdel].
  eexists c, _. by split_and!.
Qed.

(** X9.  [DelKVS] never writes to the heap.  On a string that is not
    empty and has no field (white space alone) it panics on [inputs[0]].
    Otherwise it returns; an error leaves the store as it was; the store
    returned has no entry the store did not have; and a store with a map
    for every registered subsystem keeps one, since for a registered
    subsystem the target alone is deleted. *)
Theorem DelKVS_keeps_shape s (c : Config) σ :
  (s ≠ "" → Fields s = [] →
   DelKVS s c σ = (Panic "runtime error: index out of range", σ)) ∧
  (s = "" ∨ Fields s ≠ [] →
   ∃ c' err, DelKVS s c σ = (Done (c', err), σ) ∧
     (err ≠ None → c' = c) ∧
     (∀ s' t' kvs, entry c' s' t' = Some kvs → entry c s' t' = Some kvs) ∧
     (complete c → complete c')).
Proof.
  split.
  - intros Hs HF. unfold DelKVS. rewrite decide_False by exact Hs. rewrite HF.
    destruct (decide (1 < length (@nil string))) as [Hl|_]; [simpl in Hl; lia|].
    reflexivity.
  - intros Hor. destruct (DelKVS_returns s c σ Hor) as (c' & err & E & He & Hsub & Hc).
    exists c', err. by split_and!.
Qed.

End shape.

Section shape_example.
#[local] Instance shape_imports : Imports := Ref.imports (λ _, false).
#[local] Instance shape_registry : Registry := Fixture.registry.

Lemma GetSubSys_accepted_witness :
  ("notify_webhook" ∈ SubSystems) ∧ ("notify_webhook" ∉ SubSystemsSingleTargets) ∧
  SplitN2 "notify_webhook:t1" SubSystemSeparator = ["notify_webhook"; "t1"].
Proof.
  destruct (GetSubSys_accepted "notify_webhook:t1 endpoint=http://a" "notify_webhook"
              ["notify_webhook:t1"; "endpoint=http://a"] "t1")
    as (_ & Hreg & _ & _ & [[Hl _]|[_ [[_ Ht]|[Hsp Hst]]]]).
  - vm_compute. reflexivity.
  - discriminate Hl.
  - discriminate Ht.
  - by split_and!.
Defined.

(** A second target for notify_webhook on the store of the fixture. *)
Lemma SetKVS_keeps_shape_witness :
  ∃ c' σ', SetKVS "notify_webhook:t1 endpoint=http://a" DefaultKVS Fixture.c0 Fixture.σ0
             = (Done (c', (false, None)), σ') ∧
    valid_store σ' c' ∧ dom c' = dom Fixture.c0 ∧
    is_Some (entry c' "notify_webhook" Default).
Proof.
  set (s := "notify_webhook:t1 endpoint=http://a").
  assert (match SetKVS s DefaultKVS Fixture.c0 Fixture.σ0 with
          | (Done (_, (false, None)), _) => True
          | _ => False
          end) as Hobs by (vm_compute; exact I).
  destruct (SetKVS s DefaultKVS Fixture.c0 Fixture.σ0)
    as [[[c' [[|] [e|]]]|msg] σ'] eqn:Hrun; try (exfalso; exact Hobs).
  destruct (SetKVS_keeps_shape s DefaultKVS Fixture.c0 Fixture.σ0 c' false None σ'
              valid_store_fixture valid_table_fixture Hrun)
    as (Hv & _ & Hd & He & _).
  exists c', σ'. split_and!; [reflexivity|exact Hv|exact Hd|].
  apply He. by eexists.
Defined.

Lemma SetKVS_returns_witness :
  ∃ c' dynamic err σ',
    SetKVS "notify_webhook:t1 endpoint=http://a" DefaultKVS New Fixture.σ0
      = (Done (c', (dynamic, err)), σ').
Proof.
  apply (SetKVS_returns _ _ _ _ "notify_webhook:t1" "endpoint=http://a").
  - apply valid_store_New. exact valid_table_fixture.
  - exact valid_table_fixture.
  - apply complete_New.
  - reflexivity.
Defined.

(** One space is not empty and has no field. *)
Lemma DelKVS_keeps_shape_witness :
  DelKVS " " Fixture.c0 Fixture.σ0 = (Panic "runtime error: index out of range", Fixture.σ0) ∧
  ∃ c' err, DelKVS "notify_webhook" Fixture.c0 Fixture.σ0 = (Done (c', err), Fixture.σ0) ∧
    (∀ s' t' kvs, entry c' s' t' = Some kvs → entry Fixture.c0 s' t' = Some kvs).
Proof.
  destruct (DelKVS_keeps_shape " " Fixture.c0 Fixture.σ0) as [Hp _].
  destruct (DelKVS_keeps_shape "notify_webhook" Fixture.c0 Fixture.σ0) as [_ Hr].
  split.
  - apply Hp; [discriminate|reflexivity].
  - destruct Hr as (c' & err & E & _ & Hsub & _).
    + right. discriminate.
    + exists c', err. split; [exact E|exact Hsub].
Defined.

End shape_example.

(** ** Validation of keys *)

Section check_keys.
Context `{Imports} `{Registry} `{Madmin}.

(** The slice [nkv] of [CheckValidKeys] holds the pairs with a key that
    is not valid. *)
Lemma CheckValidKeys_filter subSys (kv validKVS : list KV) :
  CheckValidKeys subSys kv validKVS =
    let bad := filter (λ x, Key x ≠ Comment ∧ Key x ∉ Key <$> validKVS) kv in
    if decide (0 < length bad)
    then Errorf ("found invalid keys (" +:+ KVS_String bad +:+ ") for '" +:+ subSys +:+
                 "' sub-system, use 'mc admin config reset myminio " +:+ subSys +:+
                 "' to fix invalid keys")
    else None.
Proof.
  unfold CheckValidKeys.
  assert (∀ acc, foldl (λ nkv x,
            if decide (Key x = Comment) then nkv
            else if (Lookup_list validKVS (Key x)).2 then nkv else nkv ++ [x]) acc kv
          = acc ++ filter (λ x, Key x ≠ Comment ∧ Key x ∉ Key <$> validKVS) kv) as Hfold.
  { induction kv as [|x l IH]; intros acc; simpl.
    - by rewrite app_nil_r.
    - rewrite filter_cons. destruct (decide (Key x = Comment)) as [Hc|Hc].
      + rewrite decide_False by tauto. apply IH.
      + destruct (Lookup_list validKVS (Key x)).2 eqn:E.
        * apply Lookup_list_found in E. rewrite decide_False by tauto. apply IH.
        * rewrite decide_True.
          -- rewrite IH. by rewrite <- app_assoc.
          -- split; [done|]. intros Hin%Lookup_list_found. congruence. }
  by rewrite (Hfold []).
Qed.

Lemma filter_nil_all {A} (P : A → Prop) `{!∀ x, Decision (P x)} (l : list A) :
  filter P l = [] ↔ ∀ x, x ∈ l → ¬ P x.
Proof.
  split.
  - intros Hnil x Hx HP. assert (x ∈ filter P l) as Hin by by apply list_elem_of_filter.
    rewrite Hnil in Hin. by apply elem_of_nil in Hin.
  - intros Hall. destruct (filter P l) as [|b l'] eqn:E; [done|].
    assert (b ∈ filter P l) as Hin by (rewrite E; apply elem_of_cons; by left).
    apply list_elem_of_filter in Hin as [HP Hb]. by destruct (Hall _ Hb).
Qed.

(** When [CheckValidKeys] finds no fault every key is valid. *)
Lemma CheckValidKeys_None subSys (kv validKVS : list KV) :
  CheckValidKeys subSys kv validKVS = None →
  ∀ x, x ∈ kv → Key x = Comment ∨ Key x ∈ Key <$> validKVS.
Proof.
  rewrite CheckValidKeys_filter. simpl.
  destruct (filter _ kv) as [|b l'] eqn:E; simpl; [|discriminate].
  intros _ x Hx. pose proof (proj1 (filter_nil_all _ _) E x Hx) as HE.
  destruct (decide (Key x = Comment)) as [|Hc]; [by left|].
  destruct (decide (Key x ∈ Key <$> validKVS)) as [|Hv]; [by right|].
  destruct HE. by split.
Qed.

(** X10.  The function [CheckValidKeys] returns no error exactly when
    every key of the KVS is the comment key or a key of the valid KVS;
    values play no part.  Otherwise its error lists, in their order, the
    pairs whose key is neither. *)
Theorem CheckValidKeys_valid subSys (kv validKVS : list KV) :
  let bad := filter (λ x, Key x ≠ Comment ∧ Key x ∉ Key <$> validKVS) kv in
  (CheckValidKeys subSys kv validKVS = None ↔
     ∀ x, x ∈ kv → Key x = Comment ∨ Key x ∈ Key <$> validKVS) ∧
  (bad ≠ [] →
   CheckValidKeys subSys kv validKVS =
     Errorf ("found invalid keys (" +:+ KVS_String bad +:+ ") for '" +:+ subSys +:+
             "' sub-system, use 'mc admin config reset myminio " +:+ subSys +:+
             "' to fix invalid keys")).
Proof.
  intros bad. rewrite CheckValidKeys_filter. fold bad. cbv zeta.
  assert (bad = [] ↔ ∀ x, x ∈ kv → Key x = Comment ∨ Key x ∈ Key <$> validKVS) as Hbad.
  { unfold bad. rewrite filter_nil_all. split; intros Hall x Hx.
    - specialize (Hall x Hx).
      destruct (decide (Key x = Comment)) as [|Hc]; [by left|].
      destruct (decide (Key x ∈ Key <$> validKVS)) as [|Hv]; [by right|].
      destruct Hall. by split.
    - intros [Hc Hv]. destruct (Hall x Hx); contradiction. }
  destruct bad as [|b bad']; simpl.
  - split; [|done]. split; [intros _; by apply Hbad|done].
  - split; [|done]. split; [discriminate|]. intros Hall. apply Hbad in Hall. discriminate.
Qed.

End check_keys.

(** ** Folds over sets of names *)

Lemma foldl_difference {A} (f : A → string) (S : gset string) (l : list A) :
  foldl (λ cand p, cand ∖ {[ f p ]}) S l = S ∖ list_to_set (f <$> l).
Proof.
  revert S. induction l as [|x l IH]; intros S; simpl.
  - apply set_eq. intros v. rewrite elem_of_difference, elem_of_empty. tauto.
  - rewrite IH. apply set_eq. intros v.
    rewrite !elem_of_difference, elem_of_union, elem_of_singleton. tauto.
Qed.

Lemma foldl_remove_once (v : string) (cond : string → bool) (S : gset string) l :
  foldl (λ cand p, if cond p then cand ∖ {[ v ]} else cand) S l
  = if existsb cond l then S ∖ {[ v ]} else S.
Proof.
  revert S. induction l as [|x l IH]; intros S; simpl; [done|].
  rewrite IH. destruct (cond x); simpl; [|done].
  destruct (existsb cond l); [|done].
  apply set_eq. intros w. rewrite !elem_of_difference. tauto.
Qed.

Lemma foldl_remove_if (Q : string → bool) (S : gset string) l :
  foldl (λ cand v, if Q v then cand ∖ {[ v ]} else cand) S l
  = S ∖ list_to_set (filter (λ v, Q v = true) l).
Proof.
  revert S. induction l as [|x l IH]; intros S; simpl.
  - apply set_eq. intros v. rewrite elem_of_difference, elem_of_empty. tauto.
  - rewrite IH, filter_cons. destruct (Q x) eqn:E.
    + rewrite decide_True by done. apply set_eq. intros v. simpl.
      rewrite !elem_of_difference, elem_of_union, elem_of_singleton. tauto.
    + rewrite decide_False by congruence. done.
Qed.

Lemma foldl_remove_nested (cond : string → string → bool) (S : gset string)
    (ps vs : list string) :
  foldl (λ cand v, foldl (λ cand0 p, if cond v p then cand0 ∖ {[ v ]} else cand0) cand ps) S vs
  = S ∖ list_to_set (filter (λ v, existsb (cond v) ps = true) vs).
Proof.
  rewrite <- (foldl_remove_if (λ v, existsb (cond v) ps)).
  revert S. induction vs as [|v vs IH]; intros S; simpl; [done|].
  by rewrite foldl_remove_once, IH.
Qed.

Lemma elem_of_foldl_add (g : string → string) (S : gset string) (l : list string) t :
  t ∈ foldl (λ s k, if decide (g k = "") then s else s ∪ {[ g k ]}) S l
  ↔ t ∈ S ∨ ∃ k, k ∈ l ∧ g k = t ∧ t ≠ "".
Proof.
  revert S. induction l as [|x l IH]; intros S; simpl.
  - split; [by left|]. intros [?|(k & Hk & _)]; [done|]. by apply elem_of_nil in Hk.
  - rewrite IH. split.
    + intros [Hin|(k & Hk & Hg & Ht)].
      * destruct (decide (g x = "")) as [Hz|Hz]; [by left|].
        apply elem_of_union in Hin as [Hin|Hin%elem_of_singleton]; [by left|].
        right. exists x. split_and!; [apply elem_of_cons; by left|done|congruence].
      * right. exists k. split_and!; [apply elem_of_cons; by right|done..].
    + intros [Hin|(k & Hk & Hg & Ht)].
      * left. destruct (decide (g x = "")); [done|]. apply elem_of_union. by left.
      * apply elem_of_cons in Hk as [->|Hk].
        -- left. rewrite decide_False by congruence.
           apply elem_of_union. right. by apply elem_of_singleton.
        -- right. by exists k.
Qed.

Lemma elem_of_foldl_add_nested {A} (L : A → list string) (f : A → string → string)
    (S : gset string) (ps : list A) t :
  t ∈ foldl (λ s p, foldl (λ s k, if decide (f p k = "") then s else s ∪ {[ f p k ]})
                          s (L p)) S ps
  ↔ t ∈ S ∨ ∃ p k, p ∈ ps ∧ k ∈ L p ∧ f p k = t ∧ t ≠ "".
Proof.
  revert S. induction ps as [|x ps IH]; intros S; simpl.
  - split; [by left|]. intros [?|(p & k & Hp & _)]; [done|]. by apply elem_of_nil in Hp.
  - rewrite IH, (elem_of_foldl_add (f x)). split.
    + intros [[Hin|(k & Hk & Hg & Ht)]|(p & k & Hp & Hk & Hg & Ht)].
      * by left.
      * right. exists x, k. split_and!; [apply elem_of_cons; by left|done..].
      * right. exists p, k. split_and!; [apply elem_of_cons; by right|done..].
    + intros [Hin|(p & k & Hp & Hk & Hg & Ht)]; [by left; left|].
      apply elem_of_cons in Hp as [->|Hp].
      * left. right. by exists k.
      * right. by exists p, k.
Qed.

Lemma substring_all (s : string) : String.substring 0 (String.length s) s = s.
Proof. induction s as [|a s IH]; simpl; [done|]. by rewrite IH. Qed.

Lemma HasPrefix_app (p t : string) : HasPrefix (p +:+ t) p = true.
Proof.
  unfold HasPrefix. induction p as [|a p IH]; [by destruct t|].
  change (String a p +:+ t) with (String a (p +:+ t)). simpl.
  by destruct (Ascii.ascii_dec a a).
Qed.

Lemma length_app_str (p t : string) :
  String.length (p +:+ t) = String.length p + String.length t.
Proof.
  induction p as [|a p IH]; [done|].
  change (String a p +:+ t) with (String a (p +:+ t)). simpl. by rewrite IH.
Qed.

Lemma TrimPrefix_app (p t : string) : TrimPrefix (p +:+ t) p = t.
Proof.
  unfold TrimPrefix. rewrite HasPrefix_app, length_app_str.
  replace (String.length p + String.length t - String.length p) with (String.length t) by lia.
  induction p as [|a p IH]; [apply substring_all|].
  change (String a p +:+ t) with (String a (p +:+ t)). simpl. apply IH.
Qed.

Lemma HasPrefix_split (k p : string) : HasPrefix k p = true → k = p +:+ TrimPrefix k p.
Proof.
  intros Hp. unfold TrimPrefix. rewrite Hp. unfold HasPrefix in Hp.
  revert k Hp. induction p as [|a p IH]; intros k Hp.
  - change ("" +:+ ?x) with x. simpl. rewrite Nat.sub_0_r. by rewrite substring_all.
  - destruct k as [|b k]; [discriminate|]. simpl in Hp.
    destruct (Ascii.ascii_dec a b) as [->|]; [|discriminate].
    change (String b p +:+ ?x) with (String b (p +:+ x)). simpl. f_equal. by apply IH.
Qed.

Lemma HasPrefix_longer (s t : string) : t ≠ "" → HasPrefix s (s +:+ t) = false.
Proof.
  intros Ht. unfold HasPrefix. induction s as [|a s IH].
  - change ("" +:+ t) with t. by destruct t.
  - change (String a s +:+ t) with (String a (s +:+ t)). simpl.
    by destruct (Ascii.ascii_dec a a).
Qed.

Lemma foldl_insert_const {A V} (g : A → string) (d : V) (l : list A)
    (acc : gmap string V) t :
  foldl (λ m e, <[g e := d]> m) acc l !! t =
    if decide (t ∈ g <$> l) then Some d else acc !! t.
Proof.
  revert acc. induction l as [|x l IH]; intros acc; simpl.
  - destruct (decide (t ∈ [])) as [Hin|]; [by apply elem_of_nil in Hin|done].
  - rewrite IH. destruct (decide (t ∈ g <$> l)) as [Hin|Hin].
    + rewrite decide_True; [done|]. apply elem_of_cons. by right.
    + destruct (decide (t = g x)) as [->|Hne].
      * rewrite lookup_insert_eq. rewrite decide_True; [done|]. apply elem_of_cons. by left.
      * rewrite lookup_insert_ne by done. rewrite decide_False; [done|].
        intros [?|?]%elem_of_cons; contradiction.
Qed.

Lemma elem_of_env_List (environ : gmap string string) p k :
  k ∈ env_List environ p ↔ is_Some (environ !! k) ∧ HasPrefix k p = true.
Proof.
  unfold env_List. rewrite list_elem_of_filter, list_elem_of_fmap. split.
  - intros [Hp ([k' v] & -> & Hin%elem_of_map_to_list)]. split; [by eexists|done].
  - intros [[v Hv] Hp]. split; [done|]. exists (k, v). split; [done|].
    by apply elem_of_map_to_list.
Qed.

Lemma ToSlice_sorted (S : gset string) :
  Sorted String.le (ToSlice S) ∧ NoDup (ToSlice S).
Proof.
  unfold ToSlice. split.
  - apply Sorted_merge_sort. apply _.
  - rewrite merge_sort_Permutation. apply NoDup_elements.
Qed.

Lemma elem_of_ToSlice (S : gset string) v : v ∈ ToSlice S ↔ v ∈ S.
Proof. unfold ToSlice. rewrite merge_sort_Permutation. apply elem_of_elements. Qed.

Lemma size_pos_elem (S : gset string) : bool_decide (0 < size S) = true ↔ ∃ v, v ∈ S.
Proof.
  rewrite bool_decide_eq_true. split.
  - intros Hs. apply size_pos_elem_of. lia.
  - intros [v Hv]. destruct (decide (size S = 0)) as [Hz|]; [|lia].
    apply size_empty_iff in Hz. rewrite Hz in Hv. by apply elem_of_empty in Hv.
Qed.

(** ** Validation against the environment and the store *)

Section check_env.
Context `{Imports} `{Registry} `{Madmin}.

Lemma elems_heap σ σ' kvs : heap σ' = heap σ → elems σ' kvs = elems σ kvs.
Proof. intros Hh. unfold elems, array. by rewrite Hh. Qed.

(** The last loop of [c.CheckValidKeys]. *)
Lemma check_store_wp (validKeysSet : gset string) subSys (m : gmap string KVS) σ Φ :
  (∀ r σ', heap σ' = heap σ →
     (r = None ↔ ∀ tgt kvs x, m !! tgt = Some kvs → x ∈ elems σ kvs →
                   Key x ∈ validKeysSet) →
     Φ (Done r) σ') →
  wp (range_map m (λ tgt kvs (r : option goerror),
        if r is Some _ then ret r else
        σ ← get_state;
        let invalidKV := filter (λ kv, Contains validKeysSet (Key kv) = false) (elems σ kvs) in
        if decide (0 < length invalidKV)
        then ret (Some (ConfigError (mkError (
               "found invalid keys (" +:+ KVS_String invalidKV +:+ ") for '" +:+ subSys +:+
               ":" +:+ tgt +:+ "' sub-system, use 'mc admin config reset myminio " +:+
               subSys +:+ ":" +:+ tgt +:+ "' to fix invalid keys"))))
        else ret None) None) σ Φ.
Proof.
  intros HΦ.
  apply (range_map_wp (λ pre r σ1,
           heap σ1 = heap σ ∧
           (r = None ↔ ∀ tgt kvs x, tgt ∈ pre → m !! tgt = Some kvs → x ∈ elems σ kvs →
                         Key x ∈ validKeysSet))).
  - split; [done|]. split; [|done]. intros _ tgt kvs x Hin. by apply elem_of_nil in Hin.
  - intros pre k kvs r σ1 Hk Hpre [Hh Hr]. destruct r as [e|].
    + apply wp_ret. exists (Some e). split; [done|]. split; [done|]. split; [discriminate|].
      intros Hall. apply Hr. intros tgt kvs' x Hin. apply Hall. apply elem_of_app. by left.
    + apply wp_bind, wp_get_state. rewrite (elems_heap _ _ _ Hh).
      set (invalidKV := filter (λ kv, Contains validKeysSet (Key kv) = false) (elems σ kvs)).
      simpl. fold invalidKV.
      destruct (decide (0 < length invalidKV)) as [Hl|Hl]; apply wp_ret; eexists;
        (split; [done|]); (split; [done|]).
      * split; [discriminate|]. intros Hall. exfalso.
        destruct invalidKV as [|x l] eqn:E; [simpl in Hl; lia|].
        assert (x ∈ invalidKV) as Hx.
        { rewrite E. apply elem_of_cons. by left. }
        unfold invalidKV in Hx. apply list_elem_of_filter in Hx as [Hc Hx].
        apply Contains_false in Hc. apply Hc.
        apply (Hall k kvs x); [|done..]. apply elem_of_app. right. by apply list_elem_of_singleton.
      * split; [|done]. intros _ tgt kvs' x [Hin|Hin%list_elem_of_singleton]%elem_of_app.
        -- by apply Hr.
        -- subst tgt. rewrite Hk. intros [= <-] Hx.
           destruct (Contains validKeysSet (Key x)) eqn:Hc; [by apply Contains_true|].
           exfalso. apply Hl.
           assert (x ∈ invalidKV) as Hf by by apply list_elem_of_filter.
           destruct invalidKV; [by apply elem_of_nil in Hf|simpl; lia].
  - intros ks r σ' Hperm [Hh Hr]. apply HΦ; [done|]. rewrite Hr. split.
    + intros Hall tgt kvs x Hm. apply (Hall tgt kvs x); [|done].
      apply (elem_of_range_keys m); [done|by eexists].
    + intros Hall tgt kvs x _. apply Hall.
Qed.

(** X11.  [c.CheckValidKeys] on a subsystem without default KVS returns
    the error [does not exist].  Otherwise it returns without writing to
    the heap, and it returns no error exactly when two things hold.
    Every variable of the environment that begins with the prefix and the
    subsystem in upper case is the name of a valid key (a key of the
    default KVS, or the comment key) for the default target, or, for a
    subsystem that is not single-target, such a name followed by the
    delimiter and at least one more character.  And every key of every
    target the store has for the subsystem is a valid key that is not in
    the list of deprecated keys. *)
Theorem Config_CheckValidKeys_valid environ (c : Config) subSys deprecatedKeys σ :
  (DefaultKVS !! subSys = None →
   Config_CheckValidKeys environ c subSys deprecatedKeys σ
   = (Done (Some (PlainError ("Subsystem " +:+ subSys +:+ " does not exist"))), σ)) ∧
  (∀ defKVS, DefaultKVS !! subSys = Some defKVS →
   let validKeys := (Key <$> elems σ defKVS) ++ [Comment] in
   let name := getEnvVarName subSys Default in
   let var_ok v :=
     v ∈ name <$> validKeys ∨
     ((subSys ∉ SubSystemsSingleTargets) ∧
      ∃ p, p ∈ validKeys ∧
        String.length (name p +:+ Default) < String.length v ∧
        HasPrefix v (name p +:+ Default) = true) in
   ∃ r σ', Config_CheckValidKeys environ c subSys deprecatedKeys σ = (Done r, σ') ∧
     heap σ' = heap σ ∧
     (r = None ↔
        (∀ v, v ∈ env_List environ (EnvPrefix +:+ ToUpper subSys) → var_ok v) ∧
        (∀ tgt kvs x, entry c subSys tgt = Some kvs → x ∈ elems σ kvs →
           Key x ∈ validKeys ∧ Key x ∉ deprecatedKeys))).
Proof.
  split.
  { intros Hd. unfold Config_CheckValidKeys. by rewrite Hd. }
  intros defKVS Hd validKeys name var_ok. apply wp_done.
  unfold Config_CheckValidKeys. rewrite Hd.
  apply wp_bind, wp_get_state. fold validKeys.
  rewrite (foldl_difference name).
  set (envVars := env_List environ (EnvPrefix +:+ ToUpper subSys)).
  set (cand1 := CreateStringSet envVars ∖ list_to_set (name <$> validKeys)).
  assert (∀ v, v ∈ cand1 ↔ v ∈ envVars ∧ v ∉ name <$> validKeys) as Hc1.
  { intros v. unfold cand1, CreateStringSet.
    by rewrite elem_of_difference, !elem_of_list_to_set. }
  set (cond := λ (envVar param : string),
         (String.length (name param +:+ Default) <? String.length envVar)
         && HasPrefix envVar (name param +:+ Default)).
  pose proof (foldl_remove_nested cond cand1 validKeys (ToSlice cand1)) as Hf2.
  unfold cond, name in Hf2. rewrite Hf2. clear Hf2.
  set (cand2 := cand1 ∖ list_to_set (filter _ (ToSlice cand1))).
  assert (∀ v, existsb (cond v) validKeys = true ↔
            ∃ p, p ∈ validKeys ∧
              String.length (name p +:+ Default) < String.length v ∧
              HasPrefix v (name p +:+ Default) = true) as Hex.
  { intros v. rewrite existsb_exists. unfold cond. split.
    - intros (p & Hp & Hb). apply Bool.andb_true_iff in Hb as [Hl%Nat.ltb_lt Hpre].
      exists p. split_and!; [by apply list_elem_of_In|done..].
    - intros (p & Hp & Hl & Hpre). exists p. split; [by apply list_elem_of_In|].
      apply Bool.andb_true_iff. split; [by apply Nat.ltb_lt|done]. }
  assert (∀ v, v ∈ cand2 ↔ v ∈ cand1 ∧ existsb (cond v) validKeys = false) as Hc2.
  { intros v. unfold cand2.
    rewrite elem_of_difference, elem_of_list_to_set, list_elem_of_filter, elem_of_ToSlice.
    split.
    - intros [Hv Hn]. split; [exact Hv|].
      destruct (existsb (cond v) validKeys) eqn:Hb; [|done]. exfalso. apply Hn.
      split; [exact Hb|exact Hv].
    - intros [Hv Hb]. split; [exact Hv|]. intros [Hb' _].
      change (existsb (cond v) validKeys = true) in Hb'. congruence. }
  assert (∀ Φ, (∀ v, v ∈ envVars → var_ok v) →
            (∀ r σ', heap σ' = heap σ →
               (r = None ↔ ∀ tgt kvs x, entry c subSys tgt = Some kvs → x ∈ elems σ kvs →
                            Key x ∈ validKeys ∧ Key x ∉ deprecatedKeys) →
               Φ (Done r) σ') →
            wp (range_map (default ∅ (c !! subSys)) (λ tgt kvs (r : option goerror),
                  if r is Some _ then ret r else
                  σ ← get_state;
                  let invalidKV :=
                    filter (λ kv, Contains (CreateStringSet validKeys ∖
                                            CreateStringSet deprecatedKeys) (Key kv) = false)
                           (elems σ kvs) in
                  if decide (0 < length invalidKV)
                  then ret (Some (ConfigError (mkError (
                         "found invalid keys (" +:+ KVS_String invalidKV +:+ ") for '" +:+
                         subSys +:+ ":" +:+ tgt +:+
                         "' sub-system, use 'mc admin config reset myminio " +:+
                         subSys +:+ ":" +:+ tgt +:+ "' to fix invalid keys"))))
                  else ret None) None) σ Φ) as Hloop.
  { intros Φ Henv HΦ. apply check_store_wp. intros r σ' Hh Hr. apply HΦ; [done|].
    rewrite Hr. unfold entry, CreateStringSet.
    split; intros Hall tgt kvs x Hm Hx.
    - specialize (Hall tgt kvs x). destruct (c !! subSys) as [m|]; [|discriminate Hm].
      specialize (Hall Hm Hx). by rewrite elem_of_difference, !elem_of_list_to_set in Hall.
    - rewrite elem_of_difference, !elem_of_list_to_set. apply (Hall tgt kvs x); [|done].
      destruct (c !! subSys) as [m|]; [done|]. simpl in Hm. by rewrite lookup_empty in Hm. }
  destruct (Contains SubSystemsSingleTargets subSys) eqn:Hs; cbn [negb andb].
  - apply Contains_true in Hs.
    destruct (bool_decide (0 < size cand1)) eqn:Hsz; cbn iota.
    + apply wp_ret. eexists. split; [done|]. split; [done|]. split; [discriminate|].
      intros [Henv _]. exfalso. apply size_pos_elem in Hsz as [v Hv].
      apply Hc1 in Hv as [Hv Hn]. destruct (Henv v Hv) as [?|[? _]]; contradiction.
    + apply Hloop.
      * intros v Hv. left. destruct (decide (v ∈ name <$> validKeys)) as [|Hn]; [done|].
        exfalso. apply Bool.not_true_iff_false in Hsz. apply Hsz, size_pos_elem.
        exists v. by apply Hc1.
      * intros r σ' Hh Hr. exists r. split; [done|]. split; [done|]. rewrite Hr.
        split; [|tauto]. intros Hst. split; [|done].
        intros v Hv. left. destruct (decide (v ∈ name <$> validKeys)) as [|Hn]; [done|].
        exfalso. apply Bool.not_true_iff_false in Hsz. apply Hsz, size_pos_elem.
        exists v. by apply Hc1.
  - apply Contains_false in Hs.
    assert ((∀ v, v ∈ envVars → var_ok v) ↔ ¬ ∃ v, v ∈ cand2) as Henv_iff.
    { split.
      - intros Henv [v Hv]. apply Hc2 in Hv as [[Hv Hn]%Hc1 Hb].
        destruct (Henv v Hv) as [?|[_ Hp]]; [contradiction|].
        apply Hex in Hp. congruence.
      - intros Hno v Hv. destruct (decide (v ∈ name <$> validKeys)) as [|Hn]; [by left|].
        right. split; [done|]. apply Hex.
        destruct (existsb (cond v) validKeys) eqn:Hb; [done|].
        exfalso. apply Hno. exists v. apply Hc2. split; [by apply Hc1|done]. }
    destruct (bool_decide (0 < size cand2)) eqn:Hsz; cbn iota.
    + apply wp_ret. eexists. split; [done|]. split; [done|]. split; [discriminate|].
      intros [Henv _]. exfalso. apply Henv_iff in Henv. apply Henv. by apply size_pos_elem.
    + assert (∀ v, v ∈ envVars → var_ok v) as Henv.
      { apply Henv_iff. intros Hv%size_pos_elem. congruence. }
      apply Hloop; [exact Henv|].
      intros r σ' Hh Hr. exists r. split; [done|]. split; [done|]. rewrite Hr. tauto.
Qed.

Lemma wp_done_as {A B} (g : B → A) (m : M A) σ (Q : B → state → Prop) :
  wp m σ (λ r σ', ∃ b, r = Done (g b) ∧ Q b σ') →
  ∃ b σ', m σ = (Done (g b), σ') ∧ Q b σ'.
Proof.
  unfold wp. destruct (m σ) as [r σ']. simpl. intros (b & -> & HQ). by exists b, σ'.
Qed.

(** The first loop of [GetAvailableTargets]: the targets of the store. *)
Lemma store_targets_wp (m : gmap string KVS) σ Φ :
  (∀ (s : gset string) σ', heap σ' = heap σ → (∀ t, t ∈ s ↔ is_Some (m !! t)) →
     Φ (Done s) σ') →
  wp (range_map m (λ k _ (s : gset string), ret (s ∪ {[ k ]})) ∅) σ Φ.
Proof.
  intros HΦ.
  apply (range_map_wp (λ pre (s : gset string) σ1,
           heap σ1 = heap σ ∧ ∀ t, t ∈ s ↔ t ∈ pre)).
  - split; [done|]. intros t. split; [by intros ?%elem_of_empty|by intros ?%elem_of_nil].
  - intros pre k v s σ1 _ _ [Hh Hs]. apply wp_ret. eexists. split; [done|]. split; [done|].
    intros t. rewrite elem_of_union, elem_of_singleton, elem_of_app, list_elem_of_singleton.
    by rewrite Hs.
  - intros ks s σ' Hperm [Hh Hs]. apply HΦ; [done|]. intros t.
    rewrite Hs. by apply elem_of_range_keys.
Qed.

(** X12.  [GetAvailableTargets] answers the default target alone for a
    single-target subsystem, before it looks at anything else, and the
    error [does not exist] for another subsystem without default KVS.
    Otherwise it returns, without writing to the heap, a list in
    ascending order and without repetition that holds exactly: the
    targets the store has for the subsystem, and every name that is not
    empty and follows, in the name of a variable of the environment, the
    name of the variable of a default key for the default target and the
    delimiter.  The default target is in the list when the store has it
    or such a variable names it. *)
Theorem GetAvailableTargets_targets environ (c : Config) subSys σ :
  (subSys ∈ SubSystemsSingleTargets →
   GetAvailableTargets environ c subSys σ = (Done ([Default], None), σ)) ∧
  (subSys ∉ SubSystemsSingleTargets → DefaultKVS !! subSys = None →
   GetAvailableTargets environ c subSys σ
   = (Done ([], Some (PlainError ("Subsystem " +:+ subSys +:+ " does not exist"))), σ)) ∧
  (∀ defKVS, subSys ∉ SubSystemsSingleTargets → DefaultKVS !! subSys = Some defKVS →
   ∃ l σ', GetAvailableTargets environ c subSys σ = (Done (l, None), σ') ∧
     heap σ' = heap σ ∧ Sorted String.le l ∧ NoDup l ∧
     ∀ t, t ∈ l ↔
       is_Some (entry c subSys t) ∨
       (t ≠ "" ∧ ∃ x, x ∈ elems σ defKVS ∧
          is_Some (environ !! ((getEnvVarName subSys Default (Key x) +:+ Default) +:+ t)))).
Proof.
  split_and!.
  - intros Hs%Contains_true. unfold GetAvailableTargets. by rewrite Hs.
  - intros Hs%Contains_false Hd. unfold GetAvailableTargets. by rewrite Hs, Hd.
  - intros defKVS Hs%Contains_false Hd. unfold GetAvailableTargets. rewrite Hs, Hd.
    apply (wp_done_as (λ l, (l, None))).
    apply wp_bind, store_targets_wp. intros s σ1 Hh Hst.
    apply wp_bind, wp_get_state. apply wp_ret. rewrite (elems_heap _ _ _ Hh).
    set (X := foldl _ s (elems σ defKVS)).
    exists (ToSlice X). split; [done|]. split; [done|].
    destruct (ToSlice_sorted X) as [Hsorted Hnd]. split_and!; [done..|].
    intros t. rewrite elem_of_ToSlice.
    pose proof (elem_of_foldl_add_nested
                  (λ x, env_List environ (getEnvVarName subSys Default (Key x) +:+ Default))
                  (λ x k, TrimPrefix k (getEnvVarName subSys Default (Key x) +:+ Default))
                  s (elems σ defKVS) t) as HX.
    cbv beta in HX. fold X in HX. rewrite HX, Hst. clear HX.
    assert (is_Some (default ∅ (c !! subSys) !! t) ↔ is_Some (entry c subSys t)) as ->.
    { unfold entry. destruct (c !! subSys); simpl; [done|]. by rewrite lookup_empty. }
    split; (intros [?|Hr]; [by left|right]).
    + destruct Hr as (x & k & Hx & Hk & Ht & Hne). split; [done|]. exists x. split; [done|].
      apply elem_of_env_List in Hk as [Hk Hp]. apply HasPrefix_split in Hp.
      rewrite Ht in Hp. by rewrite <- Hp.
    + destruct Hr as (Hne & x & Hx & Hk).
      exists x, ((getEnvVarName subSys Default (Key x) +:+ Default) +:+ t).
      split_and!; [done| |apply TrimPrefix_app|done].
      apply elem_of_env_List. split; [done|apply HasPrefix_app].
Qed.

(** X13.  The function [Merge] returns a map in which every target of
    the stored map has its stored KVS, whatever the environment holds; a
    target the stored map lacks has the default KVS when a variable of the
    environment that begins with the given name yields it, and is absent
    otherwise.  A variable with exactly the given name yields the default
    target; a variable that is the given name, the delimiter and a rest
    other than the given name yields the rest. *)
Theorem Merge_env_targets environ (cfgKVS : gmap string KVS) envname defaultKVS σ :
  let target e :=
    let tgt := TrimPrefix e (envname +:+ Default) in
    if decide (tgt = envname) then Default else tgt in
  ∃ m σ', Merge_env environ cfgKVS envname defaultKVS σ = (Done m, σ') ∧
    heap σ' = heap σ ∧
    (∀ t kv, cfgKVS !! t = Some kv → m !! t = Some kv) ∧
    (∀ t, cfgKVS !! t = None →
       (m !! t = Some defaultKVS ∨ m !! t = None) ∧
       (is_Some (m !! t) ↔
        ∃ e, is_Some (environ !! e) ∧ HasPrefix e envname = true ∧ target e = t)) ∧
    target envname = Default ∧
    (∀ x, x ≠ envname → target ((envname +:+ Default) +:+ x) = x).
Proof.
  intros target. unfold Merge_env.
  set (m0 := foldl _ ∅ (env_List environ envname)).
  assert (∀ t, m0 !! t = if decide (t ∈ target <$> env_List environ envname)
                         then Some defaultKVS else None) as Hm0.
  { intros t. unfold m0.
    rewrite (foldl_insert_const target defaultKVS (env_List environ envname) ∅ t).
    by rewrite lookup_empty. }
  apply wp_done.
  apply (range_map_wp (λ pre (m : gmap string KVS) σ1,
           heap σ1 = heap σ ∧
           ∀ t, m !! t = if decide (t ∈ pre) then cfgKVS !! t else m0 !! t)).
  - split; [done|]. intros t. rewrite decide_False; [done|]. apply not_elem_of_nil.
  - intros pre k v m σ1 Hk Hpre [Hh Hm]. apply wp_ret. eexists. split; [done|].
    split; [done|]. intros t. destruct (decide (t = k)) as [->|Hne].
    + rewrite lookup_insert_eq. rewrite decide_True; [done|].
      apply elem_of_app. right. by apply list_elem_of_singleton.
    + rewrite lookup_insert_ne by done. rewrite Hm.
      destruct (decide (t ∈ pre)) as [Hin|Hin].
      * rewrite decide_True; [done|]. apply elem_of_app. by left.
      * rewrite decide_False; [done|].
        intros [?|?%list_elem_of_singleton]%elem_of_app; contradiction.
  - intros ks m σ' Hperm [Hh Hm]. exists m. split; [done|]. split; [done|]. split_and!.
    + intros t kv Ht. rewrite Hm. rewrite decide_True; [done|].
      apply (elem_of_range_keys cfgKVS); [done|by eexists].
    + intros t Ht. rewrite Hm. rewrite decide_False.
      2:{ intros Hin. apply (elem_of_range_keys cfgKVS) in Hin; [|done].
          rewrite Ht in Hin. by destruct Hin. }
      rewrite Hm0. destruct (decide (t ∈ target <$> env_List environ envname)) as [Hin|Hin].
      * split; [by left|]. split; [intros _|by eexists].
        apply list_elem_of_fmap in Hin as (e & -> & He).
        apply elem_of_env_List in He as [? ?]. by exists e.
      * split; [by right|]. split; [by intros []|]. intros (e & He & Hp & <-).
        exfalso. apply Hin. apply list_elem_of_fmap. exists e. split; [done|].
        by apply elem_of_env_List.
    + unfold target, TrimPrefix. rewrite HasPrefix_longer by discriminate.
      by rewrite decide_True.
    + intros x Hx. unfold target. rewrite TrimPrefix_app. by rewrite decide_False.
Qed.

End check_env.

(** ** The bulk loaders *)

Section loaders.
Context `{Imports} `{Registry} `{Madmin}.


(** One directive with a space on a complete, well-formed store. *)
Lemma SetKVS_step text (c : Config) σ a b :
  valid_store σ c → valid_table σ DefaultKVS → complete c →
  SplitN2 text KvSpaceSeparator = [a; b] →
  ∃ c' dyn err σ', SetKVS text DefaultKVS c σ = (Done (c', (dyn, err)), σ') ∧
    valid_store σ' c' ∧ valid_table σ' DefaultKVS ∧ complete c'.
Proof.
  intros Hvc Hvt Hc Hsp.
  destruct (SetKVS text DefaultKVS c σ) as [r σ'] eqn:Hrun.
  destruct (SetKVS_outcome _ _ _ _ _ _ Hvc Hvt Hrun) as [Hf Hcases].
  assert (valid_store σ' c) as Hvc'.
  { intros s' t' kvs Hk. eapply frame_valid; [exact Hf| |by eapply Hvc].
    apply valid_below. by eapply Hvc. }
  assert (valid_table σ' DefaultKVS) as Hvt'.
  { intros s' kvs Hk. eapply frame_valid; [exact Hf| |by eapply Hvt].
    apply valid_below. by eapply Hvt. }
  destruct Hcases as [[e ->]|(subSys & inputs & tgt & Hsub & Hcases)].
  { exists c, false, (Some e), σ'. by split_and!. }
  destruct (GetSubSys_single _ _ _ _ Hsub) as (Hreg & Hin & _).
  rewrite Hsp in Hin. subst inputs.
  destruct Hcases as [[Hn _]|[(_ & Hn & _)|(m & kvs' & Hm & -> & Ho & Hv')]].
  - discriminate Hn.
  - destruct (Hc _ Hreg) as [m Hm]. congruence.
  - eexists _, _, None, σ'. split; [reflexivity|]. split_and!; [|exact Hvt'|].
    + intros s' t' kvs. rewrite (entry_insert_insert _ _ _ _ _ _ _ Hm).
      destruct (decide _); [by intros [= <-]|]. apply Hvc'.
    + intros s' Hs'. destruct (decide (s' = subSys)) as [->|Hne].
      * rewrite lookup_insert_eq. by eexists.
      * rewrite lookup_insert_ne by done. by apply Hc.
Qed.

(** X15.  On a well-formed store with a map for every registered
    subsystem, [ReadConfig] over lines that are empty, comments, or
    directives with a space returns: it does not panic.  The store it
    returns is again well formed with a map for every registered
    subsystem; it reports no error only when the scanner had none, and
    with an error the flag is false. *)
Theorem ReadConfig_returns texts scanErr (c : Config) σ :
  valid_store σ c → valid_table σ DefaultKVS → complete c →
  (∀ text, text ∈ texts →
     text = "" ∨ HasPrefix text KvComment = true ∨
     ∃ a b, SplitN2 text KvSpaceSeparator = [a; b]) →
  ∃ c' dynOnly err σ', ReadConfig texts scanErr c σ = (Done (c', (dynOnly, err)), σ') ∧
    valid_store σ' c' ∧ valid_table σ' DefaultKVS ∧ complete c' ∧
    (err = None → scanErr = None) ∧ (err ≠ None → dynOnly = false).
Proof.
  unfold ReadConfig. intros Hvc Hvt Hc Hlines.
  enough (∀ (d : bool) (c : Config) σ,
            valid_store σ c → valid_table σ DefaultKVS → complete c →
            ∃ c' dynOnly err σ',
              ReadConfig_from texts scanErr c d σ = (Done (c', (dynOnly, err)), σ') ∧
              valid_store σ' c' ∧ valid_table σ' DefaultKVS ∧ complete c' ∧
              (err = None → scanErr = None) ∧ (err ≠ None → dynOnly = false)) as Hgen
    by by apply Hgen.
  clear c σ Hvc Hvt Hc.
  induction texts as [|text texts IH]; intros d c σ Hvc Hvt Hc; simpl.
  - destruct scanErr as [e|].
    + exists c, false, (Some e), σ. by split_and!.
    + exists c, d, None, σ. by split_and!.
  - assert (∀ t, t ∈ texts →
              t = "" ∨ HasPrefix t KvComment = true ∨
              ∃ a b, SplitN2 t KvSpaceSeparator = [a; b]) as Hrest.
    { intros t Ht. apply Hlines. apply elem_of_cons. by right. }
    destruct (bool_decide (text = "") || HasPrefix text KvComment) eqn:Hskip.
    { by apply IH. }
    apply Bool.orb_false_iff in Hskip as [Hne%bool_decide_eq_false Hcm].
    destruct (Hlines text) as [?|[?|(a & b & Hsp)]];
      [apply elem_of_cons; by left|contradiction|congruence|].
    destruct (SetKVS_step text c σ a b Hvc Hvt Hc Hsp)
      as (c' & dyn & err & σ' & E & Hvc' & Hvt' & Hc').
    unfold mbind, M_bind, bind. rewrite E. destruct err as [e|]; simpl.
    + exists c', false, (Some e), σ'. by split_and!.
    + by apply IH.
Qed.

(** X16.  [DelFrom] over lines that are empty, comments, or have a field
    returns and never writes to the heap.  The store it returns has no
    entry the store did not have, and keeps a map for every registered
    subsystem when the store had one; it reports no error only when the
    scanner had none. *)
Theorem DelFrom_removes texts scanErr (c : Config) σ :
  (∀ text, text ∈ texts →
     text = "" ∨ HasPrefix text KvComment = true ∨ Fields text ≠ []) →
  ∃ c' err, DelFrom texts scanErr c σ = (Done (c', err), σ) ∧
    (∀ s t kvs, entry c' s t = Some kvs → entry c s t = Some kvs) ∧
    (complete c → complete c') ∧
    (err = None → scanErr = None).
Proof.
  revert c. induction texts as [|text texts IH]; intros c Hlines; simpl.
  - exists c, scanErr. by split_and!.
  - assert (∀ t, t ∈ texts →
              t = "" ∨ HasPrefix t KvComment = true ∨ Fields t ≠ []) as Hrest.
    { intros t Ht. apply Hlines. apply elem_of_cons. by right. }
    destruct (bool_decide (text = "") || HasPrefix text KvComment) eqn:Hskip.
    { by apply IH. }
    apply Bool.orb_false_iff in Hskip as [Hne%bool_decide_eq_false Hcm].
    destruct (Hlines text) as [?|[?|HF]];
      [apply elem_of_cons; by left|contradiction|congruence|].
    destruct (DelKVS_returns text c σ (or_intror HF)) as (c' & err & E & He & Hsub & Hc).
    unfold mbind, M_bind, bind. rewrite E. destruct err as [e|]; simpl.
    + exists c', (Some e). split_and!; [done|done|done|discriminate].
    + destruct (IH c' Hrest) as (c2 & err2 & E2 & Hsub2 & Hc2 & Herr2).
      exists c2, err2. split_and!; [done| |tauto|done].
      intros s t kvs Hk. by apply Hsub, Hsub2.
Qed.

End loaders.

(** ** Validation and loading on the fixture *)

Section check_example.
#[local] Instance check_imports : Imports := Ref.imports (λ _, false).
#[local] Instance check_registry : Registry := Fixture.registry.
#[local] Instance check_madmin : Madmin := RefMadmin.madmin.

(** A site KVS with a key the site subsystem does not have. *)
Lemma CheckValidKeys_valid_witness :
  CheckValidKeys "site" [mkKV "name" "a"; mkKV "bogus" "b"; mkKV "comment" "c"]
                 [mkKV "name" ""; mkKV "region" ""]
  = Errorf ("found invalid keys (bogus=b ) for 'site' sub-system, " +:+
            "use 'mc admin config reset myminio site' to fix invalid keys").
Proof.
  destruct (CheckValidKeys_valid "site"
              [mkKV "name" "a"; mkKV "bogus" "b"; mkKV "comment" "c"]
              [mkKV "name" ""; mkKV "region" ""]) as [_ Hbad].
  rewrite Hbad; [vm_compute; reflexivity|]. vm_compute. discriminate.
Defined.

(** The webhook of the fixture, with a variable for a second target. *)
Lemma Config_CheckValidKeys_valid_witness :
  let environ : gmap string string := {[ "MINIO_NOTIFY_WEBHOOK_ENABLE_t1" := "on" ]} in
  ∃ r σ', Config_CheckValidKeys environ Fixture.c0 "notify_webhook" [] Fixture.σ0
            = (Done r, σ') ∧ heap σ' = heap Fixture.σ0.
Proof.
  intros environ.
  destruct (Config_CheckValidKeys_valid environ Fixture.c0 "notify_webhook" [] Fixture.σ0)
    as [_ Hok].
  destruct (Hok (mkKVS (Some 1) 3)) as (r & σ' & E & Hh & _); [reflexivity|].
  exists r, σ'. split; [exact E|exact Hh].
Defined.

Lemma GetAvailableTargets_targets_witness :
  let environ : gmap string string := {[ "MINIO_NOTIFY_WEBHOOK_ENABLE_t1" := "on" ]} in
  ∃ l σ', GetAvailableTargets environ Fixture.c0 "notify_webhook" Fixture.σ0
            = (Done (l, None), σ') ∧
    Default ∈ l ∧ "t1" ∈ l ∧ "t2" ∉ l.
Proof.
  intros environ.
  destruct (GetAvailableTargets_targets environ Fixture.c0 "notify_webhook" Fixture.σ0)
    as (_ & _ & Hok).
  destruct (Hok (mkKVS (Some 1) 3)) as (l & σ' & E & _ & _ & _ & Hl).
  - apply Contains_false. vm_compute. reflexivity.
  - reflexivity.
  - exists l, σ'. split; [exact E|]. split_and!.
    + apply Hl. left. vm_compute. by eexists.
    + apply Hl. right. split; [discriminate|]. exists (mkKV "enable" "off").
      split; [vm_compute; apply elem_of_cons; by left|]. vm_compute. by eexists.
    + intros [[kvs Hk]|[_ (x & Hx & [v Hv])]]%Hl.
      * vm_compute in Hk. discriminate Hk.
      * vm_compute in Hx.
        repeat (apply elem_of_cons in Hx as [->|Hx]; [vm_compute in Hv; discriminate Hv|]).
        by apply elem_of_nil in Hx.
Defined.

Lemma Merge_env_targets_witness :
  let environ : gmap string string :=
    {[ "MINIO_NOTIFY_WEBHOOK_ENABLE" := "on"; "MINIO_NOTIFY_WEBHOOK_ENABLE_t1" := "on" ]} in
  let cfgKVS : gmap string KVS := {[ "t2" := mkKVS (Some 1) 3 ]} in
  ∃ m σ', Merge_env environ cfgKVS "MINIO_NOTIFY_WEBHOOK_ENABLE" nilKVS Fixture.σ0
            = (Done m, σ') ∧
    m !! "t2" = Some (mkKVS (Some 1) 3) ∧
    is_Some (m !! Default) ∧ is_Some (m !! "t1").
Proof.
  intros environ cfgKVS.
  destruct (Merge_env_targets environ cfgKVS "MINIO_NOTIFY_WEBHOOK_ENABLE" nilKVS Fixture.σ0)
    as (m & σ' & E & _ & Hcfg & Henv & Hdef & Htgt).
  exists m, σ'. split; [exact E|]. split_and!.
  - apply Hcfg. reflexivity.
  - apply Henv; [reflexivity|]. exists "MINIO_NOTIFY_WEBHOOK_ENABLE".
    split_and!; [by eexists|reflexivity|exact Hdef].
  - apply Henv; [reflexivity|]. exists "MINIO_NOTIFY_WEBHOOK_ENABLE_t1".
    split_and!; [by eexists|reflexivity|]. apply (Htgt "t1"). discriminate.
Defined.

(** A comment, an empty line and one directive, on a new store. *)
Lemma ReadConfig_returns_witness :
  ∃ c' dynOnly err σ',
    ReadConfig ["# webhooks"; ""; "notify_webhook:t1 endpoint=http://a"] None New Fixture.σ0
      = (Done (c', (dynOnly, err)), σ') ∧
    valid_store σ' c' ∧ complete c'.
Proof.
  destruct (ReadConfig_returns ["# webhooks"; ""; "notify_webhook:t1 endpoint=http://a"]
              None New Fixture.σ0)
    as (c' & d & err & σ' & E & Hv & _ & Hc & _).
  - apply valid_store_New. exact valid_table_fixture.
  - exact valid_table_fixture.
  - apply complete_New.
  - intros text Ht.
    apply elem_of_cons in Ht as [->|Ht]; [right; left; reflexivity|].
    apply elem_of_cons in Ht as [->|Ht]; [by left|].
    apply elem_of_cons in Ht as [->|Ht]; [|by apply elem_of_nil in Ht].
    right. right. by eexists _, _.
  - exists c', d, err, σ'. split; [exact E|]. split; [exact Hv|exact Hc].
Defined.

Lemma DelFrom_removes_witness :
  ∃ c' err, DelFrom ["# webhooks"; "notify_webhook"] None Fixture.c0 Fixture.σ0
              = (Done (c', err), Fixture.σ0) ∧
    (∀ s t kvs, entry c' s t = Some kvs → entry Fixture.c0 s t = Some kvs).
Proof.
  destruct (DelFrom_removes ["# webhooks"; "notify_webhook"] None Fixture.c0 Fixture.σ0)
    as (c' & err & E & Hsub & _).
  - intros text Ht.
    apply elem_of_cons in Ht as [->|Ht]; [right; left; reflexivity|].
    apply elem_of_cons in Ht as [->|Ht]; [|by apply elem_of_nil in Ht].
    right. right. vm_compute. discriminate.
  - exists c', err. split; [exact E|exact Hsub].
Defined.

End check_example.

(** ** Clone as a copy *)

Section clone_copy.
Context `{Imports} `{Registry}.

(** X17.  [Clone] on a well-formed store returns without writing to an
    array that existed.  Every entry of the store has, under the same
    subsystem and target, a slice in a new array that shows the same
    pairs, and a subsystem of the store gets no target it did not have.
    A registered subsystem the store lacks is added as [New] has it,
    with the default KVS of the registry itself as its default target.
    So the returned store has a map for every registered subsystem. *)
Theorem Clone_copies σ (c : Config) :
  valid_store σ c →
  ∃ nc σ', Clone c σ = (Done nc, σ') ∧
    (∀ a, a < length (heap σ) → heap σ' !! a = heap σ !! a) ∧
    (∀ s t kvs, entry c s t = Some kvs →
       ∃ k', entry nc s t = Some k' ∧ valid σ' k' ∧ elems σ' k' = elems σ kvs ∧
             owned (length (heap σ)) k') ∧
    (∀ s t, is_Some (c !! s) → entry c s t = None → entry nc s t = None) ∧
    (∀ s, c !! s = None → nc !! s = New !! s) ∧
    complete nc.
Proof.
  intros Hvc. apply wp_done. apply Clone_wp_store; [exact Hvc|].
  intros nc σ' Hext (Hnew & Hcl & _). exists nc. split; [reflexivity|]. split_and!.
  - by destruct Hext.
  - intros s t kvs He. unfold entry in *.
    destruct (c !! s) as [m|] eqn:Hc; [|discriminate He]. simpl in He.
    destruct (Hcl _ _ Hc) as (m' & Hnc & Hd & Hk & _). rewrite Hnc. simpl.
    destruct (m' !! t) as [k'|] eqn:Hm'; [|apply Hd in Hm'; congruence].
    destruct (Hk _ _ _ He Hm') as (Hv' & He' & Hr).
    exists k'. split_and!; [reflexivity|exact Hv'|exact He'|].
    unfold owned. destruct (ptr k') as [a|]; [|exact I]. by destruct (Hr a eq_refl).
  - intros s t [m Hc] He. unfold entry in *. rewrite Hc in He. simpl in He.
    destruct (Hcl _ _ Hc) as (m' & Hnc & Hd & _). rewrite Hnc. simpl. by apply Hd.
  - exact Hnew.
  - intros s Hs. destruct (c !! s) as [m|] eqn:Hc.
    + destruct (Hcl _ _ Hc) as (m' & Hnc & _). rewrite Hnc. by eexists.
    + rewrite (Hnew _ Hc), lookup_New. rewrite decide_True by exact Hs. by eexists.
Qed.

End clone_copy.

Section clone_copy_example.
#[local] Instance clone_copy_imports : Imports := Ref.imports (λ _, false).
#[local] Instance clone_copy_registry : Registry := Fixture.registry.

Lemma Clone_copies_witness :
  ∃ nc σ' k', Clone Fixture.c_secret Fixture.σ_secret = (Done nc, σ') ∧
    entry nc NotifyWebhookSubSys Default = Some k' ∧
    elems σ' k' = [mkKV "enable" "on"; mkKV "endpoint" "http://a";
                   mkKV "auth_token" "secret123"] ∧
    owned 6 k'.
Proof.
  destruct (Clone_copies Fixture.σ_secret Fixture.c_secret valid_store_secret)
    as (nc & σ' & E & _ & Hcopy & _).
  destruct (Hcopy NotifyWebhookSubSys Default (mkKVS (Some 4) 3) eq_refl)
    as (k' & Hk & _ & He & Ho).
  exists nc, σ', k'. split_and!; [exact E|exact Hk|exact He|exact Ho].
Defined.

End clone_copy_example.

(** ** GetKVS on a subsystem and target *)

Section getkvs_target.
Context `{Imports} `{Registry}.

(** A pair rebuilt from its fields. *)
Lemma mkKV_eta x : mkKV (Key x) (Value x) = x.
Proof. by destruct x. Qed.

(** The lookups of a KVS back-filled with defaults: a key the KVS has
    keeps its value, another key has the value of the defaults. *)
Lemma Lookup_list_backfill defaults l k :
  Lookup_list (backfill_list defaults l) k =
    if (Lookup_list l k).2 then Lookup_list l k else Lookup_list defaults k.
Proof.
  unfold backfill_list, set_each. revert l.
  induction defaults as [|x d IH]; intros l; simpl.
  - rewrite Lookup_list_find. by destruct (find_key l k).
  - rewrite IH. destruct (Lookup_list l (Key x)).2 eqn:Hx; simpl.
    + destruct (Lookup_list l k).2 eqn:Hk; [done|].
      destruct (decide (Key x = k)) as [<-|]; [congruence|done].
    + destruct (decide (Key x = k)) as [<-|Hne].
      * rewrite Lookup_list_kv_set. simpl. by rewrite Hx.
      * by rewrite Lookup_list_kv_set_ne.
Qed.

(** The back-fill loop of [GetKVS] over a slice that is not on the array
    of the defaults. *)
Lemma backfill_wp defaults kvs σ Φ :
  valid σ defaults → valid σ kvs →
  (∀ a, ptr defaults = Some a → ptr kvs ≠ Some a) →
  (∀ kvs' σ', valid σ' kvs' → sched σ' = sched σ →
     elems σ' kvs' = backfill_list (elems σ defaults) (elems σ kvs) →
     elems σ' defaults = elems σ defaults → Φ (Done kvs') σ') →
  wp (range_slice defaults (λ _ kv kvs,
        σ ← get_state;
        if (Lookup σ kvs (Key kv)).2 then ret kvs
        else Set_ kvs (Key kv) (Value kv)) kvs) σ Φ.
Proof.
  intros Hvd Hvk Hsep HΦ.
  set (g := λ (kv : KV) (cur : list KV), negb (Lookup_list cur (Key kv)).2).
  apply (range_slice_wp (λ pre cur σ1,
           valid σ1 cur ∧ sched σ1 = sched σ ∧
           elems σ1 cur = set_each g pre (elems σ kvs) ∧
           array σ1 (ptr defaults) = array σ (ptr defaults) ∧
           length (heap σ) ≤ length (heap σ1) ∧
           (∀ a, ptr defaults = Some a → ptr cur ≠ Some a))).
  - by split_and!.
  - by intros pre cur σ1 (_ & _ & _ & Ha & _).
  - intros pre x post cur σ1 _ (Hv1 & Hs1 & He1 & Ha1 & Hl1 & Hsep1).
    apply wp_bind, wp_get_state. unfold Lookup.
    assert (set_each g (pre ++ [x]) (elems σ kvs) =
            if g x (elems σ1 cur) then kv_set (elems σ1 cur) (Key x) (Value x)
            else elems σ1 cur) as Hstep.
    { unfold set_each. rewrite foldl_snoc. fold (set_each g pre (elems σ kvs)).
      by rewrite <- He1. }
    unfold g in Hstep at 2.
    destruct (Lookup_list (elems σ1 cur) (Key x)).2 eqn:Hx; simpl in Hstep.
    + apply wp_ret. exists cur. by split_and!.
    + destruct (Set_spec σ1 cur (Key x) (Value x) Hv1)
        as (cur2 & σ2 & E & Hv2 & He2 & Hp2 & Hfr & Hl2 & Hs2).
      unfold wp. rewrite E. simpl. exists cur2. split; [done|].
      assert (∀ a, ptr defaults = Some a → a < length (heap σ)) as Hlt.
      { intros a Hp. exact (valid_ptr _ _ _ Hvd Hp). }
      split_and!; [done|congruence|congruence| |lia|].
      * rewrite <- Ha1. unfold array. destruct (ptr defaults) as [a|] eqn:Hp; [|done].
        rewrite Hfr; [done|by apply Hsep1|]. specialize (Hlt a eq_refl). lia.
      * intros a Hp. destruct Hp2 as [->| ->]; [by apply Hsep1|].
        intros [= <-]. specialize (Hlt _ Hp). lia.
  - rewrite (cells_elems _ _ Hvd). intros cur σ' (Hv & Hs & He & Ha & _ & _).
    apply HΦ; [done..|]. unfold elems. by rewrite Ha.
Qed.

(** X18.  [GetKVS] with a query that names a registered subsystem and a
    target the store has returns one target, named as the query names it,
    whose KVS is the stored one back-filled with the defaults: a key the
    stored KVS has keeps its stored value, every other key looks up as in
    the default KVS of the subsystem.  The default KVS shows afterwards
    what it showed.  (The stored slice is taken to be on another array
    than the default KVS.) *)
Theorem GetKVS_target q tok subSys tgt defaultKVS (c : Config) σ kvs :
  q ≠ "" → Fields q = [tok] → SplitN2 tok SubSystemSeparator = [subSys; tgt] →
  subSys ∈ SubSystems → tgt ≠ "" →
  entry c subSys tgt = Some kvs → valid σ kvs → valid σ (defaultKVS !!! subSys) →
  (∀ a, ptr (defaultKVS !!! subSys) = Some a → ptr kvs ≠ Some a) →
  ∃ kvs' σ', GetKVS q defaultKVS c σ = (Done ([mkTarget tok kvs'], None), σ') ∧
    valid σ' kvs' ∧
    (∀ k, Lookup σ' kvs' k =
          if (Lookup σ kvs k).2 then Lookup σ kvs k
          else Lookup σ (defaultKVS !!! subSys) k) ∧
    elems σ' (defaultKVS !!! subSys) = elems σ (defaultKVS !!! subSys).
Proof.
  intros Hq HF Hsp Hreg Htgt He Hvk Hvd Hsep.
  apply (wp_done_as (λ kvs', ([mkTarget tok kvs'], None))).
  unfold GetKVS. rewrite decide_False by exact Hq. rewrite HF.
  destruct (decide (1 < length [tok])) as [Hl|_]; [simpl in Hl; lia|].
  rewrite bind_index_0, Hsp.
  apply Contains_true in Hreg. rewrite Hreg. cbn [negb].
  rewrite decide_False by exact Htgt. rewrite He.
  apply wp_bind. apply backfill_wp; [exact Hvd|exact Hvk|exact Hsep|].
  intros kvs' σ' Hv' _ Hel Hdef. apply wp_ret. exists kvs'.
  split; [reflexivity|]. split_and!; [exact Hv'| |exact Hdef].
  intros k. unfold Lookup. rewrite Hel. apply Lookup_list_backfill.
Qed.

End getkvs_target.

Section getkvs_target_example.
#[local] Instance getkvs_target_imports : Imports := Ref.imports (λ _, false).
#[local] Instance getkvs_target_registry : Registry := Fixture.registry.

(** The webhook with a token is asked for; its array is not the array of
    the default KVS. *)
Lemma GetKVS_target_witness :
  let c : Config := {[ NotifyWebhookSubSys := {[ "t1" := mkKVS (Some 4) 2 ]} ]} in
  ∃ kvs' σ', GetKVS "notify_webhook:t1" DefaultKVS c Fixture.σ_secret
               = (Done ([mkTarget "notify_webhook:t1" kvs'], None), σ') ∧
    Lookup σ' kvs' "endpoint" = ("http://a", true) ∧
    Lookup σ' kvs' "auth_token" = ("", true).
Proof.
  intros c.
  destruct (GetKVS_target "notify_webhook:t1" "notify_webhook:t1" "notify_webhook" "t1"
              DefaultKVS c Fixture.σ_secret (mkKVS (Some 4) 2))
    as (kvs' & σ' & E & _ & Hl & _).
  - discriminate.
  - reflexivity.
  - reflexivity.
  - apply Contains_true. vm_compute. reflexivity.
  - discriminate.
  - reflexivity.
  - unfold valid, cap. simpl. lia.
  - apply valid_table_total. exact valid_table_secret.
  - intros a Hp. vm_compute in Hp. injection Hp as <-. discriminate.
  - exists kvs', σ'. split_and!; [exact E| |].
    + rewrite Hl. reflexivity.
    + rewrite Hl. reflexivity.
Defined.

End getkvs_target_example.

(** ** The site and its region *)

Section site_facts.
Context `{Imports} `{Madmin} `{SiteEnv}.

Lemma validRegion_length s : validRegion s = true → 2 ≤ String.length s.
Proof.
  destruct s as [|a [|b rest]]; simpl; [discriminate| |lia].
  rewrite andb_false_r. discriminate.
Qed.

Lemma validSiteName_length s : validSiteName s = true → 2 ≤ String.length s.
Proof.
  destruct s as [|a [|b rest]]; simpl; [discriminate| |lia].
  rewrite andb_false_r. discriminate.
Qed.

(** X19.  Whatever [LookupSite] returns, with or without an error, a
    field of the site is empty or matches its pattern, and so has two
    characters or more; with an error the name is empty. *)
Theorem LookupSite_fields environ (siteKV regionKV : list KV) :
  let '(s, err) := LookupSite environ siteKV regionKV in
  (Region s = "" ∨ (validRegion (Region s) = true ∧ 2 ≤ String.length (Region s))) ∧
  (Name s = "" ∨ (validSiteName (Name s) = true ∧ 2 ≤ String.length (Name s))) ∧
  (err ≠ None → Name s = "").
Proof.
  unfold LookupSite.
  destruct (CheckValidKeys SiteSubSys siteKV DefaultSiteKVS) as [e|]; [by auto|].
  cbv zeta.
  set (r := if decide (env_Get environ EnvRegion "" = "")
            then env_Get environ EnvSiteRegion (Get_list siteKV RegionKey)
            else env_Get environ EnvRegion "").
  set (n := env_Get environ EnvSiteName (Get_list siteKV NameKey)).
  assert (∀ region,
    let '(s, err) :=
      if negb (bool_decide (region = "")) && negb (validRegion region)
      then (mkSite "" "",
            Errorf ("region '" +:+ region +:+ "' is invalid, expected simple " +:+
                    "characters such as [us-east-1, myregion...]"))
      else if negb (bool_decide (n = "")) && negb (validSiteName n)
           then (mkSite "" region,
                 Errorf ("site name '" +:+ n +:+ "' is invalid, expected simple " +:+
                         "characters such as [cal-rack0, myname...]"))
           else (mkSite n region, None) in
    (Region s = "" ∨ (validRegion (Region s) = true ∧ 2 ≤ String.length (Region s))) ∧
    (Name s = "" ∨ (validSiteName (Name s) = true ∧ 2 ≤ String.length (Name s))) ∧
    (err ≠ None → Name s = "")) as Hrest.
  { intros region.
    destruct (bool_decide (region = "")) eqn:Er; cbn [negb andb].
    - apply bool_decide_eq_true in Er.
      destruct (bool_decide (n = "")) eqn:En; cbn [negb andb].
      + apply bool_decide_eq_true in En. simpl. rewrite En. by auto.
      + destruct (validSiteName n) eqn:Ev; cbn [negb]; simpl.
        * split_and!; [by left| |done]. right. split; [exact Ev|by apply validSiteName_length].
        * by auto.
    - destruct (validRegion region) eqn:Evr; cbn [negb]; [|simpl; by auto].
      destruct (bool_decide (n = "")) eqn:En; cbn [negb andb].
      + apply bool_decide_eq_true in En. simpl. rewrite En.
        split_and!; [right; split; [exact Evr|by apply validRegion_length]|by left|done].
      + destruct (validSiteName n) eqn:Ev; cbn [negb]; simpl.
        * split_and!; [right; split; [exact Evr|by apply validRegion_length]| |done].
          right. split; [exact Ev|by apply validSiteName_length].
        * split_and!; [right; split; [exact Evr|by apply validRegion_length]|by left|done]. }
  destruct (decide (r = "")) as [Hr|Hr].
  - destruct (CheckValidKeys RegionSubSys regionKV DefaultRegionKVS) as [e|].
    + simpl. by auto.
    + apply Hrest.
  - apply Hrest.
Qed.

(** X20.  When [LookupSite] returns no error, every key of the site KVS
    is the comment key, [name] or [region]; the name is the value of the
    site-name variable, or without that variable the value stored under
    [name]; the region is the first of these that is not empty: the
    value of the region variable, the value of the site-region variable
    or without that variable the value stored under [region], and
    lastly the value the legacy region KVS stores under [name], whose
    keys are then the comment key or [name]. *)
Theorem LookupSite_accepted environ (siteKV regionKV : list KV) s :
  LookupSite environ siteKV regionKV = (s, None) →
  (∀ x, x ∈ siteKV → Key x = Comment ∨ Key x = NameKey ∨ Key x = RegionKey) ∧
  Name s = env_Get environ EnvSiteName (Get_list siteKV NameKey) ∧
  (env_Get environ EnvRegion "" ≠ "" → Region s = env_Get environ EnvRegion "") ∧
  (env_Get environ EnvRegion "" = "" →
   env_Get environ EnvSiteRegion (Get_list siteKV RegionKey) ≠ "" →
   Region s = env_Get environ EnvSiteRegion (Get_list siteKV RegionKey)) ∧
  (env_Get environ EnvRegion "" = "" →
   env_Get environ EnvSiteRegion (Get_list siteKV RegionKey) = "" →
   Region s = Get_list regionKV RegionName ∧
   ∀ x, x ∈ regionKV → Key x = Comment ∨ Key x = RegionName).
Proof.
  unfold LookupSite.
  destruct (CheckValidKeys SiteSubSys siteKV DefaultSiteKVS) as [e|] eqn:Ek; [discriminate|].
  cbv zeta.
  set (r := if decide (env_Get environ EnvRegion "" = "")
            then env_Get environ EnvSiteRegion (Get_list siteKV RegionKey)
            else env_Get environ EnvRegion "").
  set (n := env_Get environ EnvSiteName (Get_list siteKV NameKey)).
  assert (∀ region,
    (if negb (bool_decide (region = "")) && negb (validRegion region)
     then (mkSite "" "",
           Errorf ("region '" +:+ region +:+ "' is invalid, expected simple " +:+
                   "characters such as [us-east-1, myregion...]"))
     else if negb (bool_decide (n = "")) && negb (validSiteName n)
          then (mkSite "" region,
                Errorf ("site name '" +:+ n +:+ "' is invalid, expected simple " +:+
                        "characters such as [cal-rack0, myname...]"))
          else (mkSite n region, None)) = (s, None) →
    Name s = n ∧ Region s = region) as Hrest.
  { intros region.
    destruct (negb (bool_decide (region = "")) && negb (validRegion region));
      [discriminate|].
    destruct (negb (bool_decide (n = "")) && negb (validSiteName n)); [discriminate|].
    intros [= <-]. by split. }
  assert (∀ x, x ∈ siteKV → Key x = Comment ∨ Key x = NameKey ∨ Key x = RegionKey)
    as Hsite.
  { intros x Hx. destruct (CheckValidKeys_None _ _ _ Ek x Hx) as [?|Hin]; [by left|right].
    simpl in Hin. apply elem_of_cons in Hin as [?|Hin]; [by left|right].
    apply elem_of_cons in Hin as [?|Hin]; [done|]. by apply elem_of_nil in Hin. }
  destruct (decide (r = "")) as [Hr|Hr].
  - destruct (CheckValidKeys RegionSubSys regionKV DefaultRegionKVS) as [e|] eqn:Ekr;
      [discriminate|].
    intros [Hn Hreg]%Hrest. unfold r in Hr.
    destruct (decide (env_Get environ EnvRegion "" = "")) as [Hz|Hz].
    + split_and!; [exact Hsite|exact Hn|done|congruence|].
      intros _ _. split; [exact Hreg|].
      intros x Hx. destruct (CheckValidKeys_None _ _ _ Ekr x Hx) as [?|Hin]; [by left|right].
      simpl in Hin. apply elem_of_cons in Hin as [?|Hin]; [done|].
      by apply elem_of_nil in Hin.
    + contradiction.
  - intros [Hn Hreg]%Hrest. unfold r in Hr, Hreg.
    destruct (decide (env_Get environ EnvRegion "" = "")) as [Hz|Hz].
    + split_and!; [exact Hsite|exact Hn|done|by intros _ _|by intros _ ?].
    + split_and!; [exact Hsite|exact Hn|by intros _|done|done].
Qed.

(** X21.  The variable [EnvRegionName] is read and dropped: whatever it
    holds, and whether it is set or not, [LookupSite] returns the
    same. *)
Theorem LookupSite_ignores_region_name environ environ' (siteKV regionKV : list KV) :
  (∀ k, k ≠ EnvRegionName → environ' !! k = environ !! k) →
  EnvRegionName ≠ EnvRegion → EnvRegionName ≠ EnvSiteRegion →
  EnvRegionName ≠ EnvSiteName →
  LookupSite environ' siteKV regionKV = LookupSite environ siteKV regionKV.
Proof.
  intros Hsame Hn1 Hn2 Hn3. unfold LookupSite, env_Get.
  rewrite !(Hsame EnvRegion), !(Hsame EnvSiteRegion), !(Hsame EnvSiteName) by done.
  reflexivity.
Qed.

End site_facts.

Section site_example.
#[local] Instance site_imports : Imports := Ref.imports (λ _, false).
#[local] Instance site_madmin : Madmin := RefMadmin.madmin.
(** Sample names for the four variables. *)
#[local] Instance site_env : SiteEnv :=
  Build_SiteEnv "MINIO_REGION" "MINIO_REGION_NAME" "MINIO_SITE_REGION" "MINIO_SITE_NAME".

(** The site KVS names the site; the region comes from the legacy KVS. *)
Lemma LookupSite_accepted_witness :
  let siteKV := [mkKV "name" "cal-rack0"; mkKV "region" ""] in
  let regionKV := [mkKV "name" "us-east-1"] in
  LookupSite ∅ siteKV regionKV = (mkSite "cal-rack0" "us-east-1", None) ∧
  Region (mkSite "cal-rack0" "us-east-1") = Get_list regionKV RegionName.
Proof.
  intros siteKV regionKV.
  assert (LookupSite ∅ siteKV regionKV = (mkSite "cal-rack0" "us-east-1", None)) as E
    by (vm_compute; reflexivity).
  split; [exact E|].
  destruct (LookupSite_accepted ∅ siteKV regionKV _ E) as (_ & _ & _ & _ & Hl).
  apply Hl; reflexivity.
Defined.

(** The dropped variable is set to a region; the region of the site KVS
    is still the one returned. *)
Lemma LookupSite_ignores_region_name_witness :
  let siteKV := [mkKV "region" "myregion"] in
  LookupSite {[ "MINIO_REGION_NAME" := "other" ]} siteKV [] = LookupSite ∅ siteKV [].
Proof.
  intros siteKV. apply LookupSite_ignores_region_name.
  - intros k Hk. simpl in Hk. rewrite lookup_empty. apply lookup_singleton_ne. congruence.
  - discriminate.
  - discriminate.
  - discriminate.
Defined.

End site_example.
